(** * A k-d tree with parent links: kdtree.hpp

    The class [KDTree<std::tuple<KeyTypes...>, ValueType>] stores nodes on the
    heap, linked by [left], [right] and [parent] pointers.  The embedding keeps
    that shape: a tree object is a node store (a finite map from addresses to
    the nodes the tree owns), a root pointer and the [treeSize] counter.
    [new] takes an address that the store does not hold, [delete] removes
    the node from the store.  Functions that only read take the store;
    functions that allocate, overwrite or release nodes pass the tree state
    along.

    A result [None] means that the call dereferenced a pointer with no node
    behind it, or that a pointer walk did not end within its bound; the
    bound of every walk is the number of nodes in the store plus one, which
    no walk through links without a cycle exceeds.

    The file has the code first (keys, the node store, the protected and
    the public members, the iterator), then the shape that a store draws
    and the functions on shapes that the proofs compare the code with,
    then the properties. *)

From stdpp Require Import gmap list sorting strings.
From Stdlib Require Import ZArith Lia.

Open Scope Z_scope.

(** ** Keys and the comparisons on one dimension *)

(** A key is a tuple of [KeySize] components; the components are integers
    here.  [std::get<DIM>] reads one component. *)
Definition Key : Type := list Z.

Definition get (DIM : nat) (a : Key) : Z := nth DIM a 0.

(** [operator<] of [std::tuple]: lexicographic, component by component.  Keys
    of one tree have the same arity; on lists of different lengths, which the
    tuple type excludes, a proper prefix is the smaller one. *)
Fixpoint tuple_lt (a b : Key) : bool :=
  match a, b with
  | x :: a', y :: b' =>
      if x <? y then true else if y <? x then false else tuple_lt a' b'
  | [], _ :: _ => true
  | _, [] => false
  end.

(** [operator==] of [std::tuple]. *)
Definition tuple_eq (a b : Key) : bool := bool_decide (a = b).

(** The two orderings the code passes as [Compare]: [std::less<>] and
    [std::greater<>].  Both apply to components and to whole tuples. *)
Inductive Compare : Type := Less | Greater.

Definition compare_comp (c : Compare) (x y : Z) : bool :=
  match c with
  | Less => x <? y
  | Greater => y <? x
  end.

Definition compare_tuple (c : Compare) (a b : Key) : bool :=
  match c with
  | Less => tuple_lt a b
  | Greater => tuple_lt b a
  end.

Definition compareKey (DIM : nat) (c : Compare) (a b : Key) : bool :=
  if negb (get DIM a =? get DIM b)
  then compare_comp c (get DIM a) (get DIM b)
  else compare_tuple c a b.

Definition strictLessKey (DIM : nat) (c : Compare) (a b : Key) : bool :=
  compare_comp c (get DIM a) (get DIM b).

Global Arguments get : simpl never.
Global Arguments tuple_eq : simpl never.
Global Arguments compareKey : simpl never.
Global Arguments strictLessKey : simpl never.

(** ** Sequence algorithms of the standard library used by the constructor *)

(** [std::stable_sort]: the elements are inserted from the last to the first,
    each one in front of the first element of the sorted rest that is not
    smaller, so equivalent elements keep their input order. *)
Fixpoint insert_sorted {A : Type} (lt : A -> A -> bool) (x : A) (l : list A)
  : list A :=
  match l with
  | [] => [x]
  | y :: l' => if lt y x then y :: insert_sorted lt x l' else x :: l
  end.

Definition stable_sort {A : Type} (lt : A -> A -> bool) (l : list A) : list A :=
  foldr (insert_sorted lt) [] l.

(** Ascending: no element is smaller than one before it. *)
Definition ascending {A : Type} (lt : A -> A -> bool) (l : list A) : Prop :=
  StronglySorted (fun a b => lt b a = false) l.

(** [std::nth_element(first, first + n, last, comp)] rearranges the range:
    the element that a full sort would put at position [n] is there, no
    element before it is greater and no element behind it is smaller.  The
    order inside the two parts is left open, so the function is a parameter
    of the constructor.  [nth_element_post] is what the standard promises
    of it; [nth_element_sorted], which sorts the whole range, is one
    function that keeps the promise. *)
Definition nth_element_post {A : Type} (lt : A -> A -> bool) (n : nat)
    (v v' : list A) : Prop :=
  v' ≡ₚ v
  ∧ ∀ d, v' !! n = Some d →
         Forall (fun x => lt d x = false) (take n v')
         ∧ Forall (fun y => lt y d = false) (drop (S n) v').

Definition nth_element_sorted {A : Type} (lt : A -> A -> bool) (n : nat)
    (l : list A) : list A :=
  stable_sort lt l.

(** [std::unique]: of every run of consecutive elements that [pred] relates,
    the first one stays. *)
Fixpoint unique_from {A : Type} (pred : A -> A -> bool) (kept : A) (l : list A)
  : list A :=
  match l with
  | [] => [kept]
  | x :: l' =>
      if pred kept x then unique_from pred kept l'
      else kept :: unique_from pred x l'
  end.

Definition unique {A : Type} (pred : A -> A -> bool) (l : list A) : list A :=
  match l with
  | [] => []
  | x :: l' => unique_from pred x l'
  end.

(** ** Nodes, the node store and the tree object *)

Definition ptr : Type := nat.

(** [size_t] arithmetic wraps at 2^64. *)
Definition size_t_mod : Z := 2 ^ 64.
Definition wrap (z : Z) : Z := z mod size_t_mod.

Section KDTree.

Context {Value : Type}.

(** [KeySize], the number of dimensions; the class asserts [KeySize > 0]. *)
Variable KeySize : nat.

(** [typedef std::pair<const Key, Value> Data]. *)
#[local] Abbreviation Data := (Key * Value)%type.

Record Node : Type := mkNode {
  data : Data;
  parent : option ptr;
  left : option ptr;
  right : option ptr
}.

Definition key (n : Node) : Key := fst (data n).
Definition value (n : Node) : Value := snd (data n).

Abbreviation store := (gmap ptr Node).

Record KDTree : Type := mkKDTree {
  heap : store;
  root : option ptr;
  treeSize : Z
}.

(** [KDTree() = default]. *)
Definition empty_tree : KDTree := mkKDTree ∅ None 0.

Definition DIM_NEXT (DIM : nat) : nat := ((DIM + 1) mod KeySize)%nat.

(** Bound on pointer walks: a walk through a store without cycles visits no
    more nodes than the store holds. *)
Definition fuel_of (h : store) : nat := S (size h).

Definition set_data (a : ptr) (d : Data) (h : store) : option store :=
  n ← h !! a; Some (<[a := mkNode d (parent n) (left n) (right n)]> h).

Definition set_left (a : ptr) (p : option ptr) (h : store) : option store :=
  n ← h !! a; Some (<[a := mkNode (data n) (parent n) p (right n)]> h).

Definition set_right (a : ptr) (p : option ptr) (h : store) : option store :=
  n ← h !! a; Some (<[a := mkNode (data n) (parent n) (left n) p]> h).

Definition with_heap (t : KDTree) (h : store) : KDTree :=
  mkKDTree h (root t) (treeSize t).

(** ** Protected members *)

(** [find<DIM>(key, node)]. *)
Fixpoint find_in (fuel : nat) (h : store) (DIM : nat) (k : Key)
    (node : option ptr) : option (option ptr) :=
  match fuel with
  | O => None
  | S fuel' =>
      match node with
      | None => Some None
      | Some a =>
          n ← h !! a;
          if tuple_eq (key n) k then Some node
          else if strictLessKey DIM Less k (key n)
          then find_in fuel' h (DIM_NEXT DIM) k (left n)
          else find_in fuel' h (DIM_NEXT DIM) k (right n)
      end
  end.

(** [insert<DIM>(key, value, node, parent)].  [node] is a reference to the
    pointer slot ([root], [node->left] or [node->right]); the slot's content
    goes in, its new content comes back with the result, and the caller
    stores it in the slot it passed. *)
Fixpoint insert_in (fuel : nat) (DIM : nat) (k : Key) (v : Value)
    (node par : option ptr) (t : KDTree)
  : option (bool * option ptr * KDTree) :=
  match fuel with
  | O => None
  | S fuel' =>
      match node with
      | None =>
          let a := fresh (dom (heap t)) in
          Some (true, Some a,
                mkKDTree (<[a := mkNode (k, v) par None None]> (heap t))
                         (root t) (wrap (treeSize t + 1)))
      | Some a =>
          n ← heap t !! a;
          if tuple_eq (key n) k then
            h ← set_data a (key n, v) (heap t);
            Some (false, node, with_heap t h)
          else if strictLessKey DIM Less k (key n) then
            '(b, l, t1) ← insert_in fuel' (DIM_NEXT DIM) k v (left n) node t;
            h ← set_left a l (heap t1);
            Some (b, node, with_heap t1 h)
          else
            '(b, r, t1) ← insert_in fuel' (DIM_NEXT DIM) k v (right n) node t;
            h ← set_right a r (heap t1);
            Some (b, node, with_heap t1 h)
      end
  end.

(** [compareNode<DIM, Compare>(a, b)]. *)
Definition compareNode (h : store) (DIM : nat) (c : Compare)
    (a b : option ptr) : option (option ptr) :=
  match a, b with
  | None, _ => Some b
  | _, None => Some a
  | Some pa, Some pb =>
      na ← h !! pa; nb ← h !! pb;
      Some (if compareKey DIM c (key na) (key nb) then a else b)
  end.

(** [findMin<DIM_CMP, DIM>(node)]. *)
Fixpoint findMin_in (fuel : nat) (h : store) (DIM_CMP DIM : nat)
    (node : option ptr) : option (option ptr) :=
  match fuel with
  | O => None
  | S fuel' =>
      match node with
      | None => Some None
      | Some a =>
          n ← h !! a;
          min ← findMin_in fuel' h DIM_CMP (DIM_NEXT DIM) (left n);
          min ← (if bool_decide (DIM_CMP ≠ DIM) then
                   r ← findMin_in fuel' h DIM_CMP (DIM_NEXT DIM) (right n);
                   compareNode h DIM_CMP Less min r
                 else Some min);
          compareNode h DIM_CMP Less min node
      end
  end.

(** [findMax<DIM_CMP, DIM>(node)]. *)
Fixpoint findMax_in (fuel : nat) (h : store) (DIM_CMP DIM : nat)
    (node : option ptr) : option (option ptr) :=
  match fuel with
  | O => None
  | S fuel' =>
      match node with
      | None => Some None
      | Some a =>
          n ← h !! a;
          max ← findMax_in fuel' h DIM_CMP (DIM_NEXT DIM) (right n);
          max ← (if bool_decide (DIM_CMP ≠ DIM) then
                   l ← findMax_in fuel' h DIM_CMP (DIM_NEXT DIM) (left n);
                   compareNode h DIM_CMP Greater max l
                 else Some max);
          compareNode h DIM_CMP Greater max node
      end
  end.

(** [findMinDynamic<DIM>(dim)] and [findMaxDynamic<DIM>(dim)]: the template
    is instantiated for each of the [KeySize] dimensions in turn; [steps]
    counts the instantiations still to try. *)
Fixpoint findMinDynamic (steps : nat) (DIM : nat) (dim : nat) (t : KDTree)
  : option (option ptr) :=
  match steps with
  | O => None
  | S steps' =>
      let dim := if (KeySize <=? dim)%nat then (dim mod KeySize)%nat else dim in
      if (dim =? DIM)%nat
      then findMin_in (fuel_of (heap t)) (heap t) DIM 0 (root t)
      else findMinDynamic steps' (DIM_NEXT DIM) dim t
  end.

Fixpoint findMaxDynamic (steps : nat) (DIM : nat) (dim : nat) (t : KDTree)
  : option (option ptr) :=
  match steps with
  | O => None
  | S steps' =>
      let dim := if (KeySize <=? dim)%nat then (dim mod KeySize)%nat else dim in
      if (dim =? DIM)%nat
      then findMax_in (fuel_of (heap t)) (heap t) DIM 0 (root t)
      else findMaxDynamic steps' (DIM_NEXT DIM) dim t
  end.

(** [erase<DIM>(node, key)].  The key is passed by reference and may alias
    the key of a node that the call overwrites; each activation reads it
    only before its first write, so passing the value gives the same
    result. *)
Fixpoint erase_in (fuel : nat) (DIM : nat) (node : option ptr) (k : Key)
    (t : KDTree) : option (option ptr * KDTree) :=
  match fuel with
  | O => None
  | S fuel' =>
      match node with
      | None => Some (None, t)
      | Some a =>
          n ← heap t !! a;
          if tuple_eq k (key n) then
            match left n, right n with
            | None, None =>
                let sz := wrap (treeSize t - 1) in
                Some (None,
                      mkKDTree (delete a (heap t))
                               (if sz =? 0 then None else root t) sz)
            | _, Some _ =>
                minNode ← findMin_in fuel' (heap t) DIM (DIM_NEXT DIM) (right n);
                m ← minNode;
                nm ← heap t !! m;
                h1 ← set_data a (data nm) (heap t);
                '(r, t2) ← erase_in fuel' (DIM_NEXT DIM) (right n) (key nm)
                                    (with_heap t h1);
                h3 ← set_right a r (heap t2);
                Some (node, with_heap t2 h3)
            | Some _, None =>
                maxNode ← findMax_in fuel' (heap t) DIM (DIM_NEXT DIM) (left n);
                m ← maxNode;
                nm ← heap t !! m;
                h1 ← set_data a (data nm) (heap t);
                '(l, t2) ← erase_in fuel' (DIM_NEXT DIM) (left n) (key nm)
                                    (with_heap t h1);
                h3 ← set_left a l (heap t2);
                Some (node, with_heap t2 h3)
            end
          else if strictLessKey DIM Less k (key n) then
            '(l, t1) ← erase_in fuel' (DIM_NEXT DIM) (left n) k t;
            h ← set_left a l (heap t1);
            Some (node, with_heap t1 h)
          else
            '(r, t1) ← erase_in fuel' (DIM_NEXT DIM) (right n) k t;
            h ← set_right a r (heap t1);
            Some (node, with_heap t1 h)
      end
  end.

(** [eraseDynamic<DIM>(node, dim)]. *)
Fixpoint eraseDynamic (steps : nat) (DIM : nat) (node : ptr) (dim : nat)
    (t : KDTree) : option (option ptr * KDTree) :=
  match steps with
  | O => None
  | S steps' =>
      let dim := if (KeySize <=? dim)%nat then (dim mod KeySize)%nat else dim in
      if (dim =? DIM)%nat then
        n ← heap t !! node;
        erase_in (fuel_of (heap t)) DIM (Some node) (key n) t
      else eraseDynamic steps' (DIM_NEXT DIM) node dim t
  end.

Definition compareData (DIM : nat) (a b : Data) : bool :=
  compareKey DIM Less (fst a) (fst b).

(** The [std::nth_element] that the constructor is compiled with. *)
Variable nth_element : (Data → Data → bool) → nat → list Data → list Data.

(** [KDTree_helper<DIM>(v, parent)]. *)
Fixpoint KDTree_helper (fuel : nat) (DIM : nat) (v : list Data)
    (par : option ptr) (h : store) : option (option ptr * store) :=
  match fuel with
  | O => None
  | S fuel' =>
      match v with
      | [] => Some (None, h)
      | _ :: _ =>
          let mid := ((length v - 1) / 2)%nat in
          let v := nth_element (compareData DIM) mid v in
          d ← v !! mid;
          let now := fresh (dom h) in
          let h := <[now := mkNode d par None None]> h in
          '(l, h) ← KDTree_helper fuel' (DIM_NEXT DIM) (take mid v) (Some now) h;
          h ← set_left now l h;
          '(r, h) ← KDTree_helper fuel' (DIM_NEXT DIM) (drop (mid + 1) v)
                                  (Some now) h;
          h ← set_right now r h;
          Some (Some now, h)
      end
  end.

(** [copyAll(root, parent)]: [src] is the store of the tree copied from. *)
Fixpoint copyAll (fuel : nat) (src : store) (node par : option ptr) (h : store)
  : option (option ptr * store) :=
  match fuel with
  | O => None
  | S fuel' =>
      match node with
      | None => Some (None, h)
      | Some a =>
          n ← src !! a;
          let now := fresh (dom h) in
          let h := <[now := mkNode (key n, value n) par None None]> h in
          '(l, h) ← copyAll fuel' src (left n) (Some now) h;
          h ← set_left now l h;
          '(r, h) ← copyAll fuel' src (right n) (Some now) h;
          h ← set_right now r h;
          Some (Some now, h)
      end
  end.

(** [deleteAll(root)].  [root->right] is read after the call for the left
    subtree has returned, and [delete root] needs the node to be there
    still. *)
Fixpoint deleteAll (fuel : nat) (node : option ptr) (h : store) : option store :=
  match fuel with
  | O => None
  | S fuel' =>
      match node with
      | None => Some h
      | Some a =>
          n ← h !! a;
          h ← deleteAll fuel' (left n) h;
          n ← h !! a;
          h ← deleteAll fuel' (right n) h;
          _ ← h !! a;
          Some (delete a h)
      end
  end.

(** ** The iterator

    An [Iterator] holds the tree it belongs to and a node pointer; the end
    iterator holds the null pointer.  [operator==] compares the node
    pointers only, so the model of an iterator is its node pointer, and the
    tree is the one passed along. *)

Definition Iterator : Type := option ptr.

(** [while (node->left) node = node->left;] *)
Fixpoint leftmost (fuel : nat) (h : store) (node : ptr) : option ptr :=
  match fuel with
  | O => None
  | S fuel' =>
      n ← h !! node;
      match left n with
      | Some l => leftmost fuel' h l
      | None => Some node
      end
  end.

(** [while (node->right) node = node->right;] *)
Fixpoint rightmost (fuel : nat) (h : store) (node : ptr) : option ptr :=
  match fuel with
  | O => None
  | S fuel' =>
      n ← h !! node;
      match right n with
      | Some r => rightmost fuel' h r
      | None => Some node
      end
  end.

(** [do { temp = node; node = node->parent; } while (node && node->left != temp);] *)
Fixpoint climb_from_right (fuel : nat) (h : store) (node : ptr)
  : option (option ptr) :=
  match fuel with
  | O => None
  | S fuel' =>
      n ← h !! node;
      match parent n with
      | None => Some None
      | Some p =>
          pn ← h !! p;
          if bool_decide (left pn ≠ Some node)
          then climb_from_right fuel' h p
          else Some (Some p)
      end
  end.

(** [do { temp = node; node = node->parent; } while (node && node->right != temp);] *)
Fixpoint climb_from_left (fuel : nat) (h : store) (node : ptr)
  : option (option ptr) :=
  match fuel with
  | O => None
  | S fuel' =>
      n ← h !! node;
      match parent n with
      | None => Some None
      | Some p =>
          pn ← h !! p;
          if bool_decide (right pn ≠ Some node)
          then climb_from_left fuel' h p
          else Some (Some p)
      end
  end.

Definition end_ (t : KDTree) : Iterator := None.

Definition begin (t : KDTree) : option Iterator :=
  match root t with
  | None => Some (end_ t)
  | Some r => Some <$> leftmost (fuel_of (heap t)) (heap t) r
  end.

Definition increment (t : KDTree) (node : Iterator) : option Iterator :=
  match node with
  | None => Some None
  | Some a =>
      n ← heap t !! a;
      match right n with
      | Some r => Some <$> leftmost (fuel_of (heap t)) (heap t) r
      | None => climb_from_right (fuel_of (heap t)) (heap t) a
      end
  end.

Definition decrement (t : KDTree) (node : Iterator) : option Iterator :=
  match node with
  | None =>
      match root t with
      | Some r => Some <$> rightmost (fuel_of (heap t)) (heap t) r
      | None => Some None
      end
  | Some a =>
      n ← heap t !! a;
      match left n with
      | Some l => Some <$> rightmost (fuel_of (heap t)) (heap t) l
      | None =>
          b ← begin t;
          if bool_decide (node = b) then Some node
          else climb_from_left (fuel_of (heap t)) (heap t) a
      end
  end.

(** [operator*]: the entry behind an iterator. *)
Definition deref (t : KDTree) (it : Iterator) : option Data :=
  a ← it; n ← heap t !! a; Some (data n).

(** ** Public members *)

(** [explicit KDTree(std::vector<std::pair<Key, Value>> v)].  [std::unique]
    runs over the reversed vector (from [rbegin()] to [rend()]) with the
    lambda [same_key], and [v.assign(it.base(), v.end())] makes the part
    it keeps, in vector order, the new content. *)
Definition same_key (a b : Data) : bool := tuple_eq (fst a) (fst b).

Definition dedup (v : list Data) : list Data :=
  let v := stable_sort (compareData 0) v in
  reverse (unique same_key (reverse v)).

Definition KDTree_of (v : list Data) : option KDTree :=
  let v := dedup v in
  '(r, h) ← KDTree_helper (S (length v)) 0 v None ∅;
  Some (mkKDTree h r (Z.of_nat (length v))).

(** [KDTree(const KDTree &that)]. *)
Definition KDTree_copy (that : KDTree) : option KDTree :=
  '(r, h) ← copyAll (fuel_of (heap that)) (heap that) (root that) None ∅;
  Some (mkKDTree h r (treeSize that)).

(** [KDTree &operator=(const KDTree &that)].  The two operands are tree
    objects, and the first test compares their addresses; [objs] holds the
    tree objects of the program by address.  The nodes that [copyAll]
    allocates go to the store of [this], from which [deleteAll] has taken
    the old ones. *)
Definition operator_assign (this that : ptr) (objs : gmap ptr KDTree)
  : option (gmap ptr KDTree) :=
  if bool_decide (this = that) then Some objs
  else
    dst ← objs !! this;
    src ← objs !! that;
    h ← deleteAll (fuel_of (heap dst)) (root dst) (heap dst);
    '(r, h) ← copyAll (fuel_of (heap src)) (heap src) (root src) None h;
    Some (<[this := mkKDTree h r (treeSize src)]> objs).

(** [~KDTree()]: what is left of the store. *)
Definition destructor (t : KDTree) : option store :=
  deleteAll (fuel_of (heap t)) (root t) (heap t).

Definition find (t : KDTree) (k : Key) : option Iterator :=
  find_in (fuel_of (heap t)) (heap t) 0 k (root t).

Definition insert (k : Key) (v : Value) (t : KDTree) : option KDTree :=
  '(_, r, t1) ← insert_in (fuel_of (heap t)) 0 k v (root t) None t;
  Some (mkKDTree (heap t1) r (treeSize t1)).

(** [findMin<DIM>()] and [findMin(dim)], [findMax<DIM>()] and
    [findMax(dim)]. *)
Definition findMin_static (DIM : nat) (t : KDTree) : option Iterator :=
  findMin_in (fuel_of (heap t)) (heap t) DIM 0 (root t).

Definition findMin (dim : nat) (t : KDTree) : option Iterator :=
  findMinDynamic KeySize 0 dim t.

Definition findMax_static (DIM : nat) (t : KDTree) : option Iterator :=
  findMax_in (fuel_of (heap t)) (heap t) DIM 0 (root t).

Definition findMax (dim : nat) (t : KDTree) : option Iterator :=
  findMaxDynamic KeySize 0 dim t.

(** [bool erase(const Key &key)]: the pointer [erase<0>] returns is dropped. *)
Definition erase (k : Key) (t : KDTree) : option (bool * KDTree) :=
  let prevSize := treeSize t in
  '(_, t1) ← erase_in (fuel_of (heap t)) 0 (root t) k t;
  Some (treeSize t1 <? prevSize, t1).

(** [while (temp) { temp = temp->parent; ++depth; }] *)
Fixpoint depth_from (fuel : nat) (h : store) (temp : option ptr) (depth : nat)
  : option nat :=
  match fuel with
  | O => None
  | S fuel' =>
      match temp with
      | None => Some depth
      | Some a => n ← h !! a; depth_from fuel' h (parent n) (S depth)
      end
  end.

(** [Iterator erase(Iterator it)]: the pointer [eraseDynamic<0>] returns is
    dropped. *)
Definition erase_it (it : Iterator) (t : KDTree) : option (Iterator * KDTree) :=
  match it with
  | None => Some (it, t)
  | Some node =>
      n ← heap t !! node;
      let it' := if bool_decide (left n = None ∧ right n = None)
                 then parent n else it in
      depth ← depth_from (fuel_of (heap t)) (heap t) (parent n) 0;
      '(_, t1) ← eraseDynamic KeySize 0 node (depth mod KeySize)%nat t;
      Some (it', t1)
  end.

Definition size (t : KDTree) : Z := treeSize t.

(** The entries met by [for (it = begin(); it != end(); ++it)], and by
    stepping back from [end()] for [steps] steps. *)
Fixpoint walk_forward (steps : nat) (t : KDTree) (it : Iterator)
  : option (list ptr) :=
  match it with
  | None => Some []
  | Some a =>
      match steps with
      | O => None
      | S steps' =>
          it' ← increment t it;
          rest ← walk_forward steps' t it';
          Some (a :: rest)
      end
  end.

Definition forward (t : KDTree) : option (list ptr) :=
  b ← begin t; walk_forward (fuel_of (heap t)) t b.

(** [n] steps of [++it] or [--it]: where the iterator ends, and the positions
    it passes, the first and the last one included. *)
Fixpoint step (f : Iterator → option Iterator) (n : nat) (it : Iterator)
  : option Iterator :=
  match n with
  | O => Some it
  | S n' => it' ← f it; step f n' it'
  end.

Fixpoint trace (f : Iterator → option Iterator) (n : nat) (it : Iterator)
  : option (list Iterator) :=
  match n with
  | O => Some [it]
  | S n' => it' ← f it; rest ← trace f n' it'; Some (it :: rest)
  end.

End KDTree.

Global Arguments DIM_NEXT : simpl never.
Global Arguments fuel_of : simpl never.
Global Arguments increment : simpl never.
Global Arguments decrement : simpl never.
Global Arguments begin : simpl never.
Arguments Node : clear implicits.
Arguments KDTree : clear implicits.


(** * The shape behind a store

    The binary tree that the pointers of a store draw, with the address and
    the entry of every node.  [repr h par s] reads: in [h], the nodes of [s]
    are linked as [s] says, and the root of [s] has parent [par]. *)

Section Shape.

Context {Value : Type}.
Variable KeySize : nat.
Variable nth_element : (Key * Value → Key * Value → bool) → nat →
                       list (Key * Value) → list (Key * Value).

Abbreviation Node := (Node Value).
Abbreviation Data := (Key * Value)%type.
Abbreviation KDTree := (KDTree Value).

Inductive tree : Type :=
  | Leaf
  | Br (l : tree) (a : ptr) (d : Data) (r : tree).

Definition root_of (s : tree) : option ptr :=
  match s with
  | Leaf => None
  | Br _ a _ _ => Some a
  end.

(** Nodes in in-order: left subtree, node, right subtree. *)
Fixpoint nodes (s : tree) : list (ptr * Data) :=
  match s with
  | Leaf => []
  | Br l a d r => nodes l ++ (a, d) :: nodes r
  end.

Definition ptrs (s : tree) : list ptr := (nodes s).*1.
Definition entries (s : tree) : list Data := (nodes s).*2.

Fixpoint height (s : tree) : nat :=
  match s with
  | Leaf => O
  | Br l _ _ r => S (Nat.max (height l) (height r))
  end.

Fixpoint repr (h : gmap ptr Node) (par : option ptr) (s : tree) : Prop :=
  match s with
  | Leaf => True
  | Br l a d r =>
      ∃ n, h !! a = Some n ∧ data n = d ∧ parent n = par
           ∧ left n = root_of l ∧ right n = root_of r
           ∧ repr h (Some a) l ∧ repr h (Some a) r
  end.

(** The tree object [t] holds the shape [s]: the root pointer leads to it,
    and no node occurs twice. *)
Definition shape_of (t : KDTree) (s : tree) : Prop :=
  root t = root_of s ∧ repr (heap t) None s ∧ NoDup (ptrs s).

(** ** Descent: [find] and [insert] on a shape *)

Fixpoint find_t (DIM : nat) (k : Key) (s : tree) : option ptr :=
  match s with
  | Leaf => None
  | Br l a d r =>
      if tuple_eq (fst d) k then Some a
      else if strictLessKey DIM Less k (fst d)
      then find_t (DIM_NEXT KeySize DIM) k l
      else find_t (DIM_NEXT KeySize DIM) k r
  end.

(** [new_a] is the address of the node that an insertion allocates. *)
Fixpoint insert_t (DIM : nat) (k : Key) (v : Value) (new_a : ptr) (s : tree)
  : tree :=
  match s with
  | Leaf => Br Leaf new_a (k, v) Leaf
  | Br l a d r =>
      if tuple_eq (fst d) k then Br l a (fst d, v) r
      else if strictLessKey DIM Less k (fst d)
      then Br (insert_t (DIM_NEXT KeySize DIM) k v new_a l) a d r
      else Br l a d (insert_t (DIM_NEXT KeySize DIM) k v new_a r)
  end.

(** ** Extremum queries on a shape *)

Definition compareNode_t (DIM : nat) (c : Compare) (a b : option (ptr * Data))
  : option (ptr * Data) :=
  match a, b with
  | None, _ => b
  | _, None => a
  | Some x, Some y => if compareKey DIM c (fst (snd x)) (fst (snd y)) then a else b
  end.

Fixpoint findMin_t (DIM_CMP DIM : nat) (s : tree) : option (ptr * Data) :=
  match s with
  | Leaf => None
  | Br l a d r =>
      let min := findMin_t DIM_CMP (DIM_NEXT KeySize DIM) l in
      let min := if bool_decide (DIM_CMP ≠ DIM)
                 then compareNode_t DIM_CMP Less min
                        (findMin_t DIM_CMP (DIM_NEXT KeySize DIM) r)
                 else min in
      compareNode_t DIM_CMP Less min (Some (a, d))
  end.

Fixpoint findMax_t (DIM_CMP DIM : nat) (s : tree) : option (ptr * Data) :=
  match s with
  | Leaf => None
  | Br l a d r =>
      let max := findMax_t DIM_CMP (DIM_NEXT KeySize DIM) r in
      let max := if bool_decide (DIM_CMP ≠ DIM)
                 then compareNode_t DIM_CMP Greater max
                        (findMax_t DIM_CMP (DIM_NEXT KeySize DIM) l)
                 else max in
      compareNode_t DIM_CMP Greater max (Some (a, d))
  end.

(** ** The tree invariant

    [kd_invariant DIM s]: at a node that splits on [DIM], every key of the
    left subtree is strictly smaller in component [DIM] and no key of the
    right subtree is; the children split on the next dimension. *)
Fixpoint kd_invariant (DIM : nat) (s : tree) : Prop :=
  match s with
  | Leaf => True
  | Br l a d r =>
      Forall (λ e, get DIM (fst e) < get DIM (fst d)) (entries l)
      ∧ Forall (λ e, ¬ get DIM (fst e) < get DIM (fst d)) (entries r)
      ∧ kd_invariant (DIM_NEXT KeySize DIM) l
      ∧ kd_invariant (DIM_NEXT KeySize DIM) r
  end.

(** [partitioned DIM s] lets the left subtree tie with the node: no key on
    the left is greater, no key on the right is smaller. *)
Fixpoint partitioned (DIM : nat) (s : tree) : Prop :=
  match s with
  | Leaf => True
  | Br l a d r =>
      Forall (λ e, get DIM (fst e) ≤ get DIM (fst d)) (entries l)
      ∧ Forall (λ e, get DIM (fst d) ≤ get DIM (fst e)) (entries r)
      ∧ partitioned (DIM_NEXT KeySize DIM) l
      ∧ partitioned (DIM_NEXT KeySize DIM) r
  end.

(** ** [erase] on a shape *)

Fixpoint erase_t (DIM : nat) (k : Key) (s : tree) : tree :=
  match s with
  | Leaf => Leaf
  | Br l a d r =>
      if tuple_eq k (fst d) then
        match l, r with
        | Leaf, Leaf => Leaf
        | _, Br _ _ _ _ =>
            match findMin_t DIM (DIM_NEXT KeySize DIM) r with
            | Some (_, dm) =>
                Br l a dm (erase_t (DIM_NEXT KeySize DIM) (fst dm) r)
            | None => s
            end
        | Br _ _ _ _, Leaf =>
            match findMax_t DIM (DIM_NEXT KeySize DIM) l with
            | Some (_, dm) =>
                Br (erase_t (DIM_NEXT KeySize DIM) (fst dm) l) a dm Leaf
            | None => s
            end
        end
      else if strictLessKey DIM Less k (fst d)
      then Br (erase_t (DIM_NEXT KeySize DIM) k l) a d r
      else Br l a d (erase_t (DIM_NEXT KeySize DIM) k r)
  end.

(** What one call of [erase<DIM>] does to the counters: nothing, or one node
    less and the root cleared when the count reaches zero. *)
Definition erase_effect (t t' : KDTree) (s s' : tree) : Prop :=
  (length (ptrs s') = length (ptrs s)
   ∧ treeSize t' = treeSize t ∧ root t' = root t)
  ∨ (S (length (ptrs s')) = length (ptrs s)
     ∧ treeSize t' = wrap (treeSize t - 1)
     ∧ root t' = if treeSize t' =? 0 then None else root t).

(** ** A shape with a hole

    The path from a subtree up to the root: each frame is an ancestor with
    its other subtree.  [InL a d r] says that the hole is the left child of
    node [a], [InR l a d] that it is the right child. *)
Inductive frame : Type :=
  | InL (a : ptr) (d : Data) (r : tree)
  | InR (l : tree) (a : ptr) (d : Data).

Fixpoint plug (s : tree) (ctx : list frame) : tree :=
  match ctx with
  | [] => s
  | InL a d r :: c => plug (Br s a d r) c
  | InR l a d :: c => plug (Br l a d s) c
  end.

(** The nodes that in-order puts before and after the hole. *)
Fixpoint before (ctx : list frame) : list ptr :=
  match ctx with
  | [] => []
  | InL a d r :: c => before c
  | InR l a d :: c => before c ++ ptrs l ++ [a]
  end.

Fixpoint after (ctx : list frame) : list ptr :=
  match ctx with
  | [] => []
  | InL a d r :: c => a :: ptrs r ++ after c
  | InR l a d :: c => after c
  end.

Definition ctx_parent (ctx : list frame) : option ptr :=
  match ctx with
  | [] => None
  | InL a _ _ :: _ => Some a
  | InR _ a _ :: _ => Some a
  end.

(** [repr_ctx h rootp ctx p]: in [h] the ancestors are linked as [ctx] says,
    the pointer into the hole is [p], and the pointer to the whole is
    [rootp]. *)
Fixpoint repr_ctx (h : gmap ptr Node) (rootp : option ptr) (ctx : list frame)
    (p : option ptr) : Prop :=
  match ctx with
  | [] => p = rootp
  | InL a d r :: c =>
      ∃ n, h !! a = Some n ∧ data n = d ∧ parent n = ctx_parent c
           ∧ left n = p ∧ right n = root_of r
           ∧ repr h (Some a) r ∧ repr_ctx h rootp c (Some a)
  | InR l a d :: c =>
      ∃ n, h !! a = Some n ∧ data n = d ∧ parent n = ctx_parent c
           ∧ left n = root_of l ∧ right n = p
           ∧ repr h (Some a) l ∧ repr_ctx h rootp c (Some a)
  end.

(** The dimension on which the node behind [depth] links from the root
    splits: [DIM_NEXT] taken [depth] times from 0. *)
Definition dim_at (depth : nat) : nat := Nat.iter depth (DIM_NEXT KeySize) 0%nat.

(** The store of [t] holds the nodes of [s] and no other node. *)
Definition owns (t : KDTree) (s : tree) : Prop :=
  shape_of t s ∧ ∀ x, x ∈ dom (heap t) → x ∈ ptrs s.

(** ** What the constructor is to keep

    The value that the last pair with key [k] in [v] carries, and the keys
    of [v] without repetition. *)
Definition last_value (k : Key) (v : list Data) : option Value :=
  snd <$> last (filter (λ e, e.1 = k) v).

Definition distinct_keys (v : list Data) : list Key := remove_dups (v.*1).

(** ** Trees that the public members build *)

(** Two shapes with the same entries in the same places; the addresses may
    differ. *)
Fixpoint same_data (s s' : tree) : Prop :=
  match s, s' with
  | Leaf, Leaf => True
  | Br l _ d r, Br l' _ d' r' => d = d' ∧ same_data l l' ∧ same_data r r'
  | _, _ => False
  end.

(** A tree object in good order: its store holds a partitioned shape, and
    [treeSize] counts the nodes. *)
Definition valid (t : KDTree) : Prop :=
  ∃ s, shape_of t s ∧ partitioned 0 s
       ∧ size t = Z.of_nat (length (ptrs s)) ∧ size t < size_t_mod.

(** The trees a program gets from the constructors, [insert] and
    [erase(key)].  A vector and a tree hold fewer than 2^64 elements. *)
Inductive built : KDTree → Prop :=
  | built_empty : built empty_tree
  | built_of v t :
      Z.of_nat (length v) < size_t_mod → KDTree_of KeySize nth_element v = Some t →
      built t
  | built_copy t t' : built t → KDTree_copy t = Some t' → built t'
  | built_insert k v t t' :
      built t → size t + 1 < size_t_mod → insert KeySize k v t = Some t' →
      built t'
  | built_erase k t b t' :
      built t → erase KeySize k t = Some (b, t') → built t'.

End Shape.

(** * Sample trees (two dimensions, string values) *)

(** The example of the specification: three pairs, no ties. *)
Definition pairs_xyz : list (Key * string) :=
  [([2; 3], "x"); ([1; 1], "y"); ([4; 0], "z")].

Definition tree_xyz : KDTree string :=
  default empty_tree (KDTree_of 2 nth_element_sorted pairs_xyz).

Definition shape_xyz : @tree string :=
  Br (Br Leaf 1%nat ([1; 1], "y") Leaf) 0%nat ([2; 3], "x")
     (Br Leaf 2%nat ([4; 0], "z") Leaf).

(** The same pairs and a second pair for the key [(2,3)]. *)
Definition pairs_dup : list (Key * string) :=
  [([2; 3], "x"); ([1; 1], "y"); ([4; 0], "z"); ([2; 3], "w")].

(** Three keys that tie in dimension 0, built in bulk. *)
Definition pairs_ties : list (Key * string) :=
  [([3; 1], "a"); ([3; 2], "b"); ([3; 3], "c")].

Definition tree_ties : KDTree string :=
  default empty_tree (KDTree_of 2 nth_element_sorted pairs_ties).

Definition shape_ties : @tree string :=
  Br (Br Leaf 1%nat ([3; 1], "a") Leaf) 0%nat ([3; 2], "b")
     (Br Leaf 2%nat ([3; 3], "c") Leaf).

(** A root with a left subtree only, in which two keys tie in dimension 0,
    built by three calls of [insert]. *)
Definition tree_left : KDTree string :=
  default empty_tree
    (t ← insert 2 [5; 0] "a" empty_tree;
     t ← insert 2 [3; 1] "b" t;
     insert 2 [3; 2] "c" t).

Definition shape_left : @tree string :=
  Br (Br Leaf 1%nat ([3; 1], "b") (Br Leaf 2%nat ([3; 2], "c") Leaf))
     0%nat ([5; 0], "a") Leaf.

Definition shape_left_erased : @tree string :=
  Br (Br Leaf 1%nat ([3; 1], "b") Leaf) 0%nat ([3; 2], "c") Leaf.

(** A root and its right child, a leaf. *)
Definition tree_two : KDTree string :=
  default empty_tree
    (t ← insert 2 [5; 0] "a" empty_tree; insert 2 [7; 1] "b" t).

Definition shape_two : @tree string :=
  Br Leaf 0%nat ([5; 0], "a") (Br Leaf 1%nat ([7; 1], "b") Leaf).

(** The tree of the example after [insert((1,2), "a")], and that tree after
    [erase((2,3))], which removes the entry at its root. *)
Definition tree_grown : KDTree string :=
  default empty_tree (insert 2 [1; 2] "a" tree_xyz).

Definition tree_cut : KDTree string :=
  default empty_tree (snd <$> erase 2 [2; 3] tree_grown).

(** ** Tactics that settle facts about the sample trees by evaluation *)

Ltac solve_shape :=
  unfold shape_of; split; [vm_compute; reflexivity|]; split;
  [vm_compute; repeat first [exact I | reflexivity | split | eexists]
  |apply (bool_decide_unpack _); vm_compute; exact I].

Ltac solve_inv :=
  cbn [kd_invariant partitioned]; unfold entries; cbn [nodes fmap list_fmap app snd];
  repeat split; repeat constructor; vm_compute;
  first [reflexivity | intro; discriminate].


(** ** Tactics for calls that went through *)

(** From [H : (x ← m; k x) = Some _]: [m] returned a result. *)
Tactic Notation "bind_inv" hyp(H) :=
  match type of H with
  | mbind _ ?m = Some _ =>
      let E := fresh "E" in
      destruct m eqn:E; cbn [mbind option_bind] in H; [|discriminate H]
  end.

Tactic Notation "bind_inv" hyp(H) "as" simple_intropattern(pat) :=
  match type of H with
  | mbind _ ?m = Some _ =>
      let E := fresh "E" in
      destruct m as [pat|] eqn:E; cbn [mbind option_bind] in H;
      [|discriminate H]
  end.

(** Decidable facts about the sample trees, by evaluation. *)
Ltac solve_dec := apply (bool_decide_unpack _); vm_compute; exact I.

(** * Properties *)

(** ** The orders on keys *)

Lemma tuple_lt_irrefl (a : Key) : tuple_lt a a = false.
Proof.
  induction a as [|x a IH]; simpl; [done|].
  by rewrite Z.ltb_irrefl.
Qed.

Lemma tuple_lt_trans (a b c : Key) :
  tuple_lt a b = true → tuple_lt b c = true → tuple_lt a c = true.
Proof.
  revert b c. induction a as [|x a IH]; intros [|y b] [|z c]; simpl; try done.
  destruct (Z.ltb_spec x y), (Z.ltb_spec y x), (Z.ltb_spec y z),
    (Z.ltb_spec z y), (Z.ltb_spec x z), (Z.ltb_spec z x);
    try done; try lia. apply IH.
Qed.

Lemma tuple_lt_total (a b : Key) :
  a ≠ b → tuple_lt a b = true ∨ tuple_lt b a = true.
Proof.
  revert b. induction a as [|x a IH]; intros [|y b] Hne; simpl; auto.
  destruct (Z.ltb_spec x y), (Z.ltb_spec y x); auto; try lia.
  assert (x = y) as -> by lia. apply IH. congruence.
Qed.

Lemma compareKey_Less_irrefl DIM (a : Key) : compareKey DIM Less a a = false.
Proof.
  unfold compareKey. rewrite Z.eqb_refl. simpl. apply tuple_lt_irrefl.
Qed.

Lemma compareKey_Less_trans DIM (a b c : Key) :
  compareKey DIM Less a b = true → compareKey DIM Less b c = true →
  compareKey DIM Less a c = true.
Proof.
  unfold compareKey, compare_comp, compare_tuple.
  destruct (Z.eqb_spec (get DIM a) (get DIM b)),
    (Z.eqb_spec (get DIM b) (get DIM c)),
    (Z.eqb_spec (get DIM a) (get DIM c)); simpl;
    rewrite ?Z.ltb_lt; try lia; try congruence.
  apply tuple_lt_trans.
Qed.

Lemma compareKey_Less_total DIM (a b : Key) :
  a ≠ b → compareKey DIM Less a b = true ∨ compareKey DIM Less b a = true.
Proof.
  intros Hne. unfold compareKey, compare_comp, compare_tuple.
  destruct (Z.eqb_spec (get DIM a) (get DIM b)),
    (Z.eqb_spec (get DIM b) (get DIM a)); simpl;
    rewrite ?Z.ltb_lt; try lia; try congruence.
  by apply tuple_lt_total.
Qed.

Lemma compareKey_Less_asym DIM (a b : Key) :
  compareKey DIM Less a b = true → compareKey DIM Less b a = false.
Proof.
  intros H. destruct (compareKey DIM Less b a) eqn:E; [|done].
  pose proof (compareKey_Less_trans _ _ _ _ H E) as Hc.
  by rewrite compareKey_Less_irrefl in Hc.
Qed.

(** A key that is smaller than [c] is smaller than [b], or [b] is smaller
    than [c]. *)
Lemma compareKey_Less_neg_trans DIM (a b c : Key) :
  compareKey DIM Less a c = true →
  compareKey DIM Less a b = true ∨ compareKey DIM Less b c = true.
Proof.
  intros H. destruct (decide (a = b)) as [->|Hne]; [by right|].
  destruct (compareKey_Less_total DIM a b Hne) as [Hab|Hba]; [by left|].
  right. by eapply compareKey_Less_trans.
Qed.

(** A key that is not smaller than another is not smaller in the compared
    component. *)
Lemma compareKey_Less_false DIM (a b : Key) :
  compareKey DIM Less a b = false → get DIM b ≤ get DIM a.
Proof.
  unfold compareKey, compare_comp.
  destruct (Z.eqb_spec (get DIM a) (get DIM b)); simpl; [lia|].
  destruct (Z.ltb_spec (get DIM a) (get DIM b)); [done|lia].
Qed.

(** ** Sorting and run compression *)

Section Sorting.

Context {A : Type} (lt : A → A → bool).
Hypothesis lt_asym : ∀ a b, lt a b = true → lt b a = false.
Hypothesis lt_neg_trans :
  ∀ a b c, lt a c = true → lt a b = true ∨ lt b c = true.

Lemma insert_sorted_perm x (l : list A) : insert_sorted lt x l ≡ₚ x :: l.
Proof.
  induction l as [|y l IH]; simpl; [done|].
  destruct (lt y x); [|done]. rewrite IH. apply Permutation_swap.
Qed.

Lemma stable_sort_perm (l : list A) : stable_sort lt l ≡ₚ l.
Proof.
  induction l as [|x l IH]; simpl; [done|].
  rewrite insert_sorted_perm. by rewrite IH.
Qed.

Lemma insert_sorted_ascending x (l : list A) :
  ascending lt l → ascending lt (insert_sorted lt x l).
Proof.
  unfold ascending. induction l as [|y l IH]; simpl; intros Hs.
  - repeat constructor.
  - apply StronglySorted_inv in Hs as (Hs & Hy).
    destruct (lt y x) eqn:E.
    + constructor; [by apply IH|].
      rewrite insert_sorted_perm. constructor; [by apply lt_asym|done].
    + constructor; [by constructor|].
      constructor; [done|].
      eapply Forall_impl; [exact Hy|]. simpl. intros z Hz.
      destruct (lt z x) eqn:E'; [|done].
      destruct (lt_neg_trans z y x E') as [H|H]; congruence.
Qed.

Lemma stable_sort_ascending (l : list A) : ascending lt (stable_sort lt l).
Proof.
  induction l as [|x l IH]; simpl; [constructor|].
  by apply insert_sorted_ascending.
Qed.

(** Stability: the elements of a class that [lt] does not separate keep
    their order. *)
Lemma insert_sorted_filter (P : A → Prop) `{!∀ a, Decision (P a)} x (l : list A) :
  (∀ a b, P a → P b → lt a b = false) →
  filter P (insert_sorted lt x l) = filter P (x :: l).
Proof.
  intros HP. induction l as [|y l IH]; simpl; [done|].
  destruct (lt y x) eqn:E; [|done].
  rewrite filter_cons, IH, !filter_cons.
  destruct (decide (P y)), (decide (P x)); try done.
  rewrite HP in E; done.
Qed.

Lemma stable_sort_filter (P : A → Prop) `{!∀ a, Decision (P a)} (l : list A) :
  (∀ a b, P a → P b → lt a b = false) →
  filter P (stable_sort lt l) = filter P l.
Proof.
  intros HP. induction l as [|x l IH]; simpl; [done|].
  rewrite insert_sorted_filter by done. by rewrite !filter_cons, IH.
Qed.

End Sorting.

(** ** Shapes and stores *)

Section Proofs.

Context {Value : Type}.
Variable KeySize : nat.

Abbreviation Node := (Node Value).
Abbreviation Data := (Key * Value)%type.
Abbreviation KDTree := (KDTree Value).
Abbreviation tree := (@tree Value).

(** The [std::nth_element] in use, and the promise it keeps for the
    comparisons of the constructor. *)
Variable nth_element : (Data → Data → bool) → nat → list Data → list Data.
Hypothesis nth_element_ok :
  ∀ DIM n (v : list Data),
    nth_element_post (compareData DIM) n v (nth_element (compareData DIM) n v).

Implicit Types (s l r : tree) (d : Data) (t : KDTree) (n : Node).
Implicit Types (h : gmap ptr Node) (a : ptr) (k : Key) (v : Value).

Lemma ptrs_Br l a d r : ptrs (Br l a d r) = ptrs l ++ a :: ptrs r.
Proof. unfold ptrs. simpl. by rewrite fmap_app. Qed.

Lemma entries_Br l a d r : entries (Br l a d r) = entries l ++ d :: entries r.
Proof. unfold entries. simpl. by rewrite fmap_app. Qed.

Lemma NoDup_Br l a d r :
  NoDup (ptrs (Br l a d r)) →
  NoDup (ptrs l) ∧ NoDup (ptrs r) ∧ (a ∉ ptrs l) ∧ (a ∉ ptrs r)
  ∧ (∀ x, x ∈ ptrs l → x ∉ ptrs r).
Proof.
  rewrite ptrs_Br. intros H. apply NoDup_app in H as (Hl & Hd & Hr).
  apply NoDup_cons in Hr as (Ha & Hr). repeat split; auto.
  - intros Hin. apply (Hd _ Hin). left.
  - intros x Hx Hx'. apply (Hd _ Hx). by right.
Qed.

Lemma height_le_length s : (height s ≤ length (ptrs s))%nat.
Proof.
  induction s as [|l IHl a d r IHr]; simpl; [lia|].
  rewrite ptrs_Br, length_app. simpl. lia.
Qed.

Lemma repr_lookup h par s a d :
  repr h par s → (a, d) ∈ nodes s → ∃ n, h !! a = Some n ∧ data n = d.
Proof.
  revert par. induction s as [|l IHl b e r IHr]; simpl; intros par H Hin.
  - by apply not_elem_of_nil in Hin.
  - destruct H as (n & Hn & Hd & _ & _ & _ & Rl & Rr).
    apply elem_of_app in Hin as [Hin|Hin]; [by eapply IHl|].
    apply elem_of_cons in Hin as [Heq|Hin]; [|by eapply IHr].
    inversion Heq; subst. eauto.
Qed.

Lemma repr_ptrs_dom h par s a : repr h par s → a ∈ ptrs s → a ∈ dom h.
Proof.
  intros H Hin. unfold ptrs in Hin. apply list_elem_of_fmap in Hin as ([b d] & -> & Hin).
  destruct (repr_lookup _ _ _ _ _ H Hin) as (n & Hn & _).
  apply elem_of_dom. eauto.
Qed.

Lemma repr_size h par s : repr h par s → NoDup (ptrs s) → (length (ptrs s) ≤ base.size h)%nat.
Proof.
  intros H Hnd. rewrite <- size_dom.
  rewrite <- (size_list_to_set (C := gset ptr) (ptrs s)) by done.
  apply subseteq_size. intros x Hx. apply elem_of_list_to_set in Hx.
  by eapply repr_ptrs_dom.
Qed.

Lemma repr_fuel h par s : repr h par s → NoDup (ptrs s) → (height s < fuel_of h)%nat.
Proof.
  intros H Hnd. unfold fuel_of.
  pose proof (height_le_length s). pose proof (repr_size _ _ _ H Hnd). lia.
Qed.

(** Nodes outside a shape can change without the shape noticing. *)
Lemma repr_frame h h' par s :
  repr h par s → (∀ x, x ∈ ptrs s → h' !! x = h !! x) → repr h' par s.
Proof.
  revert par. induction s as [|l IHl a d r IHr]; simpl; intros par H Hfr; [done|].
  destruct H as (n & Hn & Hd & Hp & Hl & Hr & Rl & Rr).
  exists n. rewrite Hfr by (rewrite ptrs_Br, elem_of_app; right; left).
  repeat split; auto.
  - apply IHl; auto. intros x Hx. apply Hfr. rewrite ptrs_Br.
    apply elem_of_app. by left.
  - apply IHr; auto. intros x Hx. apply Hfr. rewrite ptrs_Br.
    apply elem_of_app. right. by right.
Qed.

(** The parent link of the root is the only place where [par] matters. *)
Lemma repr_Leaf_root h par s : root_of s = None → repr h par s → s = Leaf.
Proof. destruct s; simpl; [done|discriminate]. Qed.

Lemma find_in_spec h par s k :
  repr h par s →
  ∀ fuel DIM, (height s < fuel)%nat →
    find_in KeySize fuel h DIM k (root_of s) = Some (find_t KeySize DIM k s).
Proof.
  revert par. induction s as [|l IHl a d r IHr]; intros par H fuel DIM Hf;
    (destruct fuel as [|fuel]; [simpl in Hf; lia|]); simpl; [done|].
  destruct H as (n & Hn & Hd & Hp & Hl & Hr & Rl & Rr).
  simpl in Hf. rewrite Hn. simpl. unfold key. rewrite Hd, Hl, Hr.
  destruct (tuple_eq (fst d) k); [done|].
  destruct (strictLessKey DIM Less k (fst d)).
  - eapply IHl; eauto. lia.
  - eapply IHr; eauto. lia.
Qed.

Lemma find_t_elem DIM k s a :
  find_t KeySize DIM k s = Some a → ∃ v, (a, (k, v)) ∈ nodes s.
Proof.
  revert DIM. induction s as [|l IHl b d r IHr]; simpl; intros DIM H; [done|].
  destruct (tuple_eq (fst d) k) eqn:E.
  - inversion H; subst. apply bool_decide_eq_true in E. destruct d as [k' v].
    simpl in E. subst. exists v. apply elem_of_app. right. left.
  - destruct (strictLessKey DIM Less k (fst d)).
    + destruct (IHl _ H) as (v & Hv). exists v. apply elem_of_app. by left.
    + destruct (IHr _ H) as (v & Hv). exists v. apply elem_of_app. right. by right.
Qed.

(** The node that [insert] leaves behind for a key is the one [find] reaches. *)
Lemma find_insert_t DIM k v new_a s :
  ∃ a, find_t KeySize DIM k (insert_t KeySize DIM k v new_a s) = Some a
       ∧ (a, (k, v)) ∈ nodes (insert_t KeySize DIM k v new_a s).
Proof.
  revert DIM. induction s as [|l IHl b d r IHr]; simpl; intros DIM.
  - unfold tuple_eq. rewrite bool_decide_eq_true_2 by done.
    exists new_a. split; [done|]. left.
  - destruct (tuple_eq (fst d) k) eqn:E; simpl.
    + rewrite E. exists b. split; [done|].
      apply bool_decide_eq_true in E. rewrite E.
      apply elem_of_app. right. left.
    + destruct (strictLessKey DIM Less k (fst d)) eqn:E'; simpl; rewrite E, E'.
      * destruct (IHl (DIM_NEXT KeySize DIM)) as (a & Ha & Hin).
        exists a. split; [done|]. apply elem_of_app. by left.
      * destruct (IHr (DIM_NEXT KeySize DIM)) as (a & Ha & Hin).
        exists a. split; [done|]. apply elem_of_app. right. by right.
Qed.

Lemma ptrs_insert_t DIM k v new_a s x :
  x ∈ ptrs (insert_t KeySize DIM k v new_a s) → x ∈ ptrs s ∨ x = new_a.
Proof.
  revert DIM. induction s as [|l IHl a d r IHr]; simpl; intros DIM.
  - rewrite ptrs_Br. simpl. intros Hx. apply list_elem_of_singleton in Hx. by right.
  - destruct (tuple_eq (fst d) k); [rewrite !ptrs_Br; by left|].
    destruct (strictLessKey DIM Less k (fst d)); rewrite !ptrs_Br, !elem_of_app,
      !elem_of_cons; intros [H|[H|H]]; auto.
    + apply IHl in H as [H|H]; auto.
    + apply IHr in H as [H|H]; auto.
Qed.

Lemma NoDup_insert_t DIM k v new_a s :
  new_a ∉ ptrs s → NoDup (ptrs s) → NoDup (ptrs (insert_t KeySize DIM k v new_a s)).
Proof.
  revert DIM. induction s as [|l IHl a d r IHr]; simpl; intros DIM Hnew Hnd.
  - rewrite ptrs_Br. simpl. apply NoDup_singleton.
  - destruct (tuple_eq (fst d) k); [by rewrite ptrs_Br in *|].
    rewrite ptrs_Br in Hnew.
    apply not_elem_of_app in Hnew as (Hnl & Hnr).
    apply not_elem_of_cons in Hnr as (Hna & Hnr).
    destruct (NoDup_Br _ _ _ _ Hnd) as (Hl & Hr & Hal & Har & Hlr).
    destruct (strictLessKey DIM Less k (fst d)); rewrite ptrs_Br;
      apply NoDup_app; repeat split; auto.
    + intros x Hx Hx'. apply ptrs_insert_t in Hx as [Hx| ->].
      * apply elem_of_cons in Hx' as [->|Hx']; [done|]. by apply (Hlr x).
      * apply elem_of_cons in Hx' as [?|Hx']; done.
    + apply NoDup_cons. by split.
    + intros x Hx Hx'. apply elem_of_cons in Hx' as [->|Hx']; [done|].
      apply ptrs_insert_t in Hx' as [Hx'| ->]; [by apply (Hlr x)|done].
    + apply NoDup_cons. split; auto.
      intros Hx. apply ptrs_insert_t in Hx as [Hx|Hx]; [done|]. by subst.
Qed.

Lemma insert_in_spec s :
  ∀ par (t : KDTree) fuel DIM k v,
    repr (heap t) par s → NoDup (ptrs s) → (height s < fuel)%nat →
    let new_a := fresh (dom (heap t)) in
    let s' := insert_t KeySize DIM k v new_a s in
    ∃ b t',
      insert_in KeySize fuel DIM k v (root_of s) par t = Some (b, root_of s', t')
      ∧ repr (heap t') par s'
      ∧ (∀ x, x ∉ ptrs s → x ≠ new_a → heap t' !! x = heap t !! x)
      ∧ root t' = root t
      ∧ treeSize t' = (if b then wrap (treeSize t + 1) else treeSize t).
Proof.
  induction s as [|l IHl a d r IHr]; intros par t fuel DIM k v H Hnd Hf;
    (destruct fuel as [|fuel]; [simpl in Hf; lia|]); simpl.
  - eexists true, _. split; [reflexivity|]. simpl. repeat split; auto.
    + eexists. rewrite lookup_insert_eq. repeat split; done.
    + intros x _ Hx. by rewrite lookup_insert_ne.
  - destruct H as (n & Hn & Hd & Hp & Hl & Hr & Rl & Rr). simpl in Hf.
    destruct (NoDup_Br _ _ _ _ Hnd) as (Hndl & Hndr & Hal & Har & Hlr).
    assert (Hfresh : ∀ x, x ∈ dom (heap t) → x ≠ fresh (dom (heap t))).
    { intros x Hx ->. by apply (is_fresh (dom (heap t))). }
    assert (Ha : a ≠ fresh (dom (heap t))).
    { apply Hfresh, elem_of_dom. eauto. }
    rewrite Hn. simpl. unfold key, set_data. rewrite Hd.
    destruct (tuple_eq (fst d) k) eqn:E; simpl.
    + rewrite Hn. simpl. eexists false, _. split; [reflexivity|]. simpl.
      repeat split; auto.
      * eexists. rewrite lookup_insert_eq. split; [done|]. simpl.
        repeat split; auto; (eapply repr_frame; [eassumption|]);
          intros x Hx; apply lookup_insert_ne; congruence.
      * intros x Hx _. apply lookup_insert_ne. rewrite ptrs_Br in Hx.
        intros ->. apply Hx, elem_of_app. right. left.
    + destruct (strictLessKey DIM Less k (fst d)) eqn:E'.
      * rewrite Hl.
        destruct (IHl (Some a) t fuel (DIM_NEXT KeySize DIM) k v Rl Hndl
                    ltac:(lia)) as (b & t1 & -> & R1 & Fr1 & Hroot & Hsz).
        simpl. unfold set_left.
        rewrite (Fr1 a Hal Ha), Hn. simpl.
        eexists b, _. split; [reflexivity|]. simpl. repeat split; auto.
        -- eexists. rewrite lookup_insert_eq. split; [done|]. simpl.
           repeat split; auto.
           ++ eapply repr_frame; [exact R1|]. intros x Hx.
              apply lookup_insert_ne. intros ->.
              apply ptrs_insert_t in Hx as [Hx|Hx]; done.
           ++ eapply repr_frame; [exact Rr|]. intros x Hx.
              rewrite lookup_insert_ne by congruence.
              apply Fr1; [by intros Hx'; apply (Hlr x)|].
              apply Hfresh. eapply repr_ptrs_dom; [exact Rr|exact Hx].
        -- intros x Hx Hx'. rewrite ptrs_Br in Hx.
           apply not_elem_of_app in Hx as (Hxl & Hxr).
           apply not_elem_of_cons in Hxr as (Hxa & Hxr).
           rewrite lookup_insert_ne by done. by apply Fr1.
      * rewrite Hr.
        destruct (IHr (Some a) t fuel (DIM_NEXT KeySize DIM) k v Rr Hndr
                    ltac:(lia)) as (b & t1 & -> & R1 & Fr1 & Hroot & Hsz).
        simpl. unfold set_right.
        rewrite (Fr1 a Har Ha), Hn. simpl.
        eexists b, _. split; [reflexivity|]. simpl. repeat split; auto.
        -- eexists. rewrite lookup_insert_eq. split; [done|]. simpl.
           repeat split; auto.
           ++ eapply repr_frame; [exact Rl|]. intros x Hx.
              rewrite lookup_insert_ne by congruence.
              apply Fr1; [by apply Hlr|].
              apply Hfresh. eapply repr_ptrs_dom; [exact Rl|exact Hx].
           ++ eapply repr_frame; [exact R1|]. intros x Hx.
              apply lookup_insert_ne. intros ->.
              apply ptrs_insert_t in Hx as [Hx|Hx]; done.
        -- intros x Hx Hx'. rewrite ptrs_Br in Hx.
           apply not_elem_of_app in Hx as (Hxl & Hxr).
           apply not_elem_of_cons in Hxr as (Hxa & Hxr).
           rewrite lookup_insert_ne by done. by apply Fr1.
Qed.

Lemma Node_eta (n : Node) : mkNode (data n) (parent n) (left n) (right n) = n.
Proof. by destruct n. Qed.

(** When the key is on the descent path already, [insert] rewrites the value
    of that node and nothing else. *)
Lemma insert_in_present s :
  ∀ par (t : KDTree) fuel DIM k v a,
    repr (heap t) par s → NoDup (ptrs s) → (height s < fuel)%nat →
    find_t KeySize DIM k s = Some a →
    ∃ n, heap t !! a = Some n ∧ key n = k
      ∧ insert_in KeySize fuel DIM k v (root_of s) par t
        = Some (false, root_of s,
                with_heap t (<[a := mkNode (k, v) (parent n) (left n) (right n)]>
                               (heap t))).
Proof.
  induction s as [|l IHl b d r IHr]; intros par t fuel DIM k v a H Hnd Hf Hfind;
    (destruct fuel as [|fuel]; [simpl in Hf; lia|]); simpl in *; [done|].
  destruct H as (n & Hn & Hd & Hp & Hl & Hr & Rl & Rr).
  destruct (NoDup_Br _ _ _ _ Hnd) as (Hndl & Hndr & Hal & Har & Hlr).
  rewrite Hn. simpl. unfold key, set_data. rewrite Hd.
  destruct (tuple_eq (fst d) k) eqn:E; simpl.
  - inversion Hfind; subst a. apply bool_decide_eq_true in E.
    exists n. rewrite Hn. simpl. unfold key. rewrite Hd, E. done.
  - destruct (strictLessKey DIM Less k (fst d)) eqn:E'.
    + destruct (IHl (Some b) t fuel _ k v a Rl Hndl ltac:(lia) Hfind)
        as (na & Hna & Hk & Hins).
      exists na. split; [done|]. split; [done|].
      rewrite Hl, Hins. simpl. unfold set_left.
      assert (b ≠ a).
      { intros ->. apply find_t_elem in Hfind as (w & Hw). apply Hal.
        unfold ptrs. apply list_elem_of_fmap. by exists (a, (k, w)). }
      rewrite lookup_insert_ne by done. rewrite Hn. simpl.
      rewrite <- Hl, Node_eta.
      by rewrite (insert_id _ b n) by (by rewrite lookup_insert_ne).
    + destruct (IHr (Some b) t fuel _ k v a Rr Hndr ltac:(lia) Hfind)
        as (na & Hna & Hk & Hins).
      exists na. split; [done|]. split; [done|].
      rewrite Hr, Hins. simpl. unfold set_right.
      assert (b ≠ a).
      { intros ->. apply find_t_elem in Hfind as (w & Hw). apply Har.
        unfold ptrs. apply list_elem_of_fmap. by exists (a, (k, w)). }
      rewrite lookup_insert_ne by done. rewrite Hn. simpl.
      rewrite <- Hr, Node_eta.
      by rewrite (insert_id _ b n) by (by rewrite lookup_insert_ne).
Qed.

Lemma find_t_insert_present DIM k v new_a s a :
  find_t KeySize DIM k s = Some a → find_t KeySize DIM k (insert_t KeySize DIM k v new_a s) = Some a.
Proof.
  revert DIM. induction s as [|l IHl b d r IHr]; simpl; intros DIM H; [done|].
  destruct (tuple_eq (fst d) k) eqn:E; simpl; [by rewrite E|].
  destruct (strictLessKey DIM Less k (fst d)) eqn:E'; simpl; rewrite E, E'; auto.
Qed.

Lemma shape_fresh (t : KDTree) s :
  shape_of t s → fresh (dom (heap t)) ∉ ptrs s.
Proof.
  intros (_ & R & _) Hin. apply (is_fresh (dom (heap t))).
  by eapply repr_ptrs_dom.
Qed.

(** The public [insert] on a tree that holds a shape. *)
Lemma insert_spec (t : KDTree) s k v :
  shape_of t s →
  ∃ t', insert KeySize k v t = Some t'
        ∧ shape_of t' (insert_t KeySize 0 k v (fresh (dom (heap t))) s).
Proof.
  intros Hs. pose proof (shape_fresh _ _ Hs) as Hfr.
  destruct Hs as (Hroot & R & Hnd).
  destruct (insert_in_spec s None t (fuel_of (heap t)) 0%nat k v R Hnd
              (repr_fuel _ _ _ R Hnd)) as (b & t1 & Hins & R1 & _ & _ & _).
  unfold insert. rewrite Hroot, Hins. simpl. eexists. split; [reflexivity|].
  split; [done|]. split; [done|]. by apply NoDup_insert_t.
Qed.

(** ** Extremum queries *)

Lemma compareNode_spec h DIM c (a b : option (ptr * Data)) :
  (∀ x, a = Some x → ∃ n, h !! x.1 = Some n ∧ data n = x.2) →
  (∀ x, b = Some x → ∃ n, h !! x.1 = Some n ∧ data n = x.2) →
  compareNode h DIM c (fst <$> a) (fst <$> b)
  = Some (fst <$> compareNode_t DIM c a b).
Proof.
  intros Ha Hb. destruct a as [[pa da]|], b as [[pb db]|]; simpl; try done.
  destruct (Ha _ eq_refl) as (na & Hna & Hda).
  destruct (Hb _ eq_refl) as (nb & Hnb & Hdb). simpl in *.
  rewrite Hna, Hnb. simpl.
  unfold key. rewrite Hda, Hdb. by destruct (compareKey _ _ _ _).
Qed.

Lemma compareNode_t_cases DIM c (a b : option (ptr * Data)) :
  compareNode_t DIM c a b = a ∨ compareNode_t DIM c a b = b.
Proof.
  destruct a as [x|], b as [y|]; simpl; auto.
  destruct (compareKey _ _ _ _); auto.
Qed.

Lemma findMin_t_elem CMP DIM s x :
  findMin_t KeySize CMP DIM s = Some x → x ∈ nodes s.
Proof.
  revert DIM x. induction s as [|l IHl a d r IHr]; simpl; intros DIM x; [done|].
  set (ml := findMin_t KeySize CMP (DIM_NEXT KeySize DIM) l) in *.
  set (mr := findMin_t KeySize CMP (DIM_NEXT KeySize DIM) r) in *.
  assert (Hm : ∀ y, (if bool_decide (CMP ≠ DIM) then compareNode_t CMP Less ml mr
                     else ml) = Some y → y ∈ nodes l ++ (a, d) :: nodes r).
  { intros y Hy. apply elem_of_app. case_bool_decide.
    - destruct (compareNode_t_cases CMP Less ml mr) as [E|E]; rewrite E in Hy.
      + left. by eapply IHl.
      + right. right. by eapply IHr.
    - left. by eapply IHl. }
  intros Hx.
  match type of Hx with compareNode_t _ _ ?m ?n = _ =>
    destruct (compareNode_t_cases CMP Less m n) as [E|E]; rewrite E in Hx end.
  - by apply Hm.
  - inversion Hx. apply elem_of_app. right. left.
Qed.

Lemma findMax_t_elem CMP DIM s x :
  findMax_t KeySize CMP DIM s = Some x → x ∈ nodes s.
Proof.
  revert DIM x. induction s as [|l IHl a d r IHr]; simpl; intros DIM x; [done|].
  set (ml := findMax_t KeySize CMP (DIM_NEXT KeySize DIM) l) in *.
  set (mr := findMax_t KeySize CMP (DIM_NEXT KeySize DIM) r) in *.
  assert (Hm : ∀ y, (if bool_decide (CMP ≠ DIM) then compareNode_t CMP Greater mr ml
                     else mr) = Some y → y ∈ nodes l ++ (a, d) :: nodes r).
  { intros y Hy. apply elem_of_app. case_bool_decide.
    - destruct (compareNode_t_cases CMP Greater mr ml) as [E|E]; rewrite E in Hy.
      + right. right. by eapply IHr.
      + left. by eapply IHl.
    - right. right. by eapply IHr. }
  intros Hx.
  match type of Hx with compareNode_t _ _ ?m ?n = _ =>
    destruct (compareNode_t_cases CMP Greater m n) as [E|E]; rewrite E in Hx end.
  - by apply Hm.
  - inversion Hx. apply elem_of_app. right. left.
Qed.

Lemma findMin_t_Br CMP DIM l a d r :
  is_Some (findMin_t KeySize CMP DIM (Br l a d r)).
Proof.
  simpl. match goal with |- is_Some (compareNode_t _ _ ?m _) => destruct m as [x|] end;
    simpl; [destruct (compareKey _ _ _ _)|]; eauto.
Qed.

Lemma findMax_t_Br CMP DIM l a d r :
  is_Some (findMax_t KeySize CMP DIM (Br l a d r)).
Proof.
  simpl. match goal with |- is_Some (compareNode_t _ _ ?m _) => destruct m as [x|] end;
    simpl; [destruct (compareKey _ _ _ _)|]; eauto.
Qed.

Lemma findMin_in_spec h par s CMP :
  repr h par s →
  ∀ fuel DIM, (height s < fuel)%nat →
    findMin_in KeySize fuel h CMP DIM (root_of s)
    = Some (fst <$> findMin_t KeySize CMP DIM s).
Proof.
  revert par. induction s as [|l IHl a d r IHr]; intros par H fuel DIM Hf;
    (destruct fuel as [|fuel]; [simpl in Hf; lia|]); simpl; [done|].
  destruct H as (n & Hn & Hd & Hp & Hl & Hr & Rl & Rr). simpl in Hf.
  rewrite Hn. simpl. rewrite Hl, Hr.
  rewrite (IHl _ Rl) by lia. simpl.
  set (ml := findMin_t KeySize CMP (DIM_NEXT KeySize DIM) l).
  set (mr := findMin_t KeySize CMP (DIM_NEXT KeySize DIM) r).
  assert (Hml : ∀ x, ml = Some x → ∃ n, h !! x.1 = Some n ∧ data n = x.2).
  { intros [p e] Hx. eapply repr_lookup; [exact Rl|]. by eapply findMin_t_elem. }
  assert (Hmr : ∀ x, mr = Some x → ∃ n, h !! x.1 = Some n ∧ data n = x.2).
  { intros [p e] Hx. eapply repr_lookup; [exact Rr|]. by eapply findMin_t_elem. }
  assert (Hnode : ∀ x, Some (a, d) = Some x → ∃ n, h !! x.1 = Some n ∧ data n = x.2).
  { intros x [= <-]. eauto. }
  case_bool_decide.
  - rewrite (IHr _ Rr) by lia. simpl. fold mr.
    rewrite compareNode_spec by done. simpl.
    apply (compareNode_spec h CMP Less _ (Some (a, d))); [|done].
    intros x Hx. destruct (compareNode_t_cases CMP Less ml mr) as [E|E];
      rewrite E in Hx; auto.
  - simpl. by apply (compareNode_spec h CMP Less _ (Some (a, d))).
Qed.

Lemma findMax_in_spec h par s CMP :
  repr h par s →
  ∀ fuel DIM, (height s < fuel)%nat →
    findMax_in KeySize fuel h CMP DIM (root_of s)
    = Some (fst <$> findMax_t KeySize CMP DIM s).
Proof.
  revert par. induction s as [|l IHl a d r IHr]; intros par H fuel DIM Hf;
    (destruct fuel as [|fuel]; [simpl in Hf; lia|]); simpl; [done|].
  destruct H as (n & Hn & Hd & Hp & Hl & Hr & Rl & Rr). simpl in Hf.
  rewrite Hn. simpl. rewrite Hl, Hr.
  rewrite (IHr _ Rr) by lia. simpl.
  set (ml := findMax_t KeySize CMP (DIM_NEXT KeySize DIM) l).
  set (mr := findMax_t KeySize CMP (DIM_NEXT KeySize DIM) r).
  assert (Hml : ∀ x, ml = Some x → ∃ n, h !! x.1 = Some n ∧ data n = x.2).
  { intros [p e] Hx. eapply repr_lookup; [exact Rl|]. by eapply findMax_t_elem. }
  assert (Hmr : ∀ x, mr = Some x → ∃ n, h !! x.1 = Some n ∧ data n = x.2).
  { intros [p e] Hx. eapply repr_lookup; [exact Rr|]. by eapply findMax_t_elem. }
  assert (Hnode : ∀ x, Some (a, d) = Some x → ∃ n, h !! x.1 = Some n ∧ data n = x.2).
  { intros x [= <-]. eauto. }
  case_bool_decide.
  - rewrite (IHl _ Rl) by lia. simpl. fold ml.
    rewrite compareNode_spec by done. simpl.
    apply (compareNode_spec h CMP Greater _ (Some (a, d))); [|done].
    intros x Hx. destruct (compareNode_t_cases CMP Greater mr ml) as [E|E];
      rewrite E in Hx; auto.
  - simpl. by apply (compareNode_spec h CMP Greater _ (Some (a, d))).
Qed.

Lemma compareNode_t_Less CMP (a b : option (ptr * Data)) x :
  compareNode_t CMP Less a b = Some x →
  (∀ y, a = Some y → get CMP x.2.1 ≤ get CMP y.2.1)
  ∧ (∀ y, b = Some y → get CMP x.2.1 ≤ get CMP y.2.1).
Proof.
  destruct a as [[pa da]|], b as [[pb db]|]; simpl; try done.
  - unfold compareKey, compare_comp. simpl.
    destruct (Z.eqb_spec (get CMP da.1) (get CMP db.1)); simpl.
    + match goal with |- (if ?c then _ else _) = _ → _ => destruct c end;
        intros [= <-]; simpl; split; intros y [= <-]; simpl; lia.
    + destruct (Z.ltb_spec (get CMP da.1) (get CMP db.1)); intros [= <-]; simpl;
        split; intros y [= <-]; simpl; lia.
  - intros [= <-]. split; [intros y [= <-]; lia|done].
  - intros [= <-]. split; [done|intros y [= <-]; lia].
Qed.

Lemma compareNode_t_Greater CMP (a b : option (ptr * Data)) x :
  compareNode_t CMP Greater a b = Some x →
  (∀ y, a = Some y → get CMP y.2.1 ≤ get CMP x.2.1)
  ∧ (∀ y, b = Some y → get CMP y.2.1 ≤ get CMP x.2.1).
Proof.
  destruct a as [[pa da]|], b as [[pb db]|]; simpl; try done.
  - unfold compareKey, compare_comp. simpl.
    destruct (Z.eqb_spec (get CMP da.1) (get CMP db.1)); simpl.
    + match goal with |- (if ?c then _ else _) = _ → _ => destruct c end;
        intros [= <-]; simpl; split; intros y [= <-]; simpl; lia.
    + destruct (Z.ltb_spec (get CMP db.1) (get CMP da.1)); intros [= <-]; simpl;
        split; intros y [= <-]; simpl; lia.
  - intros [= <-]. split; [intros y [= <-]; lia|done].
  - intros [= <-]. split; [done|intros y [= <-]; lia].
Qed.

Lemma findMin_t_None CMP DIM s : findMin_t KeySize CMP DIM s = None → s = Leaf.
Proof.
  destruct s as [|l a d r]; [done|]. intros H.
  destruct (findMin_t_Br CMP DIM l a d r) as (x & Hx). congruence.
Qed.

Lemma findMax_t_None CMP DIM s : findMax_t KeySize CMP DIM s = None → s = Leaf.
Proof.
  destruct s as [|l a d r]; [done|]. intros H.
  destruct (findMax_t_Br CMP DIM l a d r) as (x & Hx). congruence.
Qed.

(** On a partitioned shape the pruned search still meets the smallest
    component: the skipped subtree holds nothing smaller than the node. *)
Lemma findMin_t_least CMP s :
  ∀ DIM x, partitioned KeySize DIM s → findMin_t KeySize CMP DIM s = Some x →
    Forall (λ e, get CMP x.2.1 ≤ get CMP e.1) (entries s).
Proof.
  induction s as [|l IHl a d r IHr]; intros DIM x Hp Hx; [constructor|].
  simpl in Hp, Hx. destruct Hp as (Pl & Pr & Hpl & Hpr).
  set (ml := findMin_t KeySize CMP (DIM_NEXT KeySize DIM) l) in *.
  set (mr := findMin_t KeySize CMP (DIM_NEXT KeySize DIM) r) in *.
  apply compareNode_t_Less in Hx as (Hx1 & Hx2).
  specialize (Hx2 _ eq_refl). simpl in Hx2.
  assert (Hl : Forall (λ e, get CMP x.2.1 ≤ get CMP e.1) (entries l)).
  { destruct ml as [y|] eqn:El; [|by rewrite (findMin_t_None _ _ _ El)].
    eapply Forall_impl; [by eapply IHl|]. simpl. intros e He.
    enough (get CMP x.2.1 ≤ get CMP y.2.1) by lia.
    case_bool_decide; [|by apply Hx1].
    destruct (compareNode_t CMP Less (Some y) mr) as [z|] eqn:Ez;
      [|by destruct mr; simpl in Ez; [destruct (compareKey _ _ _ _)|]].
    apply compareNode_t_Less in Ez as (Ez & _).
    specialize (Ez _ eq_refl). specialize (Hx1 _ eq_refl). lia. }
  assert (Hr : Forall (λ e, get CMP x.2.1 ≤ get CMP e.1) (entries r)).
  { case_bool_decide as Hc.
    - destruct mr as [y|] eqn:Er; [|by rewrite (findMin_t_None _ _ _ Er)].
      eapply Forall_impl; [by eapply IHr|]. simpl. intros e He.
      enough (get CMP x.2.1 ≤ get CMP y.2.1) by lia.
      destruct (compareNode_t CMP Less ml (Some y)) as [z|] eqn:Ez;
        [|by destruct ml; simpl in Ez; [destruct (compareKey _ _ _ _)|]].
      apply compareNode_t_Less in Ez as (_ & Ez).
      specialize (Ez _ eq_refl). specialize (Hx1 _ eq_refl). lia.
    - assert (CMP = DIM) as -> by (destruct (decide (CMP = DIM)); done).
      eapply Forall_impl; [exact Pr|]. simpl. intros e He. lia. }
  rewrite entries_Br. apply Forall_app. split; [done|]. by constructor.
Qed.

Lemma findMax_t_greatest CMP s :
  ∀ DIM x, partitioned KeySize DIM s → findMax_t KeySize CMP DIM s = Some x →
    Forall (λ e, get CMP e.1 ≤ get CMP x.2.1) (entries s).
Proof.
  induction s as [|l IHl a d r IHr]; intros DIM x Hp Hx; [constructor|].
  simpl in Hp, Hx. destruct Hp as (Pl & Pr & Hpl & Hpr).
  set (ml := findMax_t KeySize CMP (DIM_NEXT KeySize DIM) l) in *.
  set (mr := findMax_t KeySize CMP (DIM_NEXT KeySize DIM) r) in *.
  apply compareNode_t_Greater in Hx as (Hx1 & Hx2).
  specialize (Hx2 _ eq_refl). simpl in Hx2.
  assert (Hr : Forall (λ e, get CMP e.1 ≤ get CMP x.2.1) (entries r)).
  { destruct mr as [y|] eqn:Er; [|by rewrite (findMax_t_None _ _ _ Er)].
    eapply Forall_impl; [by eapply IHr|]. simpl. intros e He.
    enough (get CMP y.2.1 ≤ get CMP x.2.1) by lia.
    case_bool_decide; [|by apply Hx1].
    destruct (compareNode_t CMP Greater (Some y) ml) as [z|] eqn:Ez;
      [|by destruct ml; simpl in Ez; [destruct (compareKey _ _ _ _)|]].
    apply compareNode_t_Greater in Ez as (Ez & _).
    specialize (Ez _ eq_refl). specialize (Hx1 _ eq_refl). lia. }
  assert (Hl : Forall (λ e, get CMP e.1 ≤ get CMP x.2.1) (entries l)).
  { case_bool_decide as Hc.
    - destruct ml as [y|] eqn:El; [|by rewrite (findMax_t_None _ _ _ El)].
      eapply Forall_impl; [by eapply IHl|]. simpl. intros e He.
      enough (get CMP y.2.1 ≤ get CMP x.2.1) by lia.
      destruct (compareNode_t CMP Greater mr (Some y)) as [z|] eqn:Ez;
        [|by destruct mr; simpl in Ez; [destruct (compareKey _ _ _ _)|]].
      apply compareNode_t_Greater in Ez as (_ & Ez).
      specialize (Ez _ eq_refl). specialize (Hx1 _ eq_refl). lia.
    - assert (CMP = DIM) as -> by (destruct (decide (CMP = DIM)); done).
      eapply Forall_impl; [exact Pl|]. simpl. intros e He. lia. }
  rewrite entries_Br. apply Forall_app. split; [done|]. by constructor.
Qed.

(** The spec's invariant is the stricter one. *)
Lemma kd_invariant_partitioned s :
  ∀ DIM, kd_invariant KeySize DIM s → partitioned KeySize DIM s.
Proof.
  induction s as [|l IHl a d r IHr]; simpl; intros DIM; [done|].
  intros (Hl & Hr & Il & Ir). repeat split; auto.
  - eapply Forall_impl; [exact Hl|]. simpl. intros. lia.
  - eapply Forall_impl; [exact Hr|]. simpl. intros. lia.
Qed.

(** The run-time dispatch reaches the instantiation for [dim mod KeySize]. *)
Lemma findMinDynamic_small t :
  ∀ steps DIM dim, (dim < KeySize)%nat → (DIM ≤ dim)%nat →
    (dim - DIM < steps)%nat →
    findMinDynamic KeySize steps DIM dim t = findMin_static KeySize dim t.
Proof.
  induction steps as [|steps IH]; intros DIM dim Hd Hle Hs; [lia|]. simpl.
  destruct (Nat.leb_spec KeySize dim); [lia|].
  destruct (Nat.eqb_spec dim DIM) as [->|Hne]; [done|].
  apply IH; auto; unfold DIM_NEXT; rewrite Nat.mod_small; lia.
Qed.

Lemma findMaxDynamic_small t :
  ∀ steps DIM dim, (dim < KeySize)%nat → (DIM ≤ dim)%nat →
    (dim - DIM < steps)%nat →
    findMaxDynamic KeySize steps DIM dim t = findMax_static KeySize dim t.
Proof.
  induction steps as [|steps IH]; intros DIM dim Hd Hle Hs; [lia|]. simpl.
  destruct (Nat.leb_spec KeySize dim); [lia|].
  destruct (Nat.eqb_spec dim DIM) as [->|Hne]; [done|].
  apply IH; auto; unfold DIM_NEXT; rewrite Nat.mod_small; lia.
Qed.

Lemma findMinDynamic_any t steps dim :
  (0 < KeySize)%nat → (KeySize ≤ steps)%nat →
  findMinDynamic KeySize steps 0 dim t = findMin_static KeySize (dim mod KeySize) t.
Proof.
  intros Hk Hs. destruct steps as [|steps]; [lia|]. simpl.
  pose proof (Nat.mod_upper_bound dim KeySize ltac:(lia)) as Hm.
  assert (Hd : (if (KeySize <=? dim)%nat then (dim mod KeySize)%nat else dim)
               = (dim mod KeySize)%nat).
  { destruct (Nat.leb_spec KeySize dim); [done|]. by rewrite Nat.mod_small. }
  rewrite Hd.
  destruct (Nat.eqb_spec (dim mod KeySize) 0) as [->|Hne]; [done|].
  assert (DIM_NEXT KeySize 0 = 1%nat) as ->.
  { unfold DIM_NEXT. rewrite Nat.mod_small; lia. }
  apply findMinDynamic_small; lia.
Qed.

Lemma findMaxDynamic_any t steps dim :
  (0 < KeySize)%nat → (KeySize ≤ steps)%nat →
  findMaxDynamic KeySize steps 0 dim t = findMax_static KeySize (dim mod KeySize) t.
Proof.
  intros Hk Hs. destruct steps as [|steps]; [lia|]. simpl.
  pose proof (Nat.mod_upper_bound dim KeySize ltac:(lia)) as Hm.
  assert (Hd : (if (KeySize <=? dim)%nat then (dim mod KeySize)%nat else dim)
               = (dim mod KeySize)%nat).
  { destruct (Nat.leb_spec KeySize dim); [done|]. by rewrite Nat.mod_small. }
  rewrite Hd.
  destruct (Nat.eqb_spec (dim mod KeySize) 0) as [->|Hne]; [done|].
  assert (DIM_NEXT KeySize 0 = 1%nat) as ->.
  { unfold DIM_NEXT. rewrite Nat.mod_small; lia. }
  apply findMaxDynamic_small; lia.
Qed.

(** The pruned searches on a partitioned shape. *)
Lemma extremum_on_partitioned t s (dim : nat) :
  shape_of t s → partitioned KeySize 0 s → root t ≠ None → (dim < KeySize)%nat →
  (∃ a n, findMax KeySize dim t = Some (Some a)
          ∧ findMax_static KeySize dim t = Some (Some a)
          ∧ heap t !! a = Some n ∧ (a, data n) ∈ nodes s
          ∧ Forall (λ e, get dim e.1 ≤ get dim (key n)) (entries s))
  ∧ (∃ a n, findMin KeySize dim t = Some (Some a)
            ∧ findMin_static KeySize dim t = Some (Some a)
            ∧ heap t !! a = Some n ∧ (a, data n) ∈ nodes s
            ∧ Forall (λ e, get dim (key n) ≤ get dim e.1) (entries s)).
Proof.
  intros (Hroot & R & Hnd) Hp Hne Hd.
  destruct s as [|l b e r]; [by rewrite Hroot in Hne|].
  pose proof (repr_fuel _ _ _ R Hnd) as Hf.
  split.
  - destruct (findMax_t_Br dim 0%nat l b e r) as ([a da] & Hx).
    pose proof (findMax_t_elem _ _ _ _ Hx) as Hin.
    destruct (repr_lookup _ _ _ _ _ R Hin) as (n & Hn & Hdn).
    assert (Hs : findMax_static KeySize dim t = Some (Some a)).
    { unfold findMax_static. rewrite Hroot.
      erewrite findMax_in_spec; [|exact R|exact Hf]. by rewrite Hx. }
    exists a, n. unfold findMax.
    rewrite findMaxDynamic_any, Nat.mod_small by lia.
    repeat split; auto; [by rewrite Hdn|].
    pose proof (findMax_t_greatest _ _ _ _ Hp Hx) as Hall. simpl in Hall.
    unfold key. by rewrite Hdn.
  - destruct (findMin_t_Br dim 0%nat l b e r) as ([a da] & Hx).
    pose proof (findMin_t_elem _ _ _ _ Hx) as Hin.
    destruct (repr_lookup _ _ _ _ _ R Hin) as (n & Hn & Hdn).
    assert (Hs : findMin_static KeySize dim t = Some (Some a)).
    { unfold findMin_static. rewrite Hroot.
      erewrite findMin_in_spec; [|exact R|exact Hf]. by rewrite Hx. }
    exists a, n. unfold findMin.
    rewrite findMinDynamic_any, Nat.mod_small by lia.
    repeat split; auto; [by rewrite Hdn|].
    pose proof (findMin_t_least _ _ _ _ Hp Hx) as Hall. simpl in Hall.
    unfold key. by rewrite Hdn.
Qed.



(** ** Iteration *)

Lemma plug_app s (c1 c2 : list frame) : plug (plug s c1) c2 = plug s (c1 ++ c2).
Proof.
  revert s. induction c1 as [|[a d r|l a d] c1 IH]; intros s; simpl; auto.
Qed.

Lemma ptrs_plug s (ctx : list frame) :
  ptrs (plug s ctx) = before ctx ++ ptrs s ++ after ctx.
Proof.
  revert s. induction ctx as [|[a d r|l a d] c IH]; intros s; simpl.
  - by rewrite app_nil_r.
  - rewrite IH, ptrs_Br. by rewrite <- !app_assoc.
  - rewrite IH, ptrs_Br. rewrite <- !app_assoc. done.
Qed.

Lemma height_plug s (ctx : list frame) :
  (length ctx + height s ≤ height (plug s ctx))%nat.
Proof.
  revert s. induction ctx as [|[a d r|l a d] c IH]; intros s; simpl; [lia| |].
  - specialize (IH (Br s a d r)). simpl in IH. lia.
  - specialize (IH (Br l a d s)). simpl in IH. lia.
Qed.

(** Every node of a shape is the root of a subtree in some context. *)
Lemma plug_decompose s a :
  a ∈ ptrs s → ∃ (ctx : list frame) l d r, s = plug (Br l a d r) ctx.
Proof.
  induction s as [|L IHL b e R IHR]; [by intros ?%elem_of_nil|].
  rewrite ptrs_Br. intros [Hin|[->|Hin]%elem_of_cons]%elem_of_app.
  - destruct (IHL Hin) as (c & l & d & r & ->).
    exists (c ++ [InL b e R]), l, d, r. by rewrite <- plug_app.
  - by exists [], L, e, R.
  - destruct (IHR Hin) as (c & l & d & r & ->).
    exists (c ++ [InR L b e]), l, d, r. by rewrite <- plug_app.
Qed.

Lemma repr_plug h (ctx : list frame) :
  ∀ s, repr h None (plug s ctx) →
       repr h (ctx_parent ctx) s
       ∧ repr_ctx h (root_of (plug s ctx)) ctx (root_of s).
Proof.
  induction ctx as [|[a d r|l a d] c IH]; intros s H; simpl in *; [done| |].
  - destruct (IH _ H) as ((n & Hn & Hd & Hp & Hl & Hr & Rl & Rr) & Rc).
    split; [done|]. exists n. repeat split; auto.
  - destruct (IH _ H) as ((n & Hn & Hd & Hp & Hl & Hr & Rl & Rr) & Rc).
    split; [done|]. exists n. repeat split; auto.
Qed.

Lemma NoDup_split_unique {A} (xs ys xs' ys' : list A) (a : A) :
  NoDup (xs ++ a :: ys) → xs ++ a :: ys = xs' ++ a :: ys' →
  xs = xs' ∧ ys = ys'.
Proof.
  revert xs'. induction xs as [|x xs IH]; intros xs' Hnd Heq.
  - destruct xs' as [|x' xs']; simpl in *; [by inversion Heq|].
    inversion Heq; subst. apply NoDup_cons in Hnd as (Hnin & _).
    exfalso. apply Hnin. apply elem_of_app. right. left.
  - destruct xs' as [|x' xs']; simpl in *.
    + inversion Heq; subst. apply NoDup_cons in Hnd as (Hnin & _).
      exfalso. apply Hnin. apply elem_of_app. right. left.
    + inversion Heq; subst. apply NoDup_cons in Hnd as (_ & Hnd).
      destruct (IH xs' Hnd H1) as (-> & ->). done.
Qed.

Lemma leftmost_spec h s :
  ∀ par a fuel, repr h par s → root_of s = Some a → (height s ≤ fuel)%nat →
    Some <$> leftmost fuel h a = Some (head (ptrs s)).
Proof.
  induction s as [|l IHl b d r _]; intros par a fuel H Hroot Hf; [done|].
  simpl in Hroot. inversion Hroot; subst b.
  destruct fuel as [|fuel]; [simpl in Hf; lia|]. simpl in *.
  destruct H as (n & Hn & Hd & Hp & Hl & Hr & Rl & Rr).
  rewrite Hn. simpl. rewrite Hl, ptrs_Br.
  destruct l as [|l1 c e l2]; [done|]. simpl root_of. cbv iota.
  rewrite (IHl _ c fuel Rl eq_refl) by (simpl in *; lia).
  f_equal. rewrite ptrs_Br. by destruct (ptrs l1).
Qed.

Lemma rightmost_spec h s :
  ∀ par a fuel, repr h par s → root_of s = Some a → (height s ≤ fuel)%nat →
    Some <$> rightmost fuel h a = Some (last (ptrs s)).
Proof.
  induction s as [|l _ b d r IHr]; intros par a fuel H Hroot Hf; [done|].
  simpl in Hroot. inversion Hroot; subst b.
  destruct fuel as [|fuel]; [simpl in Hf; lia|]. simpl in *.
  destruct H as (n & Hn & Hd & Hp & Hl & Hr & Rl & Rr).
  rewrite Hn. simpl. rewrite Hr, ptrs_Br.
  destruct r as [|r1 c e r2];
    [change (ptrs (@Leaf Value)) with (@nil ptr); simpl; by rewrite last_snoc|].
  simpl root_of. cbv iota.
  rewrite (IHr _ c fuel Rr eq_refl) by (simpl in *; lia).
  f_equal. rewrite (last_app (ptrs l)), last_cons.
  destruct (last (ptrs (Br r1 c e r2))) eqn:E; [done|].
  apply last_None in E. rewrite ptrs_Br in E. by destruct (ptrs r1).
Qed.

Lemma root_of_in_ptrs s a : root_of s = Some a → a ∈ ptrs s.
Proof.
  destruct s as [|l b d r]; [done|]. intros [= ->]. rewrite ptrs_Br.
  apply elem_of_app. right. left.
Qed.

(** Climbing out of a right subtree ends at the first ancestor that has the
    walk in its left subtree: the next node in in-order. *)
Lemma climb_from_right_spec h rootp :
  ∀ (ctx : list frame) a n fuel,
    h !! a = Some n → parent n = ctx_parent ctx →
    repr_ctx h rootp ctx (Some a) → NoDup (before ctx ++ [a]) →
    (length ctx < fuel)%nat →
    climb_from_right fuel h a = Some (head (after ctx)).
Proof.
  induction ctx as [|[b d r|l b d] c IH]; intros a n fuel Hn Hp Rc Hnd Hf;
    (destruct fuel as [|fuel]; [simpl in Hf; lia|]); simpl in *;
    rewrite Hn; simpl; rewrite Hp; [done| |].
  - destruct Rc as (nb & Hnb & _ & _ & Hl & _). rewrite Hnb. simpl.
    rewrite Hl. by rewrite bool_decide_eq_false_2 by (by intros ?).
  - destruct Rc as (nb & Hnb & Hd & Hpb & Hl & Hr & Rl & Rc). rewrite Hnb. simpl.
    rewrite <- !app_assoc in Hnd.
    apply NoDup_app in Hnd as (Hndc & Hdis & Hnd).
    rewrite bool_decide_eq_true_2.
    + eapply IH; eauto; [|lia].
      apply NoDup_app. split; [done|]. split; [|apply NoDup_singleton].
      intros y Hy Hy'. apply (Hdis y Hy). apply list_elem_of_singleton in Hy'.
      subst. apply elem_of_app. right. apply elem_of_app. left. left.
    + rewrite Hl. intros Hroot%root_of_in_ptrs.
      apply NoDup_app in Hnd as (_ & Hdis' & _).
      apply (Hdis' a Hroot). right. left.
Qed.

Lemma climb_from_left_spec h rootp :
  ∀ (ctx : list frame) a n fuel,
    h !! a = Some n → parent n = ctx_parent ctx →
    repr_ctx h rootp ctx (Some a) → NoDup (a :: after ctx) →
    (length ctx < fuel)%nat →
    climb_from_left fuel h a = Some (last (before ctx)).
Proof.
  induction ctx as [|[b d r|l b d] c IH]; intros a n fuel Hn Hp Rc Hnd Hf;
    (destruct fuel as [|fuel]; [simpl in Hf; lia|]); simpl in *;
    rewrite Hn; simpl; rewrite Hp; [done| |].
  - destruct Rc as (nb & Hnb & Hd & Hpb & Hl & Hr & Rr & Rc). rewrite Hnb. simpl.
    apply NoDup_cons in Hnd as (Ha & Hnd).
    apply NoDup_cons in Hnd as (Hb & Hnd).
    rewrite bool_decide_eq_true_2.
    + eapply IH; eauto; [|lia].
      apply NoDup_cons. split.
      * intros Hin. apply Hb. apply elem_of_app. by right.
      * by apply NoDup_app in Hnd as (_ & _ & Hnd).
    + rewrite Hr. intros Hroot%root_of_in_ptrs.
      apply Ha. right. apply elem_of_app. by left.
  - destruct Rc as (nb & Hnb & _ & _ & _ & Hr & _). rewrite Hnb. simpl.
    rewrite Hr. rewrite bool_decide_eq_false_2 by (by intros ?).
    by rewrite !app_assoc, last_snoc.
Qed.

Lemma NoDup_before_focus {A} (bs ls rest : list A) (a : A) :
  NoDup ((bs ++ ls) ++ a :: rest) → NoDup (bs ++ [a]).
Proof.
  intros (Hbl & Hdis & _)%NoDup_app. apply NoDup_app in Hbl as (Hb & _ & _).
  apply NoDup_app. split; [done|]. split; [|apply NoDup_singleton].
  intros y Hy Hy'%list_elem_of_singleton. subst.
  apply (Hdis a); [apply elem_of_app; by left|left].
Qed.

Lemma NoDup_focus_after {A} (pre rs af : list A) (a : A) :
  NoDup (pre ++ a :: rs ++ af) → NoDup (a :: af).
Proof.
  intros (_ & _ & Hnd)%NoDup_app. apply NoDup_cons in Hnd as (Ha & Hnd).
  apply NoDup_app in Hnd as (_ & _ & Haf). apply NoDup_cons. split; [|done].
  intros Hin. apply Ha. apply elem_of_app. by right.
Qed.

Lemma ptrs_plug_Br (ctx : list frame) l a d r :
  ptrs (plug (Br l a d r) ctx)
  = (before ctx ++ ptrs l) ++ a :: ptrs r ++ after ctx.
Proof. rewrite ptrs_plug, ptrs_Br. by rewrite <- !app_assoc. Qed.

Lemma begin_spec t s : shape_of t s → begin t = Some (head (ptrs s)).
Proof.
  intros (Hroot & R & Hnd). unfold begin. rewrite Hroot.
  destruct s as [|l a d r]; [done|]. simpl root_of. cbv iota.
  eapply leftmost_spec; [exact R|done|].
  pose proof (repr_fuel _ _ _ R Hnd). lia.
Qed.

(** [++it] moves to the next node of the in-order sequence, [--it] to the
    previous one; [--it] stays on the first node. *)
Lemma increment_spec t s xs a ys :
  shape_of t s → ptrs s = xs ++ a :: ys →
  increment t (Some a) = Some (head ys).
Proof.
  intros (Hroot & R & Hnd) Hsplit.
  assert (Hin : a ∈ ptrs s) by (rewrite Hsplit, elem_of_app; right; left).
  destruct (plug_decompose _ _ Hin) as (ctx & l & d & r & ->).
  pose proof (repr_fuel _ _ _ R Hnd) as Hf.
  pose proof (height_plug (Br l a d r) ctx) as Hh. simpl in Hh.
  destruct (repr_plug _ _ _ R) as ((n & Hn & Hd & Hp & Hl & Hr & Rl & Rr) & Rc).
  rewrite ptrs_plug_Br in Hsplit, Hnd.
  destruct (NoDup_split_unique _ _ _ _ _ Hnd Hsplit) as (<- & <-).
  unfold increment. set (fuel := fuel_of (heap t)) in *. clearbody fuel.
  rewrite Hn. simpl. rewrite Hr.
  destruct r as [|r1 c e r2].
  - simpl. eapply climb_from_right_spec; eauto; [|lia].
    by eapply NoDup_before_focus.
  - simpl root_of. cbv iota.
    erewrite leftmost_spec; [|exact Rr|done|lia]. f_equal.
    rewrite ptrs_Br. by destruct (ptrs r1).
Qed.

Lemma decrement_spec t s xs a ys :
  shape_of t s → ptrs s = xs ++ a :: ys →
  decrement t (Some a) = Some (Some (default a (last xs))).
Proof.
  intros Hs Hsplit. pose proof (begin_spec _ _ Hs) as Hbegin.
  destruct Hs as (Hroot & R & Hnd).
  assert (Hin : a ∈ ptrs s) by (rewrite Hsplit, elem_of_app; right; left).
  destruct (plug_decompose _ _ Hin) as (ctx & l & d & r & ->).
  pose proof (repr_fuel _ _ _ R Hnd) as Hf.
  pose proof (height_plug (Br l a d r) ctx) as Hh. simpl in Hh.
  destruct (repr_plug _ _ _ R) as ((n & Hn & Hd & Hp & Hl & Hr & Rl & Rr) & Rc).
  rewrite Hsplit in Hbegin.
  rewrite ptrs_plug_Br in Hsplit, Hnd.
  destruct (NoDup_split_unique _ _ _ _ _ Hnd Hsplit) as (<- & <-).
  unfold decrement. set (fuel := fuel_of (heap t)) in *. clearbody fuel.
  rewrite Hn. simpl. rewrite Hl.
  destruct l as [|l1 c e l2].
  - change (ptrs (@Leaf Value)) with (@nil ptr) in *. rewrite app_nil_r in *.
    simpl. rewrite Hbegin. simpl.
    destruct (before ctx) as [|x0 bs] eqn:Eb; simpl.
    + by rewrite bool_decide_eq_true_2.
    + rewrite bool_decide_eq_false_2.
      * erewrite climb_from_left_spec; eauto; [| |lia].
        -- rewrite Eb. destruct (last (x0 :: bs)) eqn:El; [done|].
           by apply last_None in El.
        -- by eapply NoDup_focus_after.
      * intros [= ->]. simpl in Hnd.
        apply NoDup_cons in Hnd as (Hnin & _). apply Hnin.
        apply elem_of_app. right. left.
  - simpl root_of. cbv iota.
    erewrite rightmost_spec; [|exact Rl|done|lia]. do 2 f_equal.
    rewrite last_app.
    destruct (last (ptrs (Br l1 c e l2))) eqn:E; [done|].
    apply last_None in E. rewrite ptrs_Br in E. by destruct (ptrs l1).
Qed.

Lemma decrement_end_spec t s :
  shape_of t s → decrement t None = Some (last (ptrs s)).
Proof.
  intros (Hroot & R & Hnd). unfold decrement. rewrite Hroot.
  destruct s as [|l a d r]; [done|]. simpl root_of. cbv iota.
  eapply rightmost_spec; [exact R|done|].
  pose proof (repr_fuel _ _ _ R Hnd). lia.
Qed.

Lemma walk_forward_spec t s :
  shape_of t s →
  ∀ ys xs steps, ptrs s = xs ++ ys → (length ys ≤ steps)%nat →
    walk_forward steps t (head ys) = Some ys.
Proof.
  intros Hs. induction ys as [|a ys IH]; intros xs steps Hsplit Hst.
  - by destruct steps.
  - destruct steps as [|steps]; [simpl in Hst; lia|]. simpl.
    rewrite (increment_spec _ _ _ _ _ Hs Hsplit). simpl.
    rewrite (IH (xs ++ [a])); [done|by rewrite <- app_assoc|simpl in Hst; lia].
Qed.

Lemma trace_forward_spec t s :
  shape_of t s →
  ∀ ys xs, ptrs s = xs ++ ys →
    trace (increment t) (length ys) (head ys) = Some ((Some <$> ys) ++ [None]).
Proof.
  intros Hs. induction ys as [|a ys IH]; intros xs Hsplit; [done|]. simpl.
  rewrite (increment_spec _ _ _ _ _ Hs Hsplit). simpl.
  rewrite (IH (xs ++ [a])); [done|by rewrite <- app_assoc].
Qed.

Lemma trace_backward_spec t s :
  shape_of t s →
  ∀ xs ys, ptrs s = xs ++ ys →
    trace (decrement t) (length xs) (head ys)
    = Some (head ys :: (Some <$> reverse xs)).
Proof.
  intros Hs. induction xs as [|x xs IH] using rev_ind; intros ys Hsplit; [done|].
  rewrite length_app, Nat.add_1_r, reverse_snoc. simpl.
  assert (Hdec : decrement t (head ys) = Some (Some x)).
  { destruct ys as [|y ys]; simpl.
    - rewrite (decrement_end_spec _ _ Hs), Hsplit, app_nil_r. by rewrite last_snoc.
    - rewrite (decrement_spec _ _ _ _ _ Hs Hsplit). by rewrite last_snoc. }
  rewrite Hdec. simpl.
  assert (IH' := IH (x :: ys)). simpl in IH'.
  rewrite IH'; [done|by rewrite <- app_assoc in Hsplit].
Qed.

Lemma trace_nonempty (f : Iterator → option Iterator) (m : nat) it :
  trace f m it ≠ Some [].
Proof.
  destruct m as [|m]; simpl; [done|].
  destruct (f it) as [it'|]; simpl; [|done].
  by destruct (trace f m it').
Qed.

Lemma step_trace (f : Iterator → option Iterator) :
  ∀ (m : nat) it (fw : list Iterator),
    trace f m it = Some fw → step f m it = last fw.
Proof.
  induction m as [|m IH]; intros it fw H; simpl in *; [by inversion H|].
  destruct (f it) as [it'|]; simpl in *; [|done].
  destruct (trace f m it') as [rest|] eqn:E; simpl in *; [|done].
  inversion H; subst. rewrite (IH _ _ E).
  destruct rest; [|done]. by apply trace_nonempty in E.
Qed.

(** Dereferencing the nodes in in-order gives the entries in in-order. *)
Lemma deref_in_order t s :
  shape_of t s →
  Forall2 (λ a e, deref t (Some a) = Some e) (ptrs s) (entries s).
Proof.
  intros (_ & R & _). unfold ptrs, entries. apply Forall2_fmap.
  apply Forall_Forall2_diag, Forall_forall. intros [a d] Hin.
  destruct (repr_lookup _ _ _ _ _ R Hin) as (n & Hn & Hd).
  unfold deref. simpl. rewrite Hn. simpl. by rewrite Hd.
Qed.

(** ** Bulk construction *)

Lemma compareData_asym DIM (a b : Data) :
  compareData DIM a b = true → compareData DIM b a = false.
Proof. apply compareKey_Less_asym. Qed.

Lemma compareData_neg_trans DIM (a b c : Data) :
  compareData DIM a c = true →
  compareData DIM a b = true ∨ compareData DIM b c = true.
Proof. apply compareKey_Less_neg_trans. Qed.

Lemma compareData_same_key DIM (a b : Data) :
  a.1 = b.1 → compareData DIM a b = false.
Proof. unfold compareData. intros ->. apply compareKey_Less_irrefl. Qed.

(** Sorting the whole range keeps the promise of [std::nth_element]. *)
Lemma nth_element_sorted_ok DIM (n : nat) (v : list Data) :
  nth_element_post (compareData DIM) n v
    (nth_element_sorted (compareData DIM) n v).
Proof.
  unfold nth_element_sorted. split; [apply stable_sort_perm|].
  intros d Hd.
  assert (Hasc : ascending (compareData DIM) (stable_sort (compareData DIM) v)).
  { apply stable_sort_ascending;
      [apply compareData_asym|apply compareData_neg_trans]. }
  unfold ascending in Hasc.
  rewrite <- (take_drop_middle _ n d Hd) in Hasc.
  apply StronglySorted_app in Hasc as (Hcross & _ & Hsd).
  apply StronglySorted_inv in Hsd as (_ & Hdrop).
  split; [|done]. apply Forall_forall. intros x Hx.
  apply (Hcross x d Hx). left.
Qed.

(** [KDTree_helper] on any vector: it ends, the nodes it allocates are new
    and hold the pairs of the vector, each pair in one node; the median
    split leaves no path longer than a tree of that many nodes needs. *)
Lemma KDTree_helper_full :
  ∀ fuel DIM (v : list Data) par h,
    (length v < fuel)%nat →
    ∃ s h',
      KDTree_helper KeySize nth_element fuel DIM v par h = Some (root_of s, h')
      ∧ repr h' par s
      ∧ NoDup (ptrs s)
      ∧ entries s ≡ₚ v
      ∧ (∀ x, x ∈ ptrs s → x ∉ dom h)
      ∧ (∀ x, x ∉ ptrs s → h' !! x = h !! x)
      ∧ partitioned KeySize DIM s
      ∧ (∀ m, (length v < 2 ^ m)%nat → (height s ≤ m)%nat).
Proof.
  induction fuel as [|fuel IH]; intros DIM v par h Hf; [lia|].
  destruct v as [|e v'].
  { exists Leaf, h. split; [done|]. split; [done|]. split; [constructor|].
    split; [done|]. split; [by intros x ?%elem_of_nil|].
    split; [done|]. split; [done|]. simpl. lia. }
  cbn [KDTree_helper].
  set (v := e :: v') in *.
  set (mid := ((length v - 1) / 2)%nat).
  set (sorted := nth_element (compareData DIM) mid v).
  destruct (nth_element_ok DIM mid v) as (Hperm & Hpart). fold sorted in Hperm, Hpart.
  assert (Hlen : length sorted = length v) by (by rewrite Hperm).
  assert (Hmid : (mid < length sorted)%nat).
  { rewrite Hlen. subst mid. simpl length.
    apply Nat.Div0.div_lt_upper_bound. lia. }
  destruct (lookup_lt_is_Some_2 sorted mid Hmid) as (d & Hd).
  rewrite Hd. cbn [mbind option_bind].
  set (now := fresh (dom h)).
  assert (Hnow : now ∉ dom h) by apply is_fresh.
  set (h1 := <[now := mkNode d par None None]> h).
  destruct (IH (DIM_NEXT KeySize DIM) (take mid sorted) (Some now) h1)
    as (sl & h2 & -> & Rl & Hndl & Hel & Hfl & Hfrl & Hpl & Hhl).
  { rewrite length_take. lia. }
  cbn [mbind option_bind]. unfold set_left.
  assert (Hnl : now ∉ ptrs sl).
  { intros Hin. apply (Hfl _ Hin). subst h1. rewrite dom_insert_L.
    apply elem_of_union. left. by apply elem_of_singleton. }
  rewrite (Hfrl now Hnl). subst h1. rewrite lookup_insert_eq.
  cbn [mbind option_bind data parent left right].
  set (h3 := <[now := mkNode d par (root_of sl) None]> h2).
  destruct (IH (DIM_NEXT KeySize DIM) (drop (mid + 1) sorted) (Some now) h3)
    as (sr & h4 & -> & Rr & Hndr & Her & Hfr & Hfrr & Hpr & Hhr).
  { rewrite length_drop. lia. }
  cbn [mbind option_bind]. unfold set_right.
  assert (Hnr : now ∉ ptrs sr).
  { intros Hin. apply (Hfr _ Hin). subst h3. rewrite dom_insert_L.
    apply elem_of_union. left. by apply elem_of_singleton. }
  rewrite (Hfrr now Hnr). subst h3. rewrite lookup_insert_eq.
  cbn [mbind option_bind data parent left right].
  set (h3 := <[now := mkNode d par (root_of sl) None]> h2) in *.
  assert (Hlr : ∀ x, x ∈ ptrs sl → x ∉ ptrs sr).
  { intros x Hx Hx'. apply (Hfr _ Hx'). subst h3. rewrite dom_insert_L.
    apply elem_of_union. right. by eapply repr_ptrs_dom. }
  exists (Br sl now d sr). eexists. split; [reflexivity|].
  split; [|split; [|split; [|split; [|split; [|split]]]]].
  - simpl. eexists. rewrite lookup_insert_eq. split; [done|]. simpl.
    repeat split; auto.
    + eapply repr_frame; [exact Rl|]. intros x Hx.
      rewrite lookup_insert_ne by (by intros ->).
      rewrite Hfrr by (by apply Hlr). subst h3.
      by rewrite lookup_insert_ne by (by intros ->).
    + eapply repr_frame; [exact Rr|]. intros x Hx.
      by rewrite lookup_insert_ne by (by intros ->).
  - rewrite ptrs_Br. apply NoDup_app. split; [done|]. split.
    + intros x Hx [->|Hx']%elem_of_cons; [done|]. by apply (Hlr x).
    + apply NoDup_cons. by split.
  - rewrite entries_Br, Hel, Her, <- Hperm.
    replace (mid + 1)%nat with (S mid) by lia.
    by rewrite take_drop_middle.
  - intros x. rewrite ptrs_Br.
    intros [Hx|[->|Hx]%elem_of_cons]%elem_of_app; [|done|].
    + intros Hd'. apply (Hfl _ Hx). rewrite dom_insert_L.
      apply elem_of_union. by right.
    + intros Hd'. apply (Hfr _ Hx). subst h3. rewrite dom_insert_L.
      apply elem_of_union. right.
      apply elem_of_dom. rewrite Hfrl.
      * rewrite lookup_insert_ne by (by intros ->). by apply elem_of_dom.
      * intros Hx'. by apply (Hlr x).
  - intros x. rewrite ptrs_Br.
    intros (Hxl & (Hxn & Hxr)%not_elem_of_cons)%not_elem_of_app.
    rewrite lookup_insert_ne by done. rewrite Hfrr by done. subst h3.
    rewrite lookup_insert_ne by done. rewrite Hfrl by done.
    by rewrite lookup_insert_ne by done.
  - destruct (Hpart d Hd) as (Htake & Hdrop).
    simpl. repeat split; auto.
    + rewrite Hel. eapply Forall_impl; [exact Htake|]. simpl. intros x Hx.
      by apply compareKey_Less_false.
    + rewrite Her. replace (mid + 1)%nat with (S mid) by lia.
      eapply Forall_impl; [exact Hdrop|]. simpl. intros y Hy.
      by apply compareKey_Less_false.
  - intros m Hm. destruct m as [|m]; [simpl in Hm; lia|].
    rewrite Nat.pow_succ_r' in Hm. simpl height.
    pose proof (Nat.div_mod_eq (length v - 1) 2) as Hdiv.
    pose proof (Nat.mod_upper_bound (length v - 1) 2 ltac:(lia)) as Hmod.
    fold mid in Hdiv.
    assert (0 < length v)%nat by (subst v; simpl; lia).
    specialize (Hhl m). specialize (Hhr m).
    rewrite length_take in Hhl. rewrite length_drop in Hhr. lia.
Qed.

Lemma KDTree_helper_spec :
  ∀ fuel DIM (v : list Data) par h,
    (length v < fuel)%nat →
    ∃ s h',
      KDTree_helper KeySize nth_element fuel DIM v par h = Some (root_of s, h')
      ∧ repr h' par s
      ∧ NoDup (ptrs s)
      ∧ entries s ≡ₚ v
      ∧ (∀ x, x ∈ ptrs s → x ∉ dom h)
      ∧ (∀ x, x ∉ ptrs s → h' !! x = h !! x)
      ∧ partitioned KeySize DIM s.
Proof.
  intros fuel DIM v par h Hf.
  destruct (KDTree_helper_full fuel DIM v par h Hf)
    as (s & h' & H1 & H2 & H3 & H4 & H5 & H6 & H7 & _).
  by exists s, h'.
Qed.

(** A vector of one pair becomes one new node, whatever [std::nth_element]
    does. *)
Lemma KDTree_helper_singleton fuel DIM (e : Data) par h :
  KDTree_helper KeySize nth_element (S (S fuel)) DIM [e] par h
  = Some (Some (fresh (dom h)), <[fresh (dom h) := mkNode e par None None]> h).
Proof.
  cbn [KDTree_helper length]. change ((1 - 1) / 2)%nat with 0%nat.
  destruct (nth_element_ok DIM 0 [e]) as (Hperm & _).
  apply Permutation_singleton_r in Hperm. rewrite Hperm.
  cbn [lookup list_lookup mbind option_bind take drop Nat.add].
  unfold set_left, set_right.
  rewrite lookup_insert_eq. cbn [mbind option_bind data parent left right].
  rewrite lookup_insert_eq. cbn [mbind option_bind data parent left right].
  by rewrite !insert_insert_eq.
Qed.

(** ** Removal of duplicate keys *)

Lemma StronglySorted_reverse {A} (R : relation A) (l : list A) :
  StronglySorted R l → StronglySorted (flip R) (reverse l).
Proof.
  induction 1 as [|x l Hs IH Hx]; [constructor|].
  rewrite reverse_cons. apply StronglySorted_app_2; [|done|repeat constructor].
  intros y z Hy Hz%list_elem_of_singleton. subst z. unfold flip.
  rewrite elem_of_reverse in Hy. rewrite Forall_forall in Hx. by apply Hx.
Qed.

(** On a list in which no later element is greater, run compression keeps
    the first element of every key. *)
Lemma unique_from_filter k :
  ∀ (l : list Data) kept,
    StronglySorted (λ e1 e2, compareData 0 e1 e2 = false) (kept :: l) →
    filter (λ e, e.1 = k) (unique_from same_key kept l)
    = option_list (head (filter (λ e, e.1 = k) (kept :: l))).
Proof.
  induction l as [|x l IH]; intros kept Hs; simpl.
  - rewrite !filter_cons. by destruct (decide (kept.1 = k)).
  - apply StronglySorted_inv in Hs as (Hs & Hk).
    apply Forall_cons in Hk as (Hkx & Hkl).
    pose proof Hs as Hs'. apply StronglySorted_inv in Hs' as (Hsl & Hx).
    unfold same_key at 1. unfold tuple_eq. case_bool_decide as Ek.
    + rewrite IH by (by constructor). rewrite !filter_cons.
      destruct (decide (kept.1 = k)), (decide (x.1 = k)); simpl; congruence.
    + rewrite !(filter_cons _ kept), (IH x Hs).
      destruct (decide (kept.1 = k)) as [Hkk|Hkk]; simpl; [|done].
      assert (Hxk : compareData 0 x kept = true).
      { destruct (compareKey_Less_total 0 kept.1 x.1 Ek) as [H|H]; [|done].
        unfold compareData in Hkx. congruence. }
      assert (Hnone : filter (λ e, e.1 = k) (x :: l) = []).
      { apply elem_of_nil_inv. intros y (Hyk & Hy)%list_elem_of_filter.
        apply elem_of_cons in Hy as [->|Hy]; [congruence|].
        eapply Forall_forall in Hx; [|exact Hy]. simpl in Hx.
        unfold compareData in *. rewrite Hyk, <- Hkk in Hx. congruence. }
      by rewrite Hnone.
Qed.

Lemma dedup_filter (v : list Data) k :
  filter (λ e, e.1 = k) (dedup v)
  = option_list (last (filter (λ e, e.1 = k) v)).
Proof.
  unfold dedup. rewrite filter_reverse.
  set (sorted := stable_sort (compareData 0) v).
  assert (Hasc : ascending (compareData 0) sorted).
  { apply stable_sort_ascending;
      [apply compareData_asym|apply compareData_neg_trans]. }
  apply StronglySorted_reverse in Hasc. unfold flip in Hasc.
  assert (Hst : filter (λ e, e.1 = k) sorted = filter (λ e, e.1 = k) v).
  { apply stable_sort_filter. intros a b Ha Hb.
    apply compareData_same_key. congruence. }
  rewrite <- Hst, <- head_reverse, <- (filter_reverse _ sorted).
  destruct (reverse sorted) as [|x l]; [done|]. simpl unique.
  rewrite unique_from_filter by done.
  by destruct (head (filter _ (x :: l))).
Qed.

Lemma dedup_elem (v : list Data) (e : Data) :
  e ∈ dedup v ↔ last (filter (λ x, x.1 = e.1) v) = Some e.
Proof.
  split.
  - intros Hin.
    assert (H : e ∈ filter (λ x, x.1 = e.1) (dedup v))
      by (by apply list_elem_of_filter).
    rewrite dedup_filter in H.
    destruct (last (filter (λ x, x.1 = e.1) v)) as [y|]; simpl in H.
    + apply list_elem_of_singleton in H. by subst.
    + by apply elem_of_nil in H.
  - intros Hl.
    assert (H : e ∈ filter (λ x, x.1 = e.1) (dedup v)).
    { rewrite dedup_filter, Hl. simpl. left. }
    by apply list_elem_of_filter in H as [_ H].
Qed.

Lemma NoDup_keys_filter (l : list Data) :
  (∀ k, (length (filter (λ e, e.1 = k) l) ≤ 1)%nat) → NoDup (l.*1).
Proof.
  induction l as [|x l IH]; intros H; [constructor|].
  rewrite fmap_cons. apply NoDup_cons. split.
  - intros (y & Hy & Hin)%list_elem_of_fmap.
    specialize (H x.1). rewrite filter_cons in H.
    destruct (decide (x.1 = x.1)); [|done]. simpl in H.
    assert (Hy' : y ∈ filter (λ e, e.1 = x.1) l) by (by apply list_elem_of_filter).
    destruct (filter _ l); [by apply elem_of_nil in Hy'|simpl in H; lia].
  - apply IH. intros k. specialize (H k). rewrite filter_cons in H.
    destruct (decide (x.1 = k)); simpl in H; lia.
Qed.

Lemma dedup_NoDup (v : list Data) : NoDup ((dedup v).*1).
Proof.
  apply NoDup_keys_filter. intros k. rewrite dedup_filter.
  destruct (last _); simpl; lia.
Qed.

Lemma dedup_keys (v : list Data) k : k ∈ (dedup v).*1 ↔ k ∈ v.*1.
Proof.
  assert (Hf : ∀ l : list Data, k ∈ l.*1 ↔ filter (λ e, e.1 = k) l ≠ []).
  { intros l. rewrite list_elem_of_fmap. split.
    - intros (y & Hk & Hy) Hnil.
      by apply (filter_nil_not_elem_of _ _ y Hnil).
    - intros Hne. destruct (filter _ l) as [|y l'] eqn:E; [done|].
      assert (Hy : y ∈ filter (λ e, e.1 = k) l) by (rewrite E; left).
      apply list_elem_of_filter in Hy as (Hk & Hy). eauto. }
  rewrite !Hf, dedup_filter.
  destruct (last (filter (λ e, e.1 = k) v)) as [y|] eqn:E; simpl.
  - split; [|done]. intros _ Hnil. by rewrite Hnil in E.
  - apply last_None in E. by rewrite E.
Qed.

Lemma dedup_length (v : list Data) :
  length (dedup v) = length (distinct_keys v).
Proof.
  rewrite <- (length_fmap fst (dedup v)). apply Permutation_length.
  apply NoDup_Permutation; [apply dedup_NoDup|apply NoDup_remove_dups|].
  intros k. unfold distinct_keys. by rewrite elem_of_remove_dups, dedup_keys.
Qed.

(** ** Erase by key *)

Lemma ptrs_erase_t s : ∀ DIM k, ptrs (erase_t KeySize DIM k s) `sublist_of` ptrs s.
Proof.
  induction s as [|l IHl a d r IHr]; intros DIM k; simpl; [done|].
  destruct (tuple_eq k d.1).
  - destruct l as [|l1 b e l2], r as [|r1 c f r2].
    + apply sublist_nil_l.
    + destruct (findMin_t _ _ _ _) as [[m dm]|]; [|done].
      rewrite !(ptrs_Br _ a). apply sublist_app; [done|]. apply sublist_skip.
      apply IHr.
    + destruct (findMax_t _ _ _ _) as [[m dm]|]; [|done].
      rewrite !(ptrs_Br _ a). apply sublist_app; [|done]. apply IHl.
    + destruct (findMin_t _ _ _ _) as [[m dm]|]; [|done].
      rewrite !(ptrs_Br _ a). apply sublist_app; [done|]. apply sublist_skip.
      apply IHr.
  - destruct (strictLessKey DIM Less k d.1); rewrite !ptrs_Br.
    + apply sublist_app; [apply IHl|done].
    + apply sublist_app; [done|]. apply sublist_skip, IHr.
Qed.

Lemma ptrs_erase_t_elem s DIM k x :
  x ∈ ptrs (erase_t KeySize DIM k s) → x ∈ ptrs s.
Proof. intros Hx. eapply elem_of_sublist; [done|apply ptrs_erase_t]. Qed.

Lemma NoDup_erase_t s DIM k :
  NoDup (ptrs s) → NoDup (ptrs (erase_t KeySize DIM k s)).
Proof. intros Hnd. eapply sublist_NoDup; [done|apply ptrs_erase_t]. Qed.

Lemma root_of_erase_t s DIM k :
  erase_t KeySize DIM k s = Leaf
  ∨ root_of (erase_t KeySize DIM k s) = root_of s.
Proof.
  destruct s as [|l a d r]; simpl; [by left|].
  destruct (tuple_eq k d.1).
  - destruct l, r; auto;
      match goal with |- context [match ?m with _ => _ end] =>
        destruct m as [[? ?]|] end; auto.
  - destruct (strictLessKey DIM Less k d.1); auto.
Qed.

(** The equations of [erase_t], by the links of the node. *)
Lemma erase_t_leaf DIM k l a d r :
  tuple_eq k d.1 = true → root_of l = None → root_of r = None →
  erase_t KeySize DIM k (Br l a d r) = Leaf.
Proof. intros E Hl Hr. simpl. rewrite E. by destruct l, r. Qed.

Lemma erase_t_right DIM k l a d r c m dm :
  tuple_eq k d.1 = true → root_of r = Some c →
  findMin_t KeySize DIM (DIM_NEXT KeySize DIM) r = Some (m, dm) →
  erase_t KeySize DIM k (Br l a d r)
  = Br l a dm (erase_t KeySize (DIM_NEXT KeySize DIM) dm.1 r).
Proof. intros E Hr Hm. simpl. rewrite E, Hm. by destruct l, r. Qed.

Lemma erase_t_left DIM k l a d r b m dm :
  tuple_eq k d.1 = true → root_of l = Some b → root_of r = None →
  findMax_t KeySize DIM (DIM_NEXT KeySize DIM) l = Some (m, dm) →
  erase_t KeySize DIM k (Br l a d r)
  = Br (erase_t KeySize (DIM_NEXT KeySize DIM) dm.1 l) a dm r.
Proof. intros E Hl Hr Hm. simpl. rewrite E, Hm. by destruct l, r. Qed.

Lemma erase_t_lt DIM k l a d r :
  tuple_eq k d.1 = false → strictLessKey DIM Less k d.1 = true →
  erase_t KeySize DIM k (Br l a d r)
  = Br (erase_t KeySize (DIM_NEXT KeySize DIM) k l) a d r.
Proof. intros E E'. simpl. by rewrite E, E'. Qed.

Lemma erase_t_ge DIM k l a d r :
  tuple_eq k d.1 = false → strictLessKey DIM Less k d.1 = false →
  erase_t KeySize DIM k (Br l a d r)
  = Br l a d (erase_t KeySize (DIM_NEXT KeySize DIM) k r).
Proof. intros E E'. simpl. by rewrite E, E'. Qed.

Lemma findMin_t_root CMP DIM s c :
  root_of s = Some c → ∃ m dm, findMin_t KeySize CMP DIM s = Some (m, dm).
Proof.
  destruct s as [|l a d r]; [done|]. intros _.
  destruct (findMin_t_Br CMP DIM l a d r) as ([m dm] & H). eauto.
Qed.

Lemma findMax_t_root CMP DIM s c :
  root_of s = Some c → ∃ m dm, findMax_t KeySize CMP DIM s = Some (m, dm).
Proof.
  destruct s as [|l a d r]; [done|]. intros _.
  destruct (findMax_t_Br CMP DIM l a d r) as ([m dm] & H). eauto.
Qed.

Lemma root_of_None s : root_of s = None → s = Leaf.
Proof. by destruct s. Qed.

#[local] Arguments erase_t : simpl never.

Lemma erase_effect_Br_l t t' l l' a d d' r :
  erase_effect t t' l l' → erase_effect t t' (Br l a d r) (Br l' a d' r).
Proof.
  unfold erase_effect. rewrite !ptrs_Br, !length_app. simpl.
  intros [(? & ? & ?)|(? & ? & ?)]; [left|right]; repeat split; auto; lia.
Qed.

Lemma erase_effect_Br_r t t' l a d d' r r' :
  erase_effect t t' r r' → erase_effect t t' (Br l a d r) (Br l a d' r').
Proof.
  unfold erase_effect. rewrite !ptrs_Br, !length_app. simpl.
  intros [(? & ? & ?)|(? & ? & ?)]; [left|right]; repeat split; auto; lia.
Qed.

Lemma erase_in_spec s :
  ∀ par (t : KDTree) fuel DIM k,
    repr (heap t) par s → NoDup (ptrs s) → (height s < fuel)%nat →
    ∃ t',
      erase_in KeySize fuel DIM (root_of s) k t
      = Some (root_of (erase_t KeySize DIM k s), t')
      ∧ repr (heap t') par (erase_t KeySize DIM k s)
      ∧ (∀ x, x ∉ ptrs s → heap t' !! x = heap t !! x)
      ∧ erase_effect t t' s (erase_t KeySize DIM k s).
Proof.
  induction s as [|l IHl a d r IHr]; intros par t fuel DIM k H Hnd Hf;
    (destruct fuel as [|fuel]; [simpl in Hf; lia|]).
  { exists t. repeat split; auto. left. done. }
  destruct H as (n & Hn & Hd & Hp & Hl & Hr & Rl & Rr). simpl in Hf.
  destruct (NoDup_Br _ _ _ _ Hnd) as (Hndl & Hndr & Hal & Har & Hlr).
  cbn [erase_in root_of]. rewrite Hn. cbn [mbind option_bind].
  unfold key. rewrite Hd.
  destruct (tuple_eq k d.1) eqn:E.
  - rewrite Hl, Hr.
    destruct (root_of r) as [c|] eqn:Er; [|destruct (root_of l) as [b|] eqn:El].
    + (* a right child: the minimum of the right subtree moves up *)
      destruct (findMin_t_root DIM (DIM_NEXT KeySize DIM) r c Er)
        as (m & dm & Hm).
      rewrite (erase_t_right _ _ _ _ _ _ _ _ _ E Er Hm).
      pose proof (findMin_in_spec _ _ _ DIM Rr fuel (DIM_NEXT KeySize DIM)
                    ltac:(lia)) as Hfm.
      rewrite Er, Hm in Hfm.
      replace (match root_of l with Some _ | _ => _ end)
        with (minNode ← findMin_in KeySize fuel (heap t) DIM
                          (DIM_NEXT KeySize DIM) (Some c);
              m0 ← minNode; nm ← heap t !! m0;
              h1 ← set_data a (data nm) (heap t);
              '(r0, t2) ← erase_in KeySize fuel (DIM_NEXT KeySize DIM) (Some c)
                                   (key nm) (with_heap t h1);
              h3 ← set_right a r0 (heap t2);
              Some (Some a, with_heap t2 h3)) by (by destruct (root_of l)).
      rewrite Hfm. cbn [fmap option_fmap option_map mbind option_bind fst].
      destruct (repr_lookup _ _ _ _ _ Rr (findMin_t_elem _ _ _ _ Hm))
        as (nm & Hnm & Hdm).
      rewrite Hnm. cbn [mbind option_bind]. unfold set_data. rewrite Hn.
      cbn [mbind option_bind].
      set (h1 := <[a := mkNode (data nm) (parent n) (left n) (right n)]> (heap t)).
      assert (R1 : repr (heap (with_heap t h1)) (Some a) r).
      { eapply repr_frame; [exact Rr|]. intros x Hx. simpl. subst h1.
        apply lookup_insert_ne. by intros ->. }
      destruct (IHr (Some a) (with_heap t h1) fuel (DIM_NEXT KeySize DIM)
                  (key nm) R1 Hndr ltac:(lia)) as (t2 & Hcall & R2 & Fr2 & Eff).
      rewrite Hcall. cbn [mbind option_bind].
      unfold set_right. rewrite (Fr2 a Har). cbn [heap with_heap]. subst h1.
      rewrite lookup_insert_eq. cbn [mbind option_bind data parent left right].
      unfold key in *. rewrite Hdm in *.
      eexists. split; [reflexivity|]. cbn [heap with_heap]. split; [|split].
      * simpl. eexists. rewrite lookup_insert_eq. split; [done|]. simpl.
        repeat split; auto.
        -- eapply repr_frame; [exact Rl|]. intros x Hx.
           rewrite lookup_insert_ne by (by intros ->).
           rewrite Fr2 by (by apply Hlr). simpl.
           by rewrite lookup_insert_ne by (by intros ->).
        -- eapply repr_frame; [exact R2|]. intros x Hx.
           apply lookup_insert_ne. intros ->.
           by apply ptrs_erase_t_elem in Hx.
      * intros x. rewrite ptrs_Br.
        intros (Hxl & (Hxn & Hxr)%not_elem_of_cons)%not_elem_of_app.
        rewrite lookup_insert_ne by done. rewrite Fr2 by done. simpl.
        by rewrite lookup_insert_ne by done.
      * by apply erase_effect_Br_r.
    + (* a left child only: the maximum of the left subtree moves up *)
      destruct (findMax_t_root DIM (DIM_NEXT KeySize DIM) l b El)
        as (m & dm & Hm).
      rewrite (erase_t_left _ _ _ _ _ _ _ _ _ E El Er Hm).
      pose proof (findMax_in_spec _ _ _ DIM Rl fuel (DIM_NEXT KeySize DIM)
                    ltac:(lia)) as Hfm.
      rewrite El, Hm in Hfm.
      rewrite Hfm. cbn [fmap option_fmap option_map mbind option_bind fst].
      destruct (repr_lookup _ _ _ _ _ Rl (findMax_t_elem _ _ _ _ Hm))
        as (nm & Hnm & Hdm).
      rewrite Hnm. cbn [mbind option_bind]. unfold set_data. rewrite Hn.
      cbn [mbind option_bind].
      set (h1 := <[a := mkNode (data nm) (parent n) (left n) (right n)]> (heap t)).
      assert (R1 : repr (heap (with_heap t h1)) (Some a) l).
      { eapply repr_frame; [exact Rl|]. intros x Hx. simpl. subst h1.
        apply lookup_insert_ne. by intros ->. }
      destruct (IHl (Some a) (with_heap t h1) fuel (DIM_NEXT KeySize DIM)
                  (data nm).1 R1 Hndl ltac:(lia)) as (t2 & Hcall & R2 & Fr2 & Eff).
      rewrite Hcall. cbn [mbind option_bind].
      unfold set_left. rewrite (Fr2 a Hal). cbn [heap with_heap]. subst h1.
      rewrite lookup_insert_eq. cbn [mbind option_bind data parent left right].
      unfold key in *. rewrite Hdm in *.
      eexists. split; [reflexivity|]. cbn [heap with_heap]. split; [|split].
      * simpl. eexists. rewrite lookup_insert_eq. split; [done|]. simpl.
        repeat split; auto; try congruence.
        -- eapply repr_frame; [exact R2|]. intros x Hx.
           apply lookup_insert_ne. intros ->.
           by apply ptrs_erase_t_elem in Hx.
        -- by rewrite (root_of_None _ Er).
      * intros x. rewrite ptrs_Br.
        intros (Hxl & (Hxn & Hxr)%not_elem_of_cons)%not_elem_of_app.
        rewrite lookup_insert_ne by done. rewrite Fr2 by done. simpl.
        by rewrite lookup_insert_ne by done.
      * by apply erase_effect_Br_l.
    + (* a leaf: the node is released *)
      rewrite (erase_t_leaf _ _ _ _ _ _ E El Er).
      eexists. split; [reflexivity|]. cbn [heap root treeSize].
      split; [done|]. split.
      * intros x Hx. apply lookup_delete_ne. intros ->. apply Hx.
        rewrite ptrs_Br. apply elem_of_app. right. left.
      * right. rewrite (root_of_None _ El), (root_of_None _ Er). done.
  - destruct (strictLessKey DIM Less k d.1) eqn:E'.
    + rewrite (erase_t_lt _ _ _ _ _ _ E E'). rewrite Hl.
      destruct (IHl (Some a) t fuel (DIM_NEXT KeySize DIM) k Rl Hndl ltac:(lia))
        as (t1 & -> & R1 & Fr1 & Eff).
      cbn [mbind option_bind]. unfold set_left. rewrite (Fr1 a Hal), Hn.
      cbn [mbind option_bind].
      eexists. split; [reflexivity|]. cbn [heap with_heap]. split; [|split].
      * simpl. eexists. rewrite lookup_insert_eq. split; [done|]. simpl.
        repeat split; auto.
        -- eapply repr_frame; [exact R1|]. intros x Hx.
           apply lookup_insert_ne. intros ->.
           by apply ptrs_erase_t_elem in Hx.
        -- eapply repr_frame; [exact Rr|]. intros x Hx.
           rewrite lookup_insert_ne by (by intros ->).
           apply Fr1. intros Hx'. by apply (Hlr x).
      * intros x. rewrite ptrs_Br.
        intros (Hxl & (Hxn & Hxr)%not_elem_of_cons)%not_elem_of_app.
        rewrite lookup_insert_ne by done. by apply Fr1.
      * by apply erase_effect_Br_l.
    + rewrite (erase_t_ge _ _ _ _ _ _ E E'). rewrite Hr.
      destruct (IHr (Some a) t fuel (DIM_NEXT KeySize DIM) k Rr Hndr ltac:(lia))
        as (t1 & -> & R1 & Fr1 & Eff).
      cbn [mbind option_bind]. unfold set_right. rewrite (Fr1 a Har), Hn.
      cbn [mbind option_bind].
      eexists. split; [reflexivity|]. cbn [heap with_heap]. split; [|split].
      * simpl. eexists. rewrite lookup_insert_eq. split; [done|]. simpl.
        repeat split; auto.
        -- eapply repr_frame; [exact Rl|]. intros x Hx.
           rewrite lookup_insert_ne by (by intros ->).
           apply Fr1. by apply Hlr.
        -- eapply repr_frame; [exact R1|]. intros x Hx.
           apply lookup_insert_ne. intros ->.
           by apply ptrs_erase_t_elem in Hx.
      * intros x. rewrite ptrs_Br.
        intros (Hxl & (Hxn & Hxr)%not_elem_of_cons)%not_elem_of_app.
        rewrite lookup_insert_ne by done. by apply Fr1.
      * by apply erase_effect_Br_r.
Qed.

Lemma entries_erase_t s :
  ∀ DIM k e, e ∈ entries (erase_t KeySize DIM k s) → e ∈ entries s.
Proof.
  induction s as [|l IHl a d r IHr]; intros DIM k e; [done|].
  destruct (tuple_eq k d.1) eqn:E.
  - destruct (root_of r) as [c|] eqn:Er; [|destruct (root_of l) as [b|] eqn:El].
    + destruct (findMin_t_root DIM (DIM_NEXT KeySize DIM) r c Er) as (m & dm & Hm).
      rewrite (erase_t_right _ _ _ _ _ _ _ _ _ E Er Hm), !entries_Br.
      rewrite !elem_of_app, !elem_of_cons.
      intros [H|[->|H]]; auto.
      * right. right. apply findMin_t_elem in Hm. unfold entries.
        apply list_elem_of_fmap. by exists (m, dm).
      * right. right. by eapply IHr.
    + destruct (findMax_t_root DIM (DIM_NEXT KeySize DIM) l b El) as (m & dm & Hm).
      rewrite (erase_t_left _ _ _ _ _ _ _ _ _ E El Er Hm), !entries_Br.
      rewrite !elem_of_app, !elem_of_cons.
      intros [H|[->|H]]; auto.
      * left. by eapply IHl.
      * left. apply findMax_t_elem in Hm. unfold entries.
        apply list_elem_of_fmap. by exists (m, dm).
    + rewrite (erase_t_leaf _ _ _ _ _ _ E El Er). by intros ?%elem_of_nil.
  - destruct (strictLessKey DIM Less k d.1) eqn:E'.
    + rewrite (erase_t_lt _ _ _ _ _ _ E E'), !entries_Br.
      rewrite !elem_of_app. intros [H|H]; auto. left. by eapply IHl.
    + rewrite (erase_t_ge _ _ _ _ _ _ E E'), !entries_Br.
      rewrite !elem_of_app, !elem_of_cons. intros [H|[H|H]]; auto.
      right. right. by eapply IHr.
Qed.

Lemma Forall_entries_erase_t (P : Data → Prop) s DIM k :
  Forall P (entries s) → Forall P (entries (erase_t KeySize DIM k s)).
Proof.
  rewrite !Forall_forall. intros H e He. by apply H, (entries_erase_t _ DIM k).
Qed.

(** [erase] keeps a partitioned shape partitioned: the entry that moves
    up is an extremum of its subtree in the dimension of the node. *)
Lemma partitioned_erase_t s :
  ∀ DIM k, partitioned KeySize DIM s →
           partitioned KeySize DIM (erase_t KeySize DIM k s).
Proof.
  induction s as [|l IHl a d r IHr]; intros DIM k Hp; [done|].
  destruct Hp as (Pl & Pr & Hpl & Hpr).
  destruct (tuple_eq k d.1) eqn:E.
  - destruct (root_of r) as [c|] eqn:Er; [|destruct (root_of l) as [b|] eqn:El].
    + destruct (findMin_t_root DIM (DIM_NEXT KeySize DIM) r c Er) as (m & dm & Hm).
      rewrite (erase_t_right _ _ _ _ _ _ _ _ _ E Er Hm).
      pose proof (findMin_t_least _ _ _ _ Hpr Hm) as Hmin. simpl in Hmin.
      assert (Hdm : get DIM d.1 ≤ get DIM dm.1).
      { rewrite Forall_forall in Pr. apply Pr.
        apply findMin_t_elem in Hm. unfold entries.
        apply list_elem_of_fmap. by exists (m, dm). }
      simpl. repeat split; auto.
      * eapply Forall_impl; [exact Pl|]. simpl. intros. lia.
      * by apply Forall_entries_erase_t.
    + destruct (findMax_t_root DIM (DIM_NEXT KeySize DIM) l b El) as (m & dm & Hm).
      rewrite (erase_t_left _ _ _ _ _ _ _ _ _ E El Er Hm).
      pose proof (findMax_t_greatest _ _ _ _ Hpl Hm) as Hmax. simpl in Hmax.
      simpl. repeat split; auto.
      * by apply Forall_entries_erase_t.
      * rewrite (root_of_None _ Er). constructor.
    + by rewrite (erase_t_leaf _ _ _ _ _ _ E El Er).
  - destruct (strictLessKey DIM Less k d.1) eqn:E'.
    + rewrite (erase_t_lt _ _ _ _ _ _ E E'). simpl. repeat split; auto.
      by apply Forall_entries_erase_t.
    + rewrite (erase_t_ge _ _ _ _ _ _ E E'). simpl. repeat split; auto.
      by apply Forall_entries_erase_t.
Qed.

(** ** The public members keep trees in good order *)

Lemma Forall_keys_insert_t (P : Key → Prop) s :
  ∀ DIM k v new_a,
    P k → Forall (λ e, P e.1) (entries s) →
    Forall (λ e : Data, P e.1) (entries (insert_t KeySize DIM k v new_a s)).
Proof.
  induction s as [|l IHl a d r IHr]; intros DIM k v new_a Hk Hall; simpl.
  - by repeat constructor.
  - rewrite entries_Br in Hall. apply Forall_app in Hall as (Hl & Hr).
    apply Forall_cons in Hr as (Hd & Hr).
    destruct (tuple_eq d.1 k); [|destruct (strictLessKey DIM Less k d.1)];
      rewrite entries_Br; apply Forall_app; split; auto.
Qed.

Lemma partitioned_insert_t s :
  ∀ DIM k v new_a, partitioned KeySize DIM s →
    partitioned KeySize DIM (insert_t KeySize DIM k v new_a s).
Proof.
  induction s as [|l IHl a d r IHr]; intros DIM k v new_a Hp; simpl.
  - repeat split; constructor.
  - destruct Hp as (Pl & Pr & Hpl & Hpr).
    destruct (tuple_eq d.1 k); [done|].
    unfold strictLessKey, compare_comp.
    destruct (Z.ltb_spec (get DIM k) (get DIM d.1)); simpl; repeat split; auto.
    + apply (Forall_keys_insert_t (λ key, get DIM key ≤ get DIM d.1)); [lia|done].
    + apply (Forall_keys_insert_t (λ key, get DIM d.1 ≤ get DIM key)); [lia|done].
Qed.

(** [insert] keeps the invariant of the specification. *)
Lemma kd_invariant_insert_t s :
  ∀ DIM k v new_a, kd_invariant KeySize DIM s →
    kd_invariant KeySize DIM (insert_t KeySize DIM k v new_a s).
Proof.
  induction s as [|l IHl a d r IHr]; intros DIM k v new_a Hp; simpl.
  - repeat split; constructor.
  - destruct Hp as (Pl & Pr & Hpl & Hpr).
    destruct (tuple_eq d.1 k); [done|].
    unfold strictLessKey, compare_comp.
    destruct (Z.ltb_spec (get DIM k) (get DIM d.1)); simpl; repeat split; auto.
    + apply (Forall_keys_insert_t (λ key, get DIM key < get DIM d.1)); [lia|done].
    + apply (Forall_keys_insert_t (λ key, ¬ get DIM key < get DIM d.1)); [lia|done].
Qed.

Lemma length_ptrs_insert_t s :
  ∀ DIM k v new_a,
    length (ptrs (insert_t KeySize DIM k v new_a s))
    = (if find_t KeySize DIM k s is Some _ then length (ptrs s)
       else S (length (ptrs s))).
Proof.
  induction s as [|l IHl a d r IHr]; intros DIM k v new_a; simpl; [done|].
  destruct (tuple_eq d.1 k); [by rewrite !ptrs_Br|].
  destruct (strictLessKey DIM Less k d.1); rewrite !ptrs_Br, !length_app; simpl.
  - rewrite IHl. destruct (find_t _ _ _ l); lia.
  - rewrite IHr. destruct (find_t _ _ _ r); lia.
Qed.

Lemma insert_in_flag s :
  ∀ par (t : KDTree) fuel DIM k v b p t',
    repr (heap t) par s → (height s < fuel)%nat →
    insert_in KeySize fuel DIM k v (root_of s) par t = Some (b, p, t') →
    b = (if find_t KeySize DIM k s is Some _ then false else true).
Proof.
  induction s as [|l IHl a d r IHr]; intros par t fuel DIM k v b p t' H Hf;
    (destruct fuel as [|fuel]; [simpl in Hf; lia|]); simpl.
  - by intros [= <- _ _].
  - destruct H as (n & Hn & Hd & Hp & Hl & Hr & Rl & Rr). simpl in Hf.
    rewrite Hn. simpl. unfold key. rewrite Hd.
    destruct (tuple_eq d.1 k).
    + destruct (set_data _ _ _); simpl; [|done]. by intros [= <- _ _].
    + destruct (strictLessKey DIM Less k d.1).
      * rewrite Hl.
        destruct (insert_in _ _ _ _ _ (root_of l) _ _) as [[[b1 p1] t1]|] eqn:E;
          simpl; [|done].
        destruct (set_left _ _ _); simpl; [|done]. intros [= <- _ _].
        eapply IHl; [exact Rl| |exact E]. lia.
      * rewrite Hr.
        destruct (insert_in _ _ _ _ _ (root_of r) _ _) as [[[b1 p1] t1]|] eqn:E;
          simpl; [|done].
        destruct (set_right _ _ _); simpl; [|done]. intros [= <- _ _].
        eapply IHr; [exact Rr| |exact E]. lia.
Qed.

Lemma same_data_entries s : ∀ s', same_data s s' → entries s = entries s'.
Proof.
  induction s as [|l IHl a d r IHr]; intros [|l' a' d' r']; simpl; try done.
  intros (-> & Hl & Hr). by rewrite !entries_Br, (IHl _ Hl), (IHr _ Hr).
Qed.

Lemma same_data_length s : ∀ s', same_data s s' → length (ptrs s) = length (ptrs s').
Proof.
  induction s as [|l IHl a d r IHr]; intros [|l' a' d' r']; simpl; try done.
  intros (-> & Hl & Hr). rewrite !ptrs_Br, !length_app. simpl.
  by rewrite (IHl _ Hl), (IHr _ Hr).
Qed.

Lemma same_data_partitioned s :
  ∀ s' DIM, same_data s s' → partitioned KeySize DIM s → partitioned KeySize DIM s'.
Proof.
  induction s as [|l IHl a d r IHr]; intros [|l' a' d' r'] DIM; simpl; try done.
  intros (-> & Hl & Hr) (Pl & Pr & Hpl & Hpr).
  rewrite <- (same_data_entries _ _ Hl), <- (same_data_entries _ _ Hr).
  repeat split; eauto.
Qed.

Lemma same_data_kd_invariant s :
  ∀ s' DIM, same_data s s' → kd_invariant KeySize DIM s → kd_invariant KeySize DIM s'.
Proof.
  induction s as [|l IHl a d r IHr]; intros [|l' a' d' r'] DIM; simpl; try done.
  intros (-> & Hl & Hr) (Pl & Pr & Hpl & Hpr).
  rewrite <- (same_data_entries _ _ Hl), <- (same_data_entries _ _ Hr).
  repeat split; eauto.
Qed.

(** [copyAll] rebuilds the shape of the source in new nodes. *)
Lemma copyAll_spec (src : gmap ptr Node) s :
  ∀ par_src fuel par h,
    repr src par_src s → (height s < fuel)%nat →
    ∃ s' h',
      copyAll fuel src (root_of s) par h = Some (root_of s', h')
      ∧ repr h' par s'
      ∧ NoDup (ptrs s')
      ∧ same_data s s'
      ∧ (∀ x, x ∈ ptrs s' → x ∉ dom h)
      ∧ (∀ x, x ∉ ptrs s' → h' !! x = h !! x).
Proof.
  induction s as [|l IHl a d r IHr]; intros par_src fuel par h H Hf;
    (destruct fuel as [|fuel]; [simpl in Hf; lia|]).
  { exists Leaf, h. split; [done|]. split; [done|]. split; [constructor|].
    split; [done|]. split; [by intros x ?%elem_of_nil|done]. }
  destruct H as (n & Hn & Hd & Hp & Hl & Hr & Rl & Rr). simpl in Hf.
  cbn [copyAll root_of]. rewrite Hn. cbn [mbind option_bind].
  rewrite Hl, Hr.
  replace (key n, value n) with d
    by (rewrite <- Hd; unfold key, value; by destruct (data n)).
  set (now := fresh (dom h)).
  assert (Hnow : now ∉ dom h) by apply is_fresh.
  set (h1 := <[now := mkNode d par None None]> h).
  destruct (IHl (Some a) fuel (Some now) h1 Rl ltac:(lia))
    as (sl & h2 & -> & Rl' & Hndl & Hsl & Hfl & Hfrl).
  cbn [mbind option_bind]. unfold set_left.
  assert (Hnl : now ∉ ptrs sl).
  { intros Hin. apply (Hfl _ Hin). subst h1. rewrite dom_insert_L.
    apply elem_of_union. left. by apply elem_of_singleton. }
  rewrite (Hfrl now Hnl). subst h1. rewrite lookup_insert_eq.
  cbn [mbind option_bind data parent left right].
  set (h3 := <[now := mkNode d par (root_of sl) None]> h2).
  destruct (IHr (Some a) fuel (Some now) h3 Rr ltac:(lia))
    as (sr & h4 & -> & Rr' & Hndr & Hsr & Hfr & Hfrr).
  cbn [mbind option_bind]. unfold set_right.
  assert (Hnr : now ∉ ptrs sr).
  { intros Hin. apply (Hfr _ Hin). subst h3. rewrite dom_insert_L.
    apply elem_of_union. left. by apply elem_of_singleton. }
  rewrite (Hfrr now Hnr). subst h3. rewrite lookup_insert_eq.
  cbn [mbind option_bind data parent left right].
  set (h3 := <[now := mkNode d par (root_of sl) None]> h2) in *.
  assert (Hlr : ∀ x, x ∈ ptrs sl → x ∉ ptrs sr).
  { intros x Hx Hx'. apply (Hfr _ Hx'). subst h3. rewrite dom_insert_L.
    apply elem_of_union. right. by eapply repr_ptrs_dom. }
  exists (Br sl now d sr). eexists. split; [reflexivity|].
  split; [|split; [|split; [|split]]].
  - simpl. eexists. rewrite lookup_insert_eq. split; [done|]. simpl.
    repeat split; auto.
    + eapply repr_frame; [exact Rl'|]. intros x Hx.
      rewrite lookup_insert_ne by (by intros ->).
      rewrite Hfrr by (by apply Hlr). subst h3.
      by rewrite lookup_insert_ne by (by intros ->).
    + eapply repr_frame; [exact Rr'|]. intros x Hx.
      by rewrite lookup_insert_ne by (by intros ->).
  - rewrite ptrs_Br. apply NoDup_app. split; [done|]. split.
    + intros x Hx [->|Hx']%elem_of_cons; [done|]. by apply (Hlr x).
    + apply NoDup_cons. by split.
  - done.
  - intros x. rewrite ptrs_Br.
    intros [Hx|[->|Hx]%elem_of_cons]%elem_of_app; [|done|].
    + intros Hd'. apply (Hfl _ Hx). rewrite dom_insert_L.
      apply elem_of_union. by right.
    + intros Hd'. apply (Hfr _ Hx). subst h3. rewrite dom_insert_L.
      apply elem_of_union. right.
      apply elem_of_dom. rewrite Hfrl.
      * rewrite lookup_insert_ne by (by intros ->). by apply elem_of_dom.
      * intros Hx'. by apply (Hlr x).
  - intros x. rewrite ptrs_Br.
    intros (Hxl & (Hxn & Hxr)%not_elem_of_cons)%not_elem_of_app.
    rewrite lookup_insert_ne by done. rewrite Hfrr by done. subst h3.
    rewrite lookup_insert_ne by done. rewrite Hfrl by done.
    by rewrite lookup_insert_ne by done.
Qed.

Lemma distinct_keys_length (v : list Data) :
  (length (distinct_keys v) ≤ length v)%nat.
Proof.
  unfold distinct_keys. rewrite <- (length_fmap fst v).
  apply submseteq_length, NoDup_submseteq; [apply NoDup_remove_dups|].
  intros k. by rewrite elem_of_remove_dups.
Qed.

Lemma length_ptrs_entries s : length (ptrs s) = length (entries s).
Proof. unfold ptrs, entries. by rewrite !length_fmap. Qed.

Lemma wrap_small z : 0 ≤ z < size_t_mod → wrap z = z.
Proof. intros. unfold wrap. by apply Z.mod_small. Qed.

Lemma valid_empty : valid KeySize (@empty_tree Value).
Proof.
  exists Leaf. repeat split; try done. constructor.
Qed.

Lemma valid_KDTree_of (v : list Data) t :
  Z.of_nat (length v) < size_t_mod → KDTree_of KeySize nth_element v = Some t → valid KeySize t.
Proof.
  intros Hlen Hof. unfold KDTree_of in Hof.
  destruct (KDTree_helper_spec (S (length (dedup v))) 0 (dedup v) None ∅
              ltac:(lia)) as (s & h & Hb & R & Hnd & Hperm & _ & _ & Hp).
  rewrite Hb in Hof. simpl in Hof. inversion Hof; subst t. clear Hof.
  exists s. split; [done|]. split; [done|]. unfold size. simpl.
  rewrite length_ptrs_entries, Hperm. split; [done|].
  rewrite dedup_length. pose proof (distinct_keys_length v). lia.
Qed.

Lemma valid_copy t t' : valid KeySize t → KDTree_copy t = Some t' → valid KeySize t'.
Proof.
  intros (s & (Hroot & R & Hnd) & Hp & Hsz & Hlt) Hc. unfold KDTree_copy in Hc.
  destruct (copyAll_spec (heap t) s None (fuel_of (heap t)) None ∅ R
              (repr_fuel _ _ _ R Hnd))
    as (s' & h' & Hcall & R' & Hnd' & Hsame & _ & _).
  rewrite Hroot, Hcall in Hc. simpl in Hc. inversion Hc; subst t'. clear Hc.
  exists s'. split; [done|]. split; [by eapply same_data_partitioned|].
  unfold size in *. simpl. by rewrite <- (same_data_length _ _ Hsame).
Qed.

Lemma valid_insert t k v t' :
  valid KeySize t → size t + 1 < size_t_mod → insert KeySize k v t = Some t' → valid KeySize t'.
Proof.
  intros (s & Hs & Hp & Hsz & Hlt) Hroom Hins.
  pose proof (shape_fresh _ _ Hs) as Hfr. destruct Hs as (Hroot & R & Hnd).
  destruct (insert_in_spec s None t (fuel_of (heap t)) 0%nat k v R Hnd
              (repr_fuel _ _ _ R Hnd)) as (b & t1 & Hcall & R1 & _ & _ & Hsz1).
  pose proof (insert_in_flag _ _ _ _ _ _ _ _ _ _ R (repr_fuel _ _ _ R Hnd) Hcall)
    as Hb.
  unfold insert in Hins. rewrite Hroot, Hcall in Hins. simpl in Hins.
  inversion Hins; subst t'. clear Hins.
  exists (insert_t KeySize 0 k v (fresh (dom (heap t))) s).
  split; [split; [done|split; [done|by apply NoDup_insert_t]]|].
  split; [by apply partitioned_insert_t|].
  unfold size in *. simpl. rewrite Hsz1, length_ptrs_insert_t, Hb.
  destruct (find_t KeySize 0 k s); [lia|].
  rewrite wrap_small by lia. lia.
Qed.

(** The public [erase(key)] on a tree whose counter is right: the shape
    after it is [erase_t] of the shape before, and the result says whether
    a node went. *)
Lemma erase_spec t s k :
  shape_of t s → size t = Z.of_nat (length (ptrs s)) → size t < size_t_mod →
  let s' := erase_t KeySize 0 k s in
  ∃ t', erase KeySize k t
        = Some (bool_decide (length (ptrs s') < length (ptrs s))%nat, t')
        ∧ shape_of t' s'
        ∧ size t' = Z.of_nat (length (ptrs s')).
Proof.
  intros (Hroot & R & Hnd) Hsz Hlt s'.
  destruct (erase_in_spec s None t (fuel_of (heap t)) 0%nat k R Hnd
              (repr_fuel _ _ _ R Hnd)) as (t1 & Hcall & R1 & _ & Eff).
  fold s' in Hcall, R1, Eff.
  unfold erase. rewrite Hroot, Hcall. simpl. unfold size in *.
  assert (Hshape : root t1 = root_of s'
                   ∧ treeSize t1 = Z.of_nat (length (ptrs s'))
                   ∧ (treeSize t1 <? treeSize t)
                     = bool_decide (length (ptrs s') < length (ptrs s))%nat).
  { destruct Eff as [(Hlen & Hts & Hrt)|(Hlen & Hts & Hrt)].
    - rewrite Hrt, Hts, Hlen, Hroot. split; [|split; [done|]].
      + destruct (root_of_erase_t s 0%nat k) as [E|E]; [|done].
        fold s' in E. rewrite E in *. simpl in Hlen.
        destruct s; [done|]. rewrite ptrs_Br, length_app in Hlen. simpl in Hlen. lia.
      + rewrite Z.ltb_irrefl. symmetry. apply bool_decide_eq_false. lia.
    - rewrite wrap_small in Hts by lia.
      assert (Hts' : treeSize t1 = Z.of_nat (length (ptrs s'))) by lia.
      split; [|split; [done|]].
      + rewrite Hrt.
        destruct (Z.eqb_spec (treeSize t1) 0) as [Hz|Hz].
        * destruct s' as [|? ? ? ?]; [done|].
          rewrite ptrs_Br, length_app in Hts'. simpl in Hts'. lia.
        * rewrite Hroot. destruct (root_of_erase_t s 0%nat k) as [E|E]; [|done].
          fold s' in E. rewrite E in Hts'. simpl in Hts'. lia.
      + rewrite bool_decide_eq_true_2 by lia. apply Z.ltb_lt. lia. }
  destruct Hshape as (Hroot1 & Hsz1 & Hb). rewrite Hb.
  eexists. split; [reflexivity|]. split; [|done].
  split; [done|]. split; [done|]. by apply NoDup_erase_t.
Qed.

Lemma valid_erase t k b t' :
  valid KeySize t → erase KeySize k t = Some (b, t') → valid KeySize t'.
Proof.
  intros (s & Hs & Hp & Hsz & Hlt) Her.
  destruct (erase_spec t s k Hs Hsz Hlt) as (t1 & Her' & Hs1 & Hsz1).
  rewrite Her' in Her. inversion Her; subst. clear Her.
  exists (erase_t KeySize 0 k s). split; [done|].
  split; [by apply partitioned_erase_t|]. split; [done|].
  pose proof (sublist_length _ _ (ptrs_erase_t s 0%nat k)). lia.
Qed.

(** Every tree that the constructors, [insert] and [erase(key)] build is
    in good order. *)
Lemma built_valid t : built KeySize nth_element t → valid KeySize t.
Proof.
  induction 1 as [|v t Hlen Hof|t t' _ IH Hc|k v t t' _ IH Hroom Hins
                 |k t b t' _ IH Her].
  - apply valid_empty.
  - by eapply valid_KDTree_of.
  - by eapply valid_copy.
  - by eapply valid_insert.
  - by eapply valid_erase.
Qed.

(** [insert] and the copy constructor keep the invariant of the
    specification. *)
Lemma insert_keeps_invariant t s k v :
  shape_of t s → kd_invariant KeySize 0 s →
  ∃ t' s', insert KeySize k v t = Some t' ∧ shape_of t' s'
           ∧ kd_invariant KeySize 0 s'.
Proof.
  intros Hs Hinv. destruct (insert_spec t s k v Hs) as (t' & Hins & Hs').
  exists t', (insert_t KeySize 0 k v (fresh (dom (heap t))) s).
  split; [done|]. split; [done|]. by apply kd_invariant_insert_t.
Qed.

Lemma copy_keeps_invariant t s :
  shape_of t s → kd_invariant KeySize 0 s →
  ∃ t' s', KDTree_copy t = Some t' ∧ shape_of t' s' ∧ same_data s s'
           ∧ kd_invariant KeySize 0 s' ∧ size t' = size t.
Proof.
  intros (Hroot & R & Hnd) Hinv.
  destruct (copyAll_spec (heap t) s None (fuel_of (heap t)) None ∅ R
              (repr_fuel _ _ _ R Hnd))
    as (s' & h' & Hcall & R' & Hnd' & Hsame & _ & _).
  unfold KDTree_copy. rewrite Hroot, Hcall. simpl.
  eexists _, s'. split; [reflexivity|]. split; [done|]. split; [done|].
  split; [|done]. by eapply same_data_kd_invariant.
Qed.

(** On a tree in good order the public members return. *)
Lemma insert_total t k v : valid KeySize t → is_Some (insert KeySize k v t).
Proof.
  intros (s & Hs & _). destruct (insert_spec t s k v Hs) as (t' & -> & _). eauto.
Qed.

Lemma erase_total t k : valid KeySize t → is_Some (erase KeySize k t).
Proof.
  intros (s & (Hroot & R & Hnd) & _).
  destruct (erase_in_spec s None t (fuel_of (heap t)) 0%nat k R Hnd
              (repr_fuel _ _ _ R Hnd)) as (t1 & Hcall & _).
  unfold erase. rewrite Hroot, Hcall. simpl. eauto.
Qed.

Lemma KDTree_copy_total t : valid KeySize t → is_Some (KDTree_copy t).
Proof.
  intros (s & (Hroot & R & Hnd) & _).
  destruct (copyAll_spec (heap t) s None (fuel_of (heap t)) None ∅ R
              (repr_fuel _ _ _ R Hnd)) as (s' & h' & Hcall & _).
  unfold KDTree_copy. rewrite Hroot, Hcall. simpl. eauto.
Qed.

(** The extremum queries on the trees a program builds. *)
Lemma extremum_on_built t (dim : nat) :
  built KeySize nth_element t → root t ≠ None → (dim < KeySize)%nat →
  ∃ s, shape_of t s
       ∧ (∃ a n, findMax KeySize dim t = Some (Some a)
                 ∧ heap t !! a = Some n ∧ (a, data n) ∈ nodes s
                 ∧ Forall (λ e, get dim e.1 ≤ get dim (key n)) (entries s))
       ∧ (∃ a n, findMin KeySize dim t = Some (Some a)
                 ∧ heap t !! a = Some n ∧ (a, data n) ∈ nodes s
                 ∧ Forall (λ e, get dim (key n) ≤ get dim e.1) (entries s)).
Proof.
  intros Hb Hne Hd. destruct (built_valid _ Hb) as (s & Hs & Hp & _).
  exists s. split; [done|].
  destruct (extremum_on_partitioned t s dim Hs Hp Hne Hd)
    as ((a & n & H1 & _ & H2) & (a' & n' & H1' & _ & H2')).
  split; eauto.
Qed.

(** ** [find] and [erase] under the invariant of the specification *)

(** Under the invariant the descent meets every key of the tree. *)
Lemma find_t_complete s :
  ∀ DIM k, kd_invariant KeySize DIM s → k ∈ (entries s).*1 →
    is_Some (find_t KeySize DIM k s).
Proof.
  induction s as [|l IHl a d r IHr]; intros DIM k Hinv Hin; simpl.
  - by apply elem_of_nil in Hin.
  - destruct Hinv as (Pl & Pr & Il & Ir).
    destruct (tuple_eq d.1 k) eqn:E; [eauto|].
    apply bool_decide_eq_false in E.
    rewrite entries_Br, fmap_app, fmap_cons in Hin.
    apply elem_of_app in Hin as [Hin|[Hin|Hin]%elem_of_cons]; [| congruence |].
    + apply list_elem_of_fmap in Hin as (e & -> & He).
      rewrite Forall_forall in Pl. specialize (Pl e He). simpl in Pl.
      unfold strictLessKey, compare_comp.
      destruct (Z.ltb_spec (get DIM e.1) (get DIM d.1)); [|lia].
      apply IHl; [done|]. apply list_elem_of_fmap. eauto.
    + apply list_elem_of_fmap in Hin as (e & -> & He).
      rewrite Forall_forall in Pr. specialize (Pr e He). simpl in Pr.
      unfold strictLessKey, compare_comp.
      destruct (Z.ltb_spec (get DIM e.1) (get DIM d.1)); [lia|].
      apply IHr; [done|]. apply list_elem_of_fmap. eauto.
Qed.

Lemma filter_all {A} (P : A → Prop) `{!∀ x, Decision (P x)} (l : list A) :
  Forall P l → filter P l = l.
Proof.
  induction 1 as [|x l Hx Hl IH]; [done|].
  by rewrite filter_cons, decide_True, IH by done.
Qed.

Lemma filter_other_keys (l : list Data) k :
  k ∉ l.*1 → filter (λ e, e.1 ≠ k) l = l.
Proof.
  intros Hk. apply filter_all, Forall_forall. intros e He Hek.
  apply Hk. rewrite <- Hek. apply list_elem_of_fmap. eauto.
Qed.

Lemma filter_one_key (l : list Data) (e : Data) :
  NoDup (l.*1) → e ∈ l → e :: filter (λ x, x.1 ≠ e.1) l ≡ₚ l.
Proof.
  induction l as [|y l IH]; intros Hnd Hin; [by apply elem_of_nil in Hin|].
  rewrite fmap_cons in Hnd. apply NoDup_cons in Hnd as (Hy & Hnd).
  rewrite filter_cons.
  apply elem_of_cons in Hin as [->|Hin].
  - rewrite decide_False by (by intros ?). by rewrite filter_other_keys.
  - rewrite decide_True.
    + rewrite Permutation_swap. by rewrite IH.
    + intros Heq. apply Hy. rewrite Heq. apply list_elem_of_fmap. eauto.
Qed.

Lemma NoDup_keys_Br l a d r :
  NoDup (entries (Br l a d r)).*1 →
  NoDup (entries l).*1 ∧ NoDup (entries r).*1
  ∧ (d.1 ∉ (entries l).*1) ∧ (d.1 ∉ (entries r).*1).
Proof.
  rewrite entries_Br, fmap_app, fmap_cons.
  intros (Hl & Hd & Hr)%NoDup_app. apply NoDup_cons in Hr as (Hdr & Hr).
  repeat split; auto. intros Hin. apply (Hd _ Hin). left.
Qed.

(** Under the invariant, with no key twice, [erase] takes out the entry of
    the key and no other. *)
Lemma erase_t_removes s :
  ∀ DIM k, kd_invariant KeySize DIM s → NoDup (entries s).*1 →
    entries (erase_t KeySize DIM k s) ≡ₚ filter (λ e, e.1 ≠ k) (entries s).
Proof.
  induction s as [|l IHl a d r IHr]; intros DIM k Hinv Hnd; [done|].
  destruct Hinv as (Pl & Pr & Il & Ir).
  destruct (NoDup_keys_Br _ _ _ _ Hnd) as (Hndl & Hndr & Hdl & Hdr).
  rewrite (entries_Br l), filter_app, filter_cons.
  destruct (tuple_eq k d.1) eqn:E.
  - apply bool_decide_eq_true in E. subst k.
    rewrite decide_False by (by intros ?).
    rewrite !filter_other_keys by done.
    destruct (root_of r) as [c|] eqn:Er; [|destruct (root_of l) as [b|] eqn:El].
    + destruct (findMin_t_root DIM (DIM_NEXT KeySize DIM) r c Er) as (m & dm & Hm).
      rewrite (erase_t_right _ _ _ _ _ _ _ _ _ (bool_decide_eq_true_2 _ eq_refl)
                 Er Hm), entries_Br.
      rewrite (IHr _ _ Ir Hndr). apply Permutation_app_head.
      apply filter_one_key; [done|]. apply findMin_t_elem in Hm.
      unfold entries. apply list_elem_of_fmap. by exists (m, dm).
    + destruct (findMax_t_root DIM (DIM_NEXT KeySize DIM) l b El) as (m & dm & Hm).
      rewrite (erase_t_left _ _ _ _ _ _ _ _ _ (bool_decide_eq_true_2 _ eq_refl)
                 El Er Hm), entries_Br.
      rewrite (IHl _ _ Il Hndl). rewrite (root_of_None _ Er).
      change (entries (@Leaf Value)) with (@nil Data).
      rewrite <- Permutation_middle, !app_nil_r. apply filter_one_key; [done|].
      apply findMax_t_elem in Hm.
      unfold entries. apply list_elem_of_fmap. by exists (m, dm).
    + rewrite (erase_t_leaf _ _ _ _ _ _ (bool_decide_eq_true_2 _ eq_refl) El Er).
      by rewrite (root_of_None _ El), (root_of_None _ Er).
  - pose proof E as E0. apply bool_decide_eq_false in E.
    rewrite decide_True by (by intros ?).
    destruct (strictLessKey DIM Less k d.1) eqn:E'.
    + rewrite (erase_t_lt _ _ _ _ _ _ E0 E'), entries_Br, (IHl _ _ Il Hndl).
      rewrite (filter_other_keys (entries r)); [done|].
      intros (e & -> & He)%list_elem_of_fmap.
      rewrite Forall_forall in Pr. specialize (Pr e He). simpl in Pr.
      unfold strictLessKey, compare_comp in E'. apply Z.ltb_lt in E'. lia.
    + rewrite (erase_t_ge _ _ _ _ _ _ E0 E'), entries_Br, (IHr _ _ Ir Hndr).
      rewrite (filter_other_keys (entries l)); [done|].
      intros (e & -> & He)%list_elem_of_fmap.
      rewrite Forall_forall in Pl. specialize (Pl e He). simpl in Pl.
      unfold strictLessKey, compare_comp in E'. apply Z.ltb_ge in E'. lia.
Qed.

(** A key that the descent does not meet: [erase] changes nothing.  This
    holds on every shape. *)
Lemma erase_in_absent s :
  ∀ par (t : KDTree) fuel DIM k,
    repr (heap t) par s → (height s < fuel)%nat →
    find_t KeySize DIM k s = None →
    erase_in KeySize fuel DIM (root_of s) k t = Some (root_of s, t).
Proof.
  induction s as [|l IHl a d r IHr]; intros par t fuel DIM k H Hf Hfind;
    (destruct fuel as [|fuel]; [simpl in Hf; lia|]); [done|].
  destruct H as (n & Hn & Hd & Hp & Hl & Hr & Rl & Rr). simpl in Hf, Hfind.
  cbn [erase_in root_of]. rewrite Hn. cbn [mbind option_bind].
  unfold key. rewrite Hd.
  assert (Heta : ∀ h, h !! a = Some n → <[a := n]> h = h)
    by (intros; by apply insert_id).
  assert (Ht : with_heap t (heap t) = t) by (by destruct t).
  destruct (tuple_eq d.1 k) eqn:E; [done|].
  assert (tuple_eq k d.1 = false) as ->.
  { apply bool_decide_eq_false in E. apply bool_decide_eq_false. congruence. }
  destruct (strictLessKey DIM Less k d.1).
  - rewrite Hl, (IHl (Some a) t fuel _ k Rl ltac:(lia) Hfind). cbn [mbind option_bind].
    unfold set_left. rewrite Hn. cbn [mbind option_bind].
    by rewrite <- Hl, Node_eta, Heta, Ht.
  - rewrite Hr, (IHr (Some a) t fuel _ k Rr ltac:(lia) Hfind). cbn [mbind option_bind].
    unfold set_right. rewrite Hn. cbn [mbind option_bind].
    by rewrite <- Hr, Node_eta, Heta, Ht.
Qed.

Lemma erase_absent t s k :
  shape_of t s → find_t KeySize 0 k s = None →
  erase KeySize k t = Some (false, t).
Proof.
  intros (Hroot & R & Hnd) Hfind. unfold erase.
  rewrite Hroot, (erase_in_absent _ _ _ _ _ _ R (repr_fuel _ _ _ R Hnd) Hfind).
  simpl. by rewrite Z.ltb_irrefl.
Qed.

Lemma find_t_None_absent s DIM k :
  k ∉ (entries s).*1 → find_t KeySize DIM k s = None.
Proof.
  intros Hk. destruct (find_t KeySize DIM k s) as [a|] eqn:E; [|done].
  apply find_t_elem in E as (v & Hv). exfalso. apply Hk.
  apply list_elem_of_fmap. exists (k, v). split; [done|].
  unfold entries. apply list_elem_of_fmap. by exists (a, (k, v)).
Qed.

(** What the specification says of [erase(key)], on a tree that satisfies
    the invariant, holds no key twice and counts its nodes right: a present
    key is removed, that entry and no other, [true] is returned, the size
    goes down by one, and [find] of the key then returns [end()]; an absent
    key leaves the tree as it is and returns [false]. *)
Lemma erase_under_invariant t s k :
  shape_of t s → kd_invariant KeySize 0 s → NoDup (entries s).*1 →
  size t = Z.of_nat (length (ptrs s)) → size t < size_t_mod →
  (k ∈ (entries s).*1 →
     ∃ t' s', erase KeySize k t = Some (true, t')
              ∧ shape_of t' s'
              ∧ entries s' ≡ₚ filter (λ e, e.1 ≠ k) (entries s)
              ∧ size t' = size t - 1
              ∧ find KeySize t' k = Some (end_ t'))
  ∧ (k ∉ (entries s).*1 → erase KeySize k t = Some (false, t)).
Proof.
  intros Hs Hinv Hnd Hsz Hlt. split.
  - intros Hin.
    destruct (erase_spec t s k Hs Hsz Hlt) as (t' & Her & Hs' & Hsz').
    pose proof (erase_t_removes s 0%nat k Hinv Hnd) as Hperm.
    assert (Hlen : S (length (ptrs (erase_t KeySize 0 k s))) = length (ptrs s)).
    { rewrite !length_ptrs_entries, Hperm.
      apply list_elem_of_fmap in Hin as (e & -> & He).
      by rewrite <- (filter_one_key _ e Hnd He) at 2. }
    exists t', (erase_t KeySize 0 k s).
    rewrite bool_decide_eq_true_2 in Her by lia.
    split; [done|]. split; [done|]. split; [done|]. split; [lia|].
    destruct Hs' as (Hroot' & R' & Hnd').
    unfold find. rewrite Hroot'.
    erewrite find_in_spec; [|exact R'|by eapply repr_fuel].
    f_equal. apply find_t_None_absent.
    intros (e & -> & He)%list_elem_of_fmap.
    rewrite Hperm in He. by apply list_elem_of_filter in He as (Hne & _).
  - intros Hout. eapply erase_absent; [done|]. by apply find_t_None_absent.
Qed.

(** ** Upsert *)

(** C4. On every tree, [insert(key, v1)] followed by [insert(key, v2)] leaves
    [find(key)] at an entry that holds [v2]; the second [insert] keeps the
    size, the root and every link: it rewrites the value of that one node. *)
Theorem insert_twice_upsert t s k v1 v2 :
  shape_of t s →
  ∃ t1 t2 a n1,
    insert KeySize k v1 t = Some t1
    ∧ insert KeySize k v2 t1 = Some t2
    ∧ find KeySize t2 k = Some (Some a)
    ∧ deref t2 (Some a) = Some (k, v2)
    ∧ size t2 = size t1
    ∧ root t2 = root t1
    ∧ heap t1 !! a = Some n1
    ∧ heap t2 = <[a := mkNode (k, v2) (parent n1) (left n1) (right n1)]> (heap t1).
Proof.
  intros Hs.
  destruct (insert_spec t s k v1 Hs) as (t1 & Hins1 & Hs1).
  set (s1 := insert_t KeySize 0 k v1 (fresh (dom (heap t))) s) in *.
  destruct (find_insert_t 0%nat k v1 (fresh (dom (heap t))) s) as (a & Hfind & _).
  fold s1 in Hfind.
  destruct Hs1 as (Hroot1 & R1 & Hnd1).
  destruct (insert_in_present s1 None t1 (fuel_of (heap t1)) 0%nat k v2 a R1 Hnd1
              (repr_fuel _ _ _ R1 Hnd1) Hfind) as (n1 & Hn1 & Hk1 & Hins2).
  destruct (insert_spec t1 s1 k v2 (conj Hroot1 (conj R1 Hnd1)))
    as (t2 & Hins2' & Hroot2 & R2 & Hnd2).
  assert (Ht2 : t2 = mkKDTree
            (<[a := mkNode (k, v2) (parent n1) (left n1) (right n1)]> (heap t1))
            (root t1) (treeSize t1)).
  { unfold insert in Hins2'. rewrite Hroot1, Hins2 in Hins2'. simpl in Hins2'.
    rewrite Hroot1. congruence. }
  exists t1, t2, a, n1. split; [done|]. split; [done|].
  assert (Hf2 : find KeySize t2 k = Some (Some a)).
  { unfold find. rewrite Hroot2.
    erewrite find_in_spec; [|exact R2|by eapply repr_fuel].
    f_equal. by apply find_t_insert_present. }
  split; [done|]. rewrite Ht2. simpl. rewrite lookup_insert_eq. done.
Qed.

(** C5. On a non-empty tree whose shape is partitioned (the spec's invariant
    is one such), for a dimension [dim < KeySize]: [findMax(dim)] ends at a
    node of the tree whose [dim]-th key component is greater than or equal
    to that of every entry, [findMin(dim)] at one whose component is less
    than or equal to that of every entry; the compile-time variants return
    the same nodes. *)
Theorem findMax_findMin_extremum t s (dim : nat) :
  shape_of t s → partitioned KeySize 0 s → root t ≠ None → (dim < KeySize)%nat →
  (∃ a n, findMax KeySize dim t = Some (Some a)
          ∧ findMax_static KeySize dim t = Some (Some a)
          ∧ heap t !! a = Some n ∧ (a, data n) ∈ nodes s
          ∧ Forall (λ e, get dim e.1 ≤ get dim (key n)) (entries s))
  ∧ (∃ a n, findMin KeySize dim t = Some (Some a)
            ∧ findMin_static KeySize dim t = Some (Some a)
            ∧ heap t !! a = Some n ∧ (a, data n) ∈ nodes s
            ∧ Forall (λ e, get dim (key n) ≤ get dim e.1) (entries s)).
Proof. apply extremum_on_partitioned. Qed.

(** C9. On the empty tree, [findMin] and [findMax] return the end iterator
    for every dimension argument, with the dimension given at run time or
    at compile time. *)
Theorem findMin_findMax_empty t dim :
  (0 < KeySize)%nat → root t = None →
  findMin KeySize dim t = Some (end_ t)
  ∧ findMax KeySize dim t = Some (end_ t)
  ∧ findMin_static KeySize dim t = Some (end_ t)
  ∧ findMax_static KeySize dim t = Some (end_ t).
Proof.
  intros Hk Hroot. unfold findMin, findMax.
  rewrite findMinDynamic_any, findMaxDynamic_any by lia.
  unfold findMin_static, findMax_static, fuel_of. rewrite Hroot. done.
Qed.

(** C7. Forward iteration from [begin()] to [end()] meets the nodes of the
    tree in in-order, each node once, and dereferencing them gives the
    entries in in-order; [begin()] is the first node of that order, the
    left-most one; on the empty tree [begin()] is [end()]. *)
Theorem forward_iteration_inorder t s :
  shape_of t s →
  begin t = Some (head (ptrs s))
  ∧ forward t = Some (ptrs s)
  ∧ Forall2 (λ a e, deref t (Some a) = Some e) (ptrs s) (entries s)
  ∧ NoDup (ptrs s)
  ∧ (root t = None → begin t = Some (end_ t)).
Proof.
  intros Hs. pose proof (begin_spec _ _ Hs) as Hb.
  split; [done|]. split; [|split; [by apply deref_in_order|split]].
  - unfold forward. rewrite Hb. change (walk_forward (fuel_of (heap t)) t
      (head (ptrs s)) = Some (ptrs s)).
    apply (walk_forward_spec _ _ Hs (ptrs s) []); [done|].
    destruct Hs as (_ & R & Hnd). pose proof (repr_size _ _ _ R Hnd).
    unfold fuel_of. lia.
  - by destruct Hs as (_ & _ & Hnd).
  - intros Hroot. unfold begin. by rewrite Hroot.
Qed.

(** C8. With [n] the number of nodes: [n] steps forward from [begin()] end
    at [end()], [n] steps backward from [end()] end at [begin()], and the
    positions passed backward are those passed forward in reverse order. *)
Theorem traversal_round_trip t s :
  shape_of t s →
  let n := length (ptrs s) in
  ∃ b fw,
    begin t = Some b
    ∧ step (increment t) n b = Some (end_ t)
    ∧ step (decrement t) n (end_ t) = Some b
    ∧ trace (increment t) n b = Some fw
    ∧ trace (decrement t) n (end_ t) = Some (reverse fw)
    ∧ fw = (Some <$> ptrs s) ++ [None].
Proof.
  intros Hs n. subst n.
  pose proof (trace_forward_spec _ _ Hs (ptrs s) [] eq_refl) as Hfw.
  pose proof (trace_backward_spec _ _ Hs (ptrs s) [] (eq_sym (app_nil_r _))) as Hbw.
  simpl in Hbw.
  exists (head (ptrs s)), ((Some <$> ptrs s) ++ [None]).
  split; [by apply begin_spec|].
  split; [by rewrite (step_trace _ _ _ _ Hfw), last_snoc|].
  split.
  { unfold end_. rewrite (step_trace _ _ _ _ Hbw). rewrite last_cons.
    rewrite fmap_last, last_reverse. by destruct (head (ptrs s)). }
  split; [done|]. split; [|done].
  unfold end_. rewrite Hbw. by rewrite reverse_snoc, fmap_reverse.
Qed.

(** C10. On a non-empty tree, [--it] at [begin()] leaves the iterator at
    [begin()]. *)
Theorem decrement_begin t s :
  shape_of t s → root t ≠ None →
  ∃ a, begin t = Some (Some a) ∧ decrement t (Some a) = Some (Some a).
Proof.
  intros Hs Hne. pose proof (begin_spec _ _ Hs) as Hb.
  destruct (ptrs s) as [|a ys] eqn:E.
  - destruct Hs as (Hroot & _). destruct s as [|l a d r]; [by rewrite Hroot in Hne|].
    rewrite ptrs_Br in E. by destruct (ptrs l).
  - exists a. split; [done|].
    by rewrite (decrement_spec _ _ [] a ys Hs E).
Qed.

(** C6. Bulk construction from any vector of pairs ends with a tree that
    holds one entry for every distinct key of the vector, with the value of
    the last pair that has the key; [size()] is the number of distinct
    keys. *)
Theorem KDTree_of_keeps_last (v : list Data) :
  ∃ t s,
    KDTree_of KeySize nth_element v = Some t
    ∧ shape_of t s
    ∧ NoDup (entries s).*1
    ∧ (∀ k x, (k, x) ∈ entries s ↔ last_value k v = Some x)
    ∧ (∀ k, k ∈ (entries s).*1 ↔ k ∈ v.*1)
    ∧ size t = Z.of_nat (length (distinct_keys v))
    ∧ length (entries s) = length (distinct_keys v).
Proof.
  destruct (KDTree_helper_spec (S (length (dedup v))) 0 (dedup v) None ∅
              ltac:(lia)) as (s & h & Hb & R & Hnd & Hperm & _ & _).
  exists (mkKDTree h (root_of s) (Z.of_nat (length (dedup v)))), s.
  split; [unfold KDTree_of; by rewrite Hb|].
  split; [done|].
  split; [rewrite Hperm; apply dedup_NoDup|].
  split; [|split; [|split]].
  - intros k x. rewrite Hperm, dedup_elem. unfold last_value. simpl.
    split; [by intros ->|].
    destruct (last (filter (λ e : Data, e.1 = k) v)) as [[k' x']|] eqn:E;
      [|done]. simpl. intros [= ->].
    apply last_Some_elem_of, list_elem_of_filter in E as (Hk & _).
    simpl in Hk. by subst.
  - intros k. rewrite Hperm. apply dedup_keys.
  - unfold size. simpl. by rewrite dedup_length.
  - by rewrite Hperm, dedup_length.
Qed.
(** * Further properties of the code *)

(** ** One step forward and one step back *)

(** X1. From an iterator at a node of the tree, [++] followed by [--] comes
    back to the node; at the last node [++] gives [end()], and [--] at
    [end()] gives the last node again. *)
Theorem decrement_undoes_increment t s a :
  shape_of t s → a ∈ ptrs s →
  ∃ it, increment t (Some a) = Some it
        ∧ decrement t it = Some (Some a)
        ∧ (it = end_ t ↔ last (ptrs s) = Some a).
Proof.
  intros Hs Hin. apply list_elem_of_split in Hin as (xs & ys & E).
  exists (head ys). split; [by eapply increment_spec|].
  assert (Hnd : NoDup (ptrs s)) by (by destruct Hs as (_ & _ & ?)).
  destruct ys as [|b ys]; simpl.
  - split; [|by rewrite E, last_snoc].
    rewrite (decrement_end_spec _ _ Hs), E. by rewrite last_snoc.
  - split.
    + rewrite (decrement_spec t s (xs ++ [a]) b ys Hs)
        by (by rewrite <- app_assoc).
      by rewrite last_snoc.
    + unfold end_. split; [done|]. rewrite E.
      change (a :: b :: ys) with ([a] ++ (b :: ys)).
      rewrite app_assoc, last_app. simpl. intros Hl.
      rewrite E in Hnd. apply NoDup_app in Hnd as (_ & _ & Hnd).
      apply NoDup_cons in Hnd as (Ha & _).
      destruct (last (b :: ys)) as [z|] eqn:Ez.
      * apply last_Some_elem_of in Ez. by simplify_eq.
      * by apply last_None in Ez.
Qed.

(** X2. From every iterator other than [begin()], the end iterator
    included, [--] followed by [++] comes back to where it started. *)
Theorem increment_undoes_decrement t s it :
  shape_of t s → (∀ a, it = Some a → a ∈ ptrs s) → begin t ≠ Some it →
  ∃ b, decrement t it = Some (Some b) ∧ increment t (Some b) = Some it.
Proof.
  intros Hs Hin Hb. rewrite (begin_spec _ _ Hs) in Hb.
  destruct it as [a|].
  - destruct (list_elem_of_split _ _ (Hin a eq_refl)) as (xs & ys & E).
    destruct (last xs) as [b|] eqn:El.
    + exists b. rewrite (decrement_spec t s xs a ys Hs E), El. split; [done|].
      apply last_Some in El as (xs' & ->).
      rewrite (increment_spec t s xs' b (a :: ys) Hs); [done|].
      by rewrite E, <- app_assoc.
    + apply last_None in El as ->. by rewrite E in Hb.
  - destruct (last (ptrs s)) as [b|] eqn:El.
    + exists b. rewrite (decrement_end_spec _ _ Hs), El. split; [done|].
      apply last_Some in El as (xs' & E).
      by rewrite (increment_spec t s xs' b [] Hs E).
    + apply last_None in El. by rewrite El in Hb.
Qed.

(** ** Lookup and insertion *)

Lemma find_t_insert_other s :
  ∀ DIM k k' v new_a, k' ≠ k →
    find_t KeySize DIM k' (insert_t KeySize DIM k v new_a s)
    = find_t KeySize DIM k' s.
Proof.
  induction s as [|l IHl a d r IHr]; intros DIM k k' v new_a Hne.
  - simpl. unfold tuple_eq. rewrite bool_decide_eq_false_2 by congruence.
    by destruct (strictLessKey DIM Less k' k).
  - simpl. unfold tuple_eq at 1.
    destruct (bool_decide (d.1 = k)) eqn:Ek.
    + apply bool_decide_eq_true in Ek. simpl.
      by destruct (tuple_eq d.1 k'), (strictLessKey DIM Less k' d.1).
    + destruct (strictLessKey DIM Less k d.1); simpl;
        destruct (tuple_eq d.1 k'); try done;
        destruct (strictLessKey DIM Less k' d.1); auto.
Qed.

Lemma find_t_insert_new s :
  ∀ DIM k v new_a, find_t KeySize DIM k s = None →
    find_t KeySize DIM k (insert_t KeySize DIM k v new_a s) = Some new_a.
Proof.
  induction s as [|l IHl a d r IHr]; intros DIM k v new_a Hf.
  - simpl. unfold tuple_eq. by rewrite bool_decide_eq_true_2.
  - simpl in *. destruct (tuple_eq d.1 k) eqn:Ek; [done|].
    destruct (strictLessKey DIM Less k d.1) eqn:El; simpl; rewrite Ek, El; auto.
Qed.

(** What an insertion does to the in-order sequence of nodes: the node that
    [find] reaches gets the value, or one node more stands at one place. *)
Lemma nodes_insert_t s :
  ∀ DIM k v new_a,
    match find_t KeySize DIM k s with
    | Some a =>
        ∃ xs ys v0,
          nodes s = xs ++ (a, (k, v0)) :: ys
          ∧ nodes (insert_t KeySize DIM k v new_a s) = xs ++ (a, (k, v)) :: ys
    | None =>
        ∃ xs ys,
          nodes s = xs ++ ys
          ∧ nodes (insert_t KeySize DIM k v new_a s)
            = xs ++ (new_a, (k, v)) :: ys
    end.
Proof.
  induction s as [|l IHl a d r IHr]; intros DIM k v new_a.
  - simpl. by exists [], [].
  - simpl. unfold tuple_eq. destruct (bool_decide (d.1 = k)) eqn:Ek.
    + apply bool_decide_eq_true in Ek. destruct d as [k0 v0]. simpl in *. subst k0.
      by exists (nodes l), (nodes r), v0.
    + destruct (strictLessKey DIM Less k d.1).
      * specialize (IHl (DIM_NEXT KeySize DIM) k v new_a).
        destruct (find_t KeySize (DIM_NEXT KeySize DIM) k l).
        -- destruct IHl as (xs & ys & v0 & E1 & E2).
           exists xs, (ys ++ (a, d) :: nodes r), v0. simpl.
           rewrite E1, E2. by rewrite <- !app_assoc.
        -- destruct IHl as (xs & ys & E1 & E2).
           exists xs, (ys ++ (a, d) :: nodes r). simpl.
           rewrite E1, E2. by rewrite <- !app_assoc.
      * specialize (IHr (DIM_NEXT KeySize DIM) k v new_a).
        destruct (find_t KeySize (DIM_NEXT KeySize DIM) k r).
        -- destruct IHr as (xs & ys & v0 & E1 & E2).
           exists (nodes l ++ (a, d) :: xs), ys, v0. simpl.
           rewrite E1, E2. by rewrite <- !app_assoc.
        -- destruct IHr as (xs & ys & E1 & E2).
           exists (nodes l ++ (a, d) :: xs), ys. simpl.
           rewrite E1, E2. by rewrite <- !app_assoc.
Qed.

Lemma ptrs_insert_t_sub s DIM k v new_a x :
  x ∈ ptrs s → x ∈ ptrs (insert_t KeySize DIM k v new_a s).
Proof.
  unfold ptrs. pose proof (nodes_insert_t s DIM k v new_a) as Hn.
  destruct (find_t KeySize DIM k s).
  - destruct Hn as (xs & ys & v0 & -> & ->). by rewrite !fmap_app, !fmap_cons.
  - destruct Hn as (xs & ys & -> & ->). rewrite !fmap_app, !fmap_cons.
    rewrite !elem_of_app, elem_of_cons. tauto.
Qed.

Lemma find_spec t s k :
  shape_of t s → find KeySize t k = Some (find_t KeySize 0 k s).
Proof.
  intros (Hroot & R & Hnd). unfold find. rewrite Hroot.
  apply (find_in_spec _ _ _ _ R). by eapply repr_fuel.
Qed.

Lemma deref_node t s a d :
  shape_of t s → (a, d) ∈ nodes s → deref t (Some a) = Some d.
Proof.
  intros (_ & R & _) Hin.
  destruct (repr_lookup _ _ _ _ _ R Hin) as (n & Hn & Hd).
  unfold deref. simpl. rewrite Hn. simpl. by rewrite Hd.
Qed.

(** X3. [insert(k, v)] does not move the answer of [find] for any other key:
    the iterator that [find(k')] returns is the same before and after, and
    it leads to the same entry. *)
Theorem insert_leaves_other_keys t s k v k' :
  shape_of t s → k' ≠ k →
  ∃ t' it,
    insert KeySize k v t = Some t'
    ∧ find KeySize t k' = Some it
    ∧ find KeySize t' k' = Some it
    ∧ deref t' it = deref t it.
Proof.
  intros Hs Hne. destruct (insert_spec t s k v Hs) as (t' & Hins & Hs').
  set (new_a := fresh (dom (heap t))) in *.
  exists t', (find_t KeySize 0 k' s). split; [done|].
  split; [by apply find_spec|].
  split; [by rewrite (find_spec _ _ _ Hs'), find_t_insert_other|].
  destruct (find_t KeySize 0 k' s) as [a|] eqn:Ef; [|done].
  destruct (find_t_elem _ _ _ _ Ef) as (v' & Hin).
  rewrite (deref_node _ _ _ _ Hs Hin). apply (deref_node _ _ _ _ Hs').
  pose proof (nodes_insert_t s 0%nat k v new_a) as Hn.
  destruct (find_t KeySize 0 k s) as [b|].
  - destruct Hn as (xs & ys & v0 & E1 & E2). rewrite E2. rewrite E1 in Hin.
    apply elem_of_app in Hin as [Hin|Hin]; [apply elem_of_app; by left|].
    apply elem_of_cons in Hin as [Hin|Hin]; [by simplify_eq|].
    apply elem_of_app. right. by right.
  - destruct Hn as (xs & ys & E1 & E2). rewrite E2. rewrite E1 in Hin.
    apply elem_of_app in Hin as [Hin|Hin]; apply elem_of_app; [by left|].
    right. by right.
Qed.

(** X4. [insert(k, v)] of a key that [find] does not reach allocates one
    node: it stands at one place of the in-order sequence, every other node
    keeps its address and its entry, the size grows by one (modulo 2^64),
    and [find(k)] then leads to the new entry. *)
Theorem insert_new_key t s k v :
  shape_of t s → find KeySize t k = Some (end_ t) →
  let new_a := fresh (dom (heap t)) in
  ∃ t' s' xs ys,
    insert KeySize k v t = Some t'
    ∧ shape_of t' s'
    ∧ nodes s = xs ++ ys
    ∧ nodes s' = xs ++ (new_a, (k, v)) :: ys
    ∧ (new_a ∉ ptrs s)
    ∧ size t' = wrap (size t + 1)
    ∧ find KeySize t' k = Some (Some new_a)
    ∧ deref t' (Some new_a) = Some (k, v).
Proof.
  intros Hs Hf new_a. rewrite (find_spec _ _ _ Hs) in Hf.
  injection Hf as Hf. unfold end_ in Hf.
  pose proof (shape_fresh _ _ Hs) as Hfr. fold new_a in Hfr.
  pose proof Hs as (Hroot & R & Hnd).
  destruct (insert_in_spec s None t (fuel_of (heap t)) 0%nat k v R Hnd
              (repr_fuel _ _ _ R Hnd)) as (b & t1 & Hcall & R1 & _ & Hr1 & Hsz1).
  pose proof (insert_in_flag _ _ _ _ _ _ _ _ _ _ R (repr_fuel _ _ _ R Hnd) Hcall)
    as Hb.
  rewrite Hf in Hb. subst b. fold new_a in Hcall, R1.
  pose proof (nodes_insert_t s 0%nat k v new_a) as Hn. rewrite Hf in Hn.
  destruct Hn as (xs & ys & E1 & E2).
  set (s' := insert_t KeySize 0 k v new_a s) in *.
  assert (Hs' : shape_of (mkKDTree (heap t1) (root_of s') (treeSize t1)) s').
  { split; [done|]. split; [done|]. by apply NoDup_insert_t. }
  eexists _, s', xs, ys.
  split; [unfold insert; rewrite Hroot, Hcall; reflexivity|].
  split; [done|]. split; [done|]. split; [done|]. split; [done|].
  split; [done|].
  assert (Hin : (new_a, (k, v)) ∈ nodes s').
  { rewrite E2. apply elem_of_app. right. left. }
  split; [|by apply (deref_node _ _ _ _ Hs')].
  rewrite (find_spec _ _ _ Hs'). f_equal. by apply find_t_insert_new.
Qed.

Lemma keys_insert_t s DIM k v new_a :
  kd_invariant KeySize DIM s →
  (entries (insert_t KeySize DIM k v new_a s)).*1 ≡ₚ
    (if bool_decide (k ∈ (entries s).*1) then (entries s).*1
     else k :: (entries s).*1)
  ∧ (k, v) ∈ entries (insert_t KeySize DIM k v new_a s).
Proof.
  intros Hinv. pose proof (nodes_insert_t s DIM k v new_a) as Hn.
  unfold entries. destruct (find_t KeySize DIM k s) as [a|] eqn:Ef.
  - destruct Hn as (xs & ys & v0 & E1 & E2). rewrite E1, E2.
    rewrite !fmap_app, !fmap_cons. simpl. split.
    + rewrite bool_decide_eq_true_2; [done|].
      apply elem_of_app. right. left.
    + apply elem_of_app. right. left.
  - destruct Hn as (xs & ys & E1 & E2). rewrite E1, E2.
    rewrite !fmap_app, !fmap_cons. simpl. split.
    + rewrite bool_decide_eq_false_2.
      * by rewrite Permutation_middle.
      * intros Hin. destruct (find_t_complete s DIM k Hinv) as [? Hsome].
        { unfold entries. by rewrite E1, !fmap_app. }
        congruence.
    + apply elem_of_app. right. left.
Qed.

(** X5. On a tree that satisfies the invariant and holds no key twice,
    [insert(k, v)] keeps both: the tree after it satisfies the invariant,
    holds no key twice, holds [(k, v)], and its keys are the keys before
    and [k]. *)
Theorem insert_keeps_kd_invariant t s k v :
  shape_of t s → kd_invariant KeySize 0 s → NoDup (entries s).*1 →
  ∃ t' s',
    insert KeySize k v t = Some t'
    ∧ shape_of t' s'
    ∧ kd_invariant KeySize 0 s'
    ∧ NoDup (entries s').*1
    ∧ (k, v) ∈ entries s'
    ∧ (∀ k', k' ∈ (entries s').*1 ↔ k' = k ∨ k' ∈ (entries s).*1).
Proof.
  intros Hs Hinv Hnd. destruct (insert_spec t s k v Hs) as (t' & Hins & Hs').
  set (new_a := fresh (dom (heap t))) in *.
  destruct (keys_insert_t s 0%nat k v new_a Hinv) as (Hk & Hin).
  exists t', (insert_t KeySize 0 k v new_a s).
  split; [done|]. split; [done|]. split; [by apply kd_invariant_insert_t|].
  case_bool_decide as Hmem.
  - split; [by rewrite Hk|]. split; [done|]. intros k'. rewrite Hk.
    split; [auto|]. by intros [->|?].
  - split; [rewrite Hk; by apply NoDup_cons|]. split; [done|].
    intros k'. rewrite Hk. apply elem_of_cons.
Qed.

(** X6. [find(k)] never leads to an entry with another key: on every
    well-linked tree, an iterator it returns other than [end()] is at a
    node of the tree whose entry has the key [k].  On a tree that satisfies
    the invariant, it returns [end()] exactly when no entry has the key
    [k]. *)
Theorem find_reaches_every_key t s k :
  shape_of t s →
  ∃ it,
    find KeySize t k = Some it
    ∧ (∀ a, it = Some a →
            ∃ v, deref t it = Some (k, v) ∧ (a, (k, v)) ∈ nodes s)
    ∧ (kd_invariant KeySize 0 s → (it = end_ t ↔ k ∉ (entries s).*1)).
Proof.
  intros Hs. exists (find_t KeySize 0 k s).
  split; [by apply find_spec|]. unfold end_. split.
  - intros a Ha. destruct (find_t_elem _ _ _ _ Ha) as (v & Hin).
    exists v. split; [|done]. rewrite Ha. by apply (deref_node _ s).
  - intros Hinv. split.
    + intros Hf Hin. destruct (find_t_complete s 0%nat k Hinv Hin). congruence.
    + apply find_t_None_absent.
Qed.

(** X23. [insert] leaves every iterator usable: a node of the tree is a
    node of the tree after [insert(k, v)], at the same address, and holds
    the entry it held, unless it is the node that [find(k)] reaches, which
    then holds [(k, v)]. *)
Theorem insert_keeps_iterators_valid t s k v a d :
  shape_of t s → (a, d) ∈ nodes s →
  ∃ t' s',
    insert KeySize k v t = Some t'
    ∧ shape_of t' s'
    ∧ a ∈ ptrs s'
    ∧ deref t (Some a) = Some d
    ∧ deref t' (Some a)
      = Some (if bool_decide (find KeySize t k = Some (Some a))
              then (k, v) else d).
Proof.
  intros Hs Hin. destruct (insert_spec t s k v Hs) as (t' & Hins & Hs').
  set (new_a := fresh (dom (heap t))) in *.
  exists t', (insert_t KeySize 0 k v new_a s).
  split; [done|]. split; [done|].
  assert (Hp : a ∈ ptrs s).
  { unfold ptrs. apply list_elem_of_fmap. by exists (a, d). }
  split; [by apply ptrs_insert_t_sub|].
  pose proof (deref_node _ _ _ _ Hs Hin) as Hd. split; [done|].
  rewrite (find_spec _ _ _ Hs).
  pose proof (nodes_insert_t s 0%nat k v new_a) as Hn.
  destruct (find_t KeySize 0 k s) as [b|] eqn:Ef.
  - destruct Hn as (xs & ys & v0 & E1 & E2).
    assert (Hb : deref t (Some b) = Some (k, v0)).
    { apply (deref_node _ s); [done|]. rewrite E1. apply elem_of_app. right. left. }
    case_bool_decide as Hab.
    + injection Hab as ->. apply (deref_node _ _ _ _ Hs'). rewrite E2.
      apply elem_of_app. right. left.
    + apply (deref_node _ _ _ _ Hs'). rewrite E2. rewrite E1 in Hin.
      apply elem_of_app in Hin as [Hin|[Hin|Hin]%elem_of_cons];
        [apply elem_of_app; by left| |apply elem_of_app; right; by right].
      injection Hin as -> ->. by destruct Hab.
  - rewrite bool_decide_eq_false_2 by done.
    destruct Hn as (xs & ys & E1 & E2).
    apply (deref_node _ _ _ _ Hs'). rewrite E2. rewrite E1 in Hin.
    apply elem_of_app in Hin as [Hin|Hin]; apply elem_of_app; [by left|].
    right. by right.
Qed.

(** X22. The protected [insert<0>(key, value, root, nullptr)] returns
    [true] exactly when [find] does not reach the key: it then counts one
    node more and stores one node more; otherwise it returns [false],
    keeps the count and stores no node. *)
Theorem insert_in_reports_allocation t s k v :
  shape_of t s →
  ∃ b p t',
    insert_in KeySize (fuel_of (heap t)) 0 k v (root t) None t = Some (b, p, t')
    ∧ (b = true ↔ find KeySize t k = Some (end_ t))
    ∧ treeSize t' = (if b then wrap (treeSize t + 1) else treeSize t)
    ∧ base.size (heap t')
      = (if b then S (base.size (heap t)) else base.size (heap t)).
Proof.
  intros Hs. pose proof Hs as (Hroot & R & Hnd).
  pose proof (repr_fuel _ _ _ R Hnd) as Hfuel.
  destruct (insert_in_spec s None t (fuel_of (heap t)) 0%nat k v R Hnd Hfuel)
    as (b & t1 & Hcall & R1 & Hfr & _ & Hts).
  pose proof (insert_in_flag _ _ _ _ _ _ _ _ _ _ R Hfuel Hcall) as Hb.
  rewrite Hroot, Hcall. eexists _, _, _. split; [reflexivity|].
  rewrite (find_spec _ _ _ Hs). unfold end_.
  destruct (find_t KeySize 0 k s) as [a|] eqn:Ef; subst b.
  - split; [done|]. split; [done|].
    destruct (insert_in_present s None t (fuel_of (heap t)) 0%nat k v a R Hnd
                Hfuel Ef) as (n & Hn & _ & Hcall').
    rewrite Hcall' in Hcall. injection Hcall as _ <-. simpl.
    rewrite <- !size_dom. by rewrite dom_insert_lookup_L.
  - split; [done|]. split; [done|].
    set (new_a := fresh (dom (heap t))) in *.
    assert (Hnew : new_a ∈ ptrs (insert_t KeySize 0 k v new_a s)).
    { pose proof (nodes_insert_t s 0%nat k v new_a) as Hn. rewrite Ef in Hn.
      destruct Hn as (xs & ys & _ & E2). unfold ptrs. rewrite E2.
      rewrite fmap_app, fmap_cons. apply elem_of_app. right. left. }
    assert (Hd : dom (heap t1) = {[new_a]} ∪ dom (heap t)).
    { apply set_eq. intros x. rewrite elem_of_union, elem_of_singleton.
      destruct (decide (x = new_a)) as [->|Hne].
      { split; [by left|]. intros _. by eapply repr_ptrs_dom. }
      destruct (decide (x ∈ ptrs s)) as [Hx|Hx].
      - split; intros _; [right|]; eapply repr_ptrs_dom; eauto.
        by apply ptrs_insert_t_sub.
      - rewrite !elem_of_dom, (Hfr x Hx Hne). split; [by right|].
        by intros [?|?]. }
    rewrite <- !size_dom, Hd, size_union, size_singleton; [done|].
    apply disjoint_singleton_l, is_fresh.
Qed.
(** ** Erasing by key *)

(** X7. [erase(k)] for a key that [find] does not reach returns [false] and
    leaves the tree as it is: the store, the root and the size. *)
Theorem erase_unreachable_key t s k :
  shape_of t s → find KeySize t k = Some (end_ t) →
  erase KeySize k t = Some (false, t).
Proof.
  intros Hs Hf. rewrite (find_spec _ _ _ Hs) in Hf. injection Hf as Hf.
  by apply (erase_absent t s).
Qed.

(** X8. On a tree that satisfies the invariant, holds no key twice and
    counts its nodes right, [erase(k)] of a key of the tree returns [true];
    the entry with key [k] is gone, every other entry is still there, the
    size is one less, and [find(k)] gives [end()]. *)
Theorem erase_removes_present_key t s k :
  shape_of t s → kd_invariant KeySize 0 s → NoDup (entries s).*1 →
  size t = Z.of_nat (length (ptrs s)) → size t < size_t_mod →
  k ∈ (entries s).*1 →
  ∃ t' s',
    erase KeySize k t = Some (true, t')
    ∧ shape_of t' s'
    ∧ entries s' ≡ₚ filter (λ e, e.1 ≠ k) (entries s)
    ∧ size t' = size t - 1
    ∧ find KeySize t' k = Some (end_ t').
Proof.
  intros Hs Hinv Hnd Hsz Hlt Hin.
  by apply (erase_under_invariant t s k Hs Hinv Hnd Hsz Hlt).
Qed.

(** X9. [erase(k)] on a tree that counts its nodes right, whatever [k]:
    the tree after it is well linked and counts its nodes right; no node
    is allocated and no entry appears that was not there; at most one node
    goes, and the result tells whether one did; a partitioned tree stays
    partitioned. *)
Theorem erase_keeps_good_order t s k :
  shape_of t s → size t = Z.of_nat (length (ptrs s)) → size t < size_t_mod →
  ∃ b t' s',
    erase KeySize k t = Some (b, t')
    ∧ shape_of t' s'
    ∧ size t' = Z.of_nat (length (ptrs s'))
    ∧ ptrs s' `sublist_of` ptrs s
    ∧ (∀ e, e ∈ entries s' → e ∈ entries s)
    ∧ size t' = (if b then size t - 1 else size t)
    ∧ (partitioned KeySize 0 s → partitioned KeySize 0 s').
Proof.
  intros Hs Hsz Hlt.
  destruct (erase_spec t s k Hs Hsz Hlt) as (t' & Her & Hs' & Hsz').
  pose proof Hs as (Hroot & R & Hnd).
  destruct (erase_in_spec s None t (fuel_of (heap t)) 0%nat k R Hnd
              (repr_fuel _ _ _ R Hnd)) as (t1 & _ & _ & _ & Eff).
  set (s' := erase_t KeySize 0 k s) in *.
  eexists _, t', s'. split; [exact Her|]. split; [done|]. split; [done|].
  split; [apply ptrs_erase_t|]. split; [apply entries_erase_t|].
  split; [|by apply partitioned_erase_t].
  rewrite Hsz', Hsz.
  destruct Eff as [(Hlen & _)|(Hlen & _)].
  - rewrite bool_decide_eq_false_2 by lia. lia.
  - rewrite bool_decide_eq_true_2 by lia. lia.
Qed.

(** ** The nodes a tree owns *)

Lemma repr_unique h s :
  ∀ s' par par', repr h par s → repr h par' s' → root_of s = root_of s' → s = s'.
Proof.
  induction s as [|l IHl a d r IHr]; intros s' par par' R R' E.
  - destruct s'; [done|discriminate].
  - destruct s' as [|l' a' d' r']; [discriminate|]. simpl in E.
    injection E as <-. simpl in R, R'.
    destruct R as (n & Hn & Hd & _ & Hl & Hr & Rl & Rr).
    destruct R' as (n' & Hn' & Hd' & _ & Hl' & Hr' & Rl' & Rr').
    assert (n' = n) as -> by congruence.
    f_equal; [eapply IHl; eauto; congruence|congruence|
              eapply IHr; eauto; congruence].
Qed.

Lemma shape_unique t s s' : shape_of t s → shape_of t s' → s = s'.
Proof.
  intros (Hroot & R & _) (Hroot' & R' & _).
  eapply repr_unique; eauto. congruence.
Qed.

Lemma set_data_dom a d h h' : set_data a d h = Some h' → dom h' = dom h.
Proof.
  unfold set_data. intros H. bind_inv H. injection H as <-.
  by apply dom_insert_lookup_L.
Qed.

Lemma set_left_dom a p h h' : set_left a p h = Some h' → dom h' = dom h.
Proof.
  unfold set_left. intros H. bind_inv H. injection H as <-.
  by apply dom_insert_lookup_L.
Qed.

Lemma set_right_dom a p h h' : set_right a p h = Some h' → dom h' = dom h.
Proof.
  unfold set_right. intros H. bind_inv H. injection H as <-.
  by apply dom_insert_lookup_L.
Qed.

(** One call of [erase<DIM>] releases no node, or one node, and then it
    counts one node less. *)
Lemma erase_in_store fuel :
  ∀ DIM node k t p t',
    erase_in KeySize fuel DIM node k t = Some (p, t') →
    (dom (heap t') = dom (heap t) ∧ treeSize t' = treeSize t)
    ∨ (∃ a, a ∈ dom (heap t) ∧ dom (heap t') = dom (heap t) ∖ {[a]}
            ∧ treeSize t' = wrap (treeSize t - 1)).
Proof.
  induction fuel as [|fuel IH]; intros DIM node k t p t' H; [done|].
  cbn [erase_in] in H. destruct node as [a|]; [|left; by simplify_eq].
  bind_inv H. rename E into En.
  assert (Hrec : ∀ DIM' node' k' h1 q t2 h3,
            dom h1 = dom (heap t) →
            erase_in KeySize fuel DIM' node' k' (with_heap t h1) = Some (q, t2) →
            dom h3 = dom (heap t2) →
            (dom h3 = dom (heap t) ∧ treeSize t2 = treeSize t)
            ∨ (∃ a, a ∈ dom (heap t) ∧ dom h3 = dom (heap t) ∖ {[a]}
                    ∧ treeSize t2 = wrap (treeSize t - 1))).
  { intros DIM' node' k' h1 q t2 h3 Hd1 Hcall Hd3.
    apply IH in Hcall. simpl in Hcall. rewrite Hd3. by rewrite Hd1 in Hcall. }
  assert (Hid : with_heap t (heap t) = t) by (by destruct t).
  destruct (tuple_eq k (key n)).
  - destruct (left n) as [lp|], (right n) as [rp|].
    + do 4 bind_inv H. apply set_data_dom in E2.
      bind_inv H as [q t2]. bind_inv H. injection H as <- <-.
      apply set_right_dom in E4. simpl. eapply Hrec; eauto.
    + do 4 bind_inv H. apply set_data_dom in E2.
      bind_inv H as [q t2]. bind_inv H. injection H as <- <-.
      apply set_left_dom in E4. simpl. eapply Hrec; eauto.
    + do 4 bind_inv H. apply set_data_dom in E2.
      bind_inv H as [q t2]. bind_inv H. injection H as <- <-.
      apply set_right_dom in E4. simpl. eapply Hrec; eauto.
    + injection H as <- <-. right. exists a. simpl.
      split; [by apply elem_of_dom_2 in En|]. split; [apply dom_delete_L|done].
  - destruct (strictLessKey DIM Less k (key n)).
    + bind_inv H as [q t2]. bind_inv H. injection H as <- <-.
      apply set_left_dom in E0. simpl. rewrite <- Hid in E.
      eapply Hrec; eauto.
    + bind_inv H as [q t2]. bind_inv H. injection H as <- <-.
      apply set_right_dom in E0. simpl. rewrite <- Hid in E.
      eapply Hrec; eauto.
Qed.

Lemma owns_dom t s : owns t s → dom (heap t) = list_to_set (ptrs s).
Proof.
  intros ((_ & R & _) & Hsub). apply set_eq. intros x.
  rewrite elem_of_list_to_set. split; [apply Hsub|by eapply repr_ptrs_dom].
Qed.

Lemma owns_by_count t s :
  shape_of t s → (base.size (dom (heap t)) ≤ length (ptrs s))%nat → owns t s.
Proof.
  intros Hs Hle. split; [done|]. destruct Hs as (_ & R & Hnd).
  assert (Hsub : list_to_set (ptrs s) ⊆ dom (heap t)).
  { intros x Hx. apply elem_of_list_to_set in Hx. by eapply repr_ptrs_dom. }
  apply set_subseteq_size_eq in Hsub.
  - intros x Hx. rewrite <- Hsub in Hx. by apply elem_of_list_to_set in Hx.
  - by rewrite size_list_to_set.
Qed.

Lemma owns_count t s : owns t s → base.size (dom (heap t)) = length (ptrs s).
Proof.
  intros Ho. rewrite (owns_dom _ _ Ho). apply size_list_to_set.
  by destruct Ho as ((_ & _ & ?) & _).
Qed.

Lemma owns_erase t s k b t' :
  owns t s → size t = Z.of_nat (length (ptrs s)) → size t < size_t_mod →
  erase KeySize k t = Some (b, t') → owns t' (erase_t KeySize 0 k s).
Proof.
  intros Ho Hsz Hlt Her. pose proof Ho as (Hs & _).
  destruct (erase_spec t s k Hs Hsz Hlt) as (t1 & Her' & Hs' & Hsz').
  rewrite Her' in Her. injection Her as _ ->.
  apply owns_by_count; [done|].
  unfold erase in Her'. bind_inv Her' as [q t2]. injection Her' as _ ->.
  pose proof (owns_count _ _ Ho) as Hc. unfold size in *.
  apply erase_in_store in E as [(Hd & Hts)|(a & Ha & Hd & Hts)].
  - rewrite Hd. lia.
  - assert (0 < length (ptrs s))%nat.
    { rewrite (owns_dom _ _ Ho), elem_of_list_to_set in Ha.
      destruct (ptrs s); [by apply elem_of_nil in Ha|simpl; lia]. }
    rewrite Hd, size_difference, size_singleton
      by (by apply singleton_subseteq_l).
    rewrite wrap_small in Hts by lia. lia.
Qed.

Lemma owns_insert t s k v t' :
  owns t s → insert KeySize k v t = Some t' →
  owns t' (insert_t KeySize 0 k v (fresh (dom (heap t))) s).
Proof.
  intros (Hs & Hsub) Hins.
  destruct (insert_spec t s k v Hs) as (t1 & Hins' & Hs').
  rewrite Hins' in Hins. injection Hins as ->. split; [done|].
  set (new_a := fresh (dom (heap t))) in *.
  pose proof Hs as (Hroot & R & Hnd).
  destruct (insert_in_spec s None t (fuel_of (heap t)) 0%nat k v R Hnd
              (repr_fuel _ _ _ R Hnd)) as (b & t1 & Hcall & _ & Hfr & _).
  fold new_a in Hcall, Hfr.
  assert (Hh : heap t' = heap t1).
  { unfold insert in Hins'. rewrite Hroot, Hcall in Hins'. simpl in Hins'.
    by injection Hins' as <-. }
  rewrite Hh. intros x Hx.
  destruct (decide (x ∈ ptrs s)) as [Hin|Hnin]; [by apply ptrs_insert_t_sub|].
  destruct (decide (x = new_a)) as [->|Hne].
  - pose proof (nodes_insert_t s 0%nat k v new_a) as Hn.
    destruct (find_t KeySize 0 k s) as [a|] eqn:Ef.
    + destruct (insert_in_present s None t (fuel_of (heap t)) 0%nat k v a R Hnd
                  (repr_fuel _ _ _ R Hnd) Ef) as (n & Hn' & _ & Hcall').
      rewrite Hcall' in Hcall. injection Hcall as _ _ <-. simpl in Hx.
      rewrite dom_insert_lookup_L in Hx by done.
      by apply is_fresh in Hx.
    + destruct Hn as (xs & ys & _ & E2). unfold ptrs. rewrite E2.
      rewrite fmap_app, fmap_cons. apply elem_of_app. right. left.
  - apply elem_of_dom in Hx. rewrite (Hfr x Hnin Hne) in Hx.
    apply elem_of_dom in Hx. by apply Hsub in Hx.
Qed.

Lemma owns_copy t s t' :
  shape_of t s → KDTree_copy t = Some t' →
  ∃ s', owns t' s' ∧ same_data s s' ∧ size t' = size t.
Proof.
  intros (Hroot & R & Hnd) Hc. unfold KDTree_copy in Hc.
  destruct (copyAll_spec (heap t) s None (fuel_of (heap t)) None ∅ R
              (repr_fuel _ _ _ R Hnd))
    as (s' & h' & Hcall & R' & Hnd' & Hsame & _ & Hfr).
  rewrite Hroot, Hcall in Hc. simpl in Hc. injection Hc as <-.
  exists s'. split; [|done]. split; [done|]. simpl. intros x Hx.
  destruct (decide (x ∈ ptrs s')) as [|Hnin]; [done|].
  apply elem_of_dom in Hx. rewrite (Hfr x Hnin), lookup_empty in Hx.
  by destruct Hx.
Qed.

Lemma owns_KDTree_of (v : list Data) t :
  KDTree_of KeySize nth_element v = Some t → ∃ s, owns t s.
Proof.
  intros Hof. unfold KDTree_of in Hof.
  destruct (KDTree_helper_spec (S (length (dedup v))) 0 (dedup v) None ∅
              ltac:(lia)) as (s & h & Hb & R & Hnd & _ & _ & Hfr & _).
  rewrite Hb in Hof. simpl in Hof. injection Hof as <-.
  exists s. split; [done|]. simpl. intros x Hx.
  destruct (decide (x ∈ ptrs s)) as [|Hnin]; [done|].
  apply elem_of_dom in Hx. rewrite (Hfr x Hnin), lookup_empty in Hx.
  by destruct Hx.
Qed.

Lemma built_owns t :
  built KeySize nth_element t →
  ∃ s, owns t s ∧ partitioned KeySize 0 s
       ∧ size t = Z.of_nat (length (ptrs s)) ∧ size t < size_t_mod.
Proof.
  intros Hb. pose proof (built_valid _ Hb) as (s & Hs & Hp & Hsz & Hlt).
  exists s. split; [|done]. clear Hp Hsz Hlt. revert s Hs.
  induction Hb as [|v t Hlen Hof|t t' Hb IH Hc|k v t t' Hb IH Hroom Hins
                  |k t b t' Hb IH Her]; intros s' Hs'.
  - split; [done|]. simpl. by intros x ?%elem_of_empty.
  - destruct (owns_KDTree_of _ _ Hof) as (s & Ho).
    by rewrite (shape_unique _ _ _ Hs' (proj1 Ho)).
  - destruct (built_valid _ Hb) as (s & Hs & _).
    destruct (owns_copy _ _ _ Hs Hc) as (s1 & Ho & _).
    by rewrite (shape_unique _ _ _ Hs' (proj1 Ho)).
  - destruct (built_valid _ Hb) as (s & Hs & _).
    pose proof (owns_insert _ _ _ _ _ (IH s Hs) Hins) as Ho.
    by rewrite (shape_unique _ _ _ Hs' (proj1 Ho)).
  - destruct (built_valid _ Hb) as (s & Hs & _ & Hsz & Hlt).
    pose proof (owns_erase _ _ _ _ _ (IH s Hs) Hsz Hlt Her) as Ho.
    by rewrite (shape_unique _ _ _ Hs' (proj1 Ho)).
Qed.

(** [deleteAll] on a subtree releases the nodes of the subtree and leaves
    the rest of the store. *)
Lemma deleteAll_spec s :
  ∀ h par fuel,
    repr h par s → NoDup (ptrs s) → (height s < fuel)%nat →
    ∃ h', deleteAll fuel (root_of s) h = Some h'
          ∧ ∀ x, h' !! x = if decide (x ∈ ptrs s) then None else h !! x.
Proof.
  induction s as [|l IHl a d r IHr]; intros h par fuel R Hnd Hfuel.
  - destruct fuel; [simpl in Hfuel; lia|]. exists h. split; [done|].
    intros x. by rewrite decide_False by apply not_elem_of_nil.
  - destruct fuel as [|fuel]; [simpl in Hfuel; lia|]. simpl in Hfuel.
    destruct R as (n & Hn & Hd & Hp & Hl & Hr & Rl & Rr).
    apply NoDup_Br in Hnd as (Hndl & Hndr & Hal & Har & Hlr).
    destruct (IHl h (Some a) fuel Rl Hndl ltac:(lia)) as (h1 & Hc1 & Hh1).
    assert (Rr1 : repr h1 (Some a) r).
    { eapply repr_frame; [exact Rr|]. intros x Hx. rewrite Hh1.
      rewrite decide_False; [done|]. intros Hx'. by apply (Hlr x). }
    destruct (IHr h1 (Some a) fuel Rr1 Hndr ltac:(lia)) as (h2 & Hc2 & Hh2).
    assert (Hn1 : h1 !! a = Some n) by (by rewrite Hh1, decide_False).
    assert (Hn2 : h2 !! a = Some n) by (by rewrite Hh2, decide_False).
    exists (delete a h2). split.
    + cbn [deleteAll root_of]. rewrite Hn. cbn [mbind option_bind].
      rewrite Hl, Hc1. cbn [mbind option_bind]. rewrite Hn1.
      cbn [mbind option_bind]. rewrite Hr, Hc2. cbn [mbind option_bind].
      by rewrite Hn2.
    + intros x. rewrite ptrs_Br. destruct (decide (x = a)) as [->|Hne].
      * rewrite lookup_delete_eq. rewrite decide_True; [done|].
        apply elem_of_app. right. left.
      * rewrite lookup_delete_ne by done. rewrite Hh2, Hh1.
        destruct (decide (x ∈ ptrs r)) as [Hxr|Hxr],
                 (decide (x ∈ ptrs l)) as [Hxl|Hxl];
          first [ rewrite decide_True
                    by (rewrite elem_of_app, elem_of_cons; tauto)
                | rewrite decide_False
                    by (rewrite elem_of_app, elem_of_cons; tauto) ];
          done.
Qed.

Lemma forward_spec t s : shape_of t s → forward t = Some (ptrs s).
Proof.
  intros Hs. unfold forward. rewrite (begin_spec _ _ Hs).
  change (walk_forward (fuel_of (heap t)) t (head (ptrs s)) = Some (ptrs s)).
  apply (walk_forward_spec _ _ Hs (ptrs s) []); [done|].
  destruct Hs as (_ & R & Hnd). pose proof (repr_size _ _ _ R Hnd).
  unfold fuel_of. lia.
Qed.

Lemma destructor_spec t s :
  shape_of t s →
  ∃ h', destructor t = Some h'
        ∧ ∀ x, h' !! x = if decide (x ∈ ptrs s) then None else heap t !! x.
Proof.
  intros (Hroot & R & Hnd). unfold destructor. rewrite Hroot.
  apply (deleteAll_spec s (heap t) None); [done|done|by eapply repr_fuel].
Qed.

Lemma destructor_owned t s : owns t s → destructor t = Some ∅.
Proof.
  intros (Hs & Hsub). destruct (destructor_spec _ _ Hs) as (h' & -> & Hh').
  f_equal. apply map_eq. intros x. rewrite Hh', lookup_empty.
  case_decide as Hx; [done|]. apply not_elem_of_dom. intros Hd. auto.
Qed.

(** X10. In a tree that the constructors, [insert] and [erase(key)] have
    built, [size()] is the number of entries that the iteration from
    [begin()] to [end()] meets, and no node is met twice. *)
Theorem built_size_counts_iteration t :
  built KeySize nth_element t →
  ∃ nodes_met,
    forward t = Some nodes_met
    ∧ NoDup nodes_met
    ∧ size t = Z.of_nat (length nodes_met)
    ∧ (size t = 0 ↔ begin t = Some (end_ t)).
Proof.
  intros Hb. destruct (built_valid _ Hb) as (s & Hs & _ & Hsz & _).
  exists (ptrs s). split; [by apply forward_spec|].
  split; [by destruct Hs as (_ & _ & ?)|]. split; [done|].
  rewrite (begin_spec _ _ Hs), Hsz. unfold end_.
  destruct (ptrs s); simpl; split; try done; lia.
Qed.

(** X11. A tree that the constructors, [insert] and [erase(key)] have built
    owns the nodes that its root leads to and no other node: [erase]
    releases the node it unlinks, and nothing else is ever left in the
    store.  The destructor then releases every node. *)
Theorem built_trees_own_their_nodes t :
  built KeySize nth_element t →
  ∃ s, shape_of t s
       ∧ dom (heap t) = list_to_set (ptrs s)
       ∧ destructor t = Some ∅.
Proof.
  intros Hb. destruct (built_owns _ Hb) as (s & Ho & _).
  exists s. split; [by destruct Ho|].
  split; [by apply owns_dom|by eapply destructor_owned].
Qed.

(** X12. [deleteAll(root)], as the destructor calls it on a well-linked
    tree, releases each node of the tree once and touches no other node of
    the store. *)
Theorem destructor_releases_the_tree t s :
  shape_of t s →
  ∃ h', destructor t = Some h'
        ∧ (∀ x, x ∈ ptrs s → h' !! x = None)
        ∧ (∀ x, x ∉ ptrs s → h' !! x = heap t !! x)
        ∧ base.size h' = (base.size (heap t) - length (ptrs s))%nat.
Proof.
  intros Hs. destruct (destructor_spec _ _ Hs) as (h' & Hd & Hh').
  exists h'. split; [done|].
  split; [intros x Hx; by rewrite Hh', decide_True|].
  split; [intros x Hx; by rewrite Hh', decide_False|].
  destruct Hs as (_ & R & Hnd).
  assert (Hdom : dom h' = dom (heap t) ∖ list_to_set (ptrs s)).
  { apply set_eq. intros x. rewrite elem_of_difference, elem_of_list_to_set.
    rewrite !elem_of_dom, Hh'. case_decide; [|tauto].
    split; [by intros [? ?]|tauto]. }
  rewrite <- !size_dom, Hdom, size_difference.
  - by rewrite size_list_to_set.
  - intros x Hx. apply elem_of_list_to_set in Hx. by eapply repr_ptrs_dom.
Qed.

Lemma KDTree_copy_returns t s : shape_of t s → is_Some (KDTree_copy t).
Proof.
  intros (Hroot & R & Hnd).
  destruct (copyAll_spec (heap t) s None (fuel_of (heap t)) None ∅ R
              (repr_fuel _ _ _ R Hnd)) as (s' & h' & Hcall & _).
  unfold KDTree_copy. rewrite Hroot, Hcall. simpl. eauto.
Qed.

(** X13. The members never reach a released node on a tree that the
    constructors, [insert] and [erase(key)] have built: [find], [insert],
    [erase(key)], [findMin], [findMax], the copy constructor, the iteration
    and the destructor all return, and so do [++], [--] and [*] on an
    iterator that [find] has returned for a key of the tree. *)
Theorem built_trees_never_fault t k v (dim : nat) :
  built KeySize nth_element t → (0 < KeySize)%nat →
  is_Some (find KeySize t k)
  ∧ is_Some (insert KeySize k v t)
  ∧ is_Some (erase KeySize k t)
  ∧ is_Some (findMin KeySize dim t)
  ∧ is_Some (findMax KeySize dim t)
  ∧ is_Some (KDTree_copy t)
  ∧ is_Some (forward t)
  ∧ is_Some (destructor t)
  ∧ (∀ a, find KeySize t k = Some (Some a) →
          is_Some (increment t (Some a)) ∧ is_Some (decrement t (Some a))
          ∧ is_Some (deref t (Some a))).
Proof.
  intros Hb Hk. pose proof (built_valid _ Hb) as Hv.
  pose proof Hv as (s & Hs & _). pose proof Hs as (Hroot & R & Hnd).
  split; [rewrite (find_spec _ _ _ Hs); eauto|].
  split; [by apply insert_total|]. split; [by apply erase_total|].
  split.
  { unfold findMin. rewrite findMinDynamic_any by lia.
    unfold findMin_static. rewrite Hroot.
    erewrite findMin_in_spec; [eauto|exact R|by eapply repr_fuel]. }
  split.
  { unfold findMax. rewrite findMaxDynamic_any by lia.
    unfold findMax_static. rewrite Hroot.
    erewrite findMax_in_spec; [eauto|exact R|by eapply repr_fuel]. }
  split; [by apply KDTree_copy_total|].
  split; [rewrite (forward_spec _ _ Hs); eauto|].
  split; [destruct (destructor_spec _ _ Hs) as (h' & -> & _); eauto|].
  intros a Ha. rewrite (find_spec _ _ _ Hs) in Ha. injection Ha as Ha.
  destruct (find_t_elem _ _ _ _ Ha) as (v' & Hin).
  assert (Hp : a ∈ ptrs s).
  { unfold ptrs. apply list_elem_of_fmap. by exists (a, (k, v')). }
  apply list_elem_of_split in Hp as (xs & ys & E).
  rewrite (increment_spec _ _ _ _ _ Hs E), (decrement_spec _ _ _ _ _ Hs E).
  rewrite (deref_node _ _ _ _ Hs Hin). eauto.
Qed.

(** X14. Assignment between two tree objects gives the left one the tree
    that the copy constructor makes of the right one, with the same
    entries at the same places and the same size, and it releases every
    node that the left object held; the right object and all other objects
    stay as they are.  Assigning an object to itself changes nothing. *)
Theorem operator_assign_copies this that (objs : gmap ptr KDTree)
    (dst src : KDTree) s_dst s_src :
  this ≠ that → objs !! this = Some dst → objs !! that = Some src →
  owns dst s_dst → shape_of src s_src →
  (∃ t' s',
     operator_assign this that objs = Some (<[this := t']> objs)
     ∧ KDTree_copy src = Some t'
     ∧ owns t' s'
     ∧ same_data s_src s'
     ∧ entries s' = entries s_src
     ∧ size t' = size src)
  ∧ operator_assign that that objs = Some objs.
Proof.
  intros Hne Hdst Hsrc Ho Hs. split.
  - destruct (KDTree_copy_returns _ _ Hs) as [t' Hc].
    destruct (owns_copy _ _ _ Hs Hc) as (s' & Ho' & Hsame & Hsz).
    exists t', s'. split; [|by rewrite (same_data_entries _ _ Hsame)].
    unfold operator_assign. rewrite bool_decide_eq_false_2 by done.
    rewrite Hdst, Hsrc. cbn [mbind option_bind].
    pose proof (destructor_owned _ _ Ho) as Hd. unfold destructor in Hd.
    rewrite Hd. cbn [mbind option_bind]. unfold KDTree_copy in Hc.
    bind_inv Hc as [r h]. by injection Hc as <-.
  - unfold operator_assign. by rewrite bool_decide_eq_true_2.
Qed.
(** ** Erasing at an iterator *)

Lemma repr_plug_intro h (ctx : list frame) :
  ∀ s rootp, repr h (ctx_parent ctx) s → repr_ctx h rootp ctx (root_of s) →
    repr h None (plug s ctx) ∧ root_of (plug s ctx) = rootp.
Proof.
  induction ctx as [|[a d r|l a d] c IH]; intros s rootp R Rc; simpl in *;
    [done| |].
  - destruct Rc as (n & Hn & Hd & Hp & Hl & Hr & Rr & Rc).
    apply IH; [|done]. simpl. exists n. repeat split; auto.
  - destruct Rc as (n & Hn & Hd & Hp & Hl & Hr & Rl & Rc).
    apply IH; [|done]. simpl. exists n. repeat split; auto.
Qed.

Lemma repr_ctx_frame h h' rootp (ctx : list frame) :
  ∀ p, repr_ctx h rootp ctx p →
       (∀ x, x ∈ before ctx ++ after ctx → h' !! x = h !! x) →
       repr_ctx h' rootp ctx p.
Proof.
  induction ctx as [|[a d r|l a d] c IH]; intros p Rc Hfr; simpl in *; [done| |].
  - destruct Rc as (n & Hn & Hd & Hp & Hl & Hr & Rr & Rc).
    exists n. split.
    { rewrite Hfr; [done|]. apply elem_of_app. right. left. }
    repeat split; auto.
    + eapply repr_frame; [exact Rr|]. intros x Hx. apply Hfr.
      apply elem_of_app. right. right. apply elem_of_app. by left.
    + apply IH; [done|]. intros x Hx. apply Hfr.
      apply elem_of_app in Hx as [Hx|Hx]; apply elem_of_app; [by left|].
      right. right. apply elem_of_app. by right.
  - destruct Rc as (n & Hn & Hd & Hp & Hl & Hr & Rl & Rc).
    exists n. split.
    { rewrite Hfr; [done|]. apply elem_of_app. left.
      rewrite !elem_of_app. right. right. left. }
    repeat split; auto.
    + eapply repr_frame; [exact Rl|]. intros x Hx. apply Hfr.
      apply elem_of_app. left. rewrite !elem_of_app. right. by left.
    + apply IH; [done|]. intros x Hx. apply Hfr.
      apply elem_of_app in Hx as [Hx|Hx]; apply elem_of_app; [|by right].
      left. apply elem_of_app. by left.
Qed.

Lemma depth_from_spec h rootp (ctx : list frame) :
  ∀ p acc fuel,
    repr_ctx h rootp ctx p → (length ctx < fuel)%nat →
    depth_from fuel h (ctx_parent ctx) acc = Some (acc + length ctx)%nat.
Proof.
  induction ctx as [|[a d r|l a d] c IH]; intros p acc fuel Rc Hf;
    (destruct fuel as [|fuel]; [lia|]); simpl in *.
  - f_equal. lia.
  - destruct Rc as (n & Hn & _ & Hp & _ & _ & _ & Rc).
    rewrite Hn. cbn [mbind option_bind]. rewrite Hp.
    rewrite (IH (Some a) (S acc) fuel Rc) by lia. f_equal. lia.
  - destruct Rc as (n & Hn & _ & Hp & _ & _ & _ & Rc).
    rewrite Hn. cbn [mbind option_bind]. rewrite Hp.
    rewrite (IH (Some a) (S acc) fuel Rc) by lia. f_equal. lia.
Qed.

Lemma eraseDynamic_small t a :
  ∀ steps DIM dim, (dim < KeySize)%nat → (DIM ≤ dim)%nat →
    (dim - DIM < steps)%nat →
    eraseDynamic KeySize steps DIM a dim t
    = (n ← heap t !! a;
       erase_in KeySize (fuel_of (heap t)) dim (Some a) (key n) t).
Proof.
  induction steps as [|steps IH]; intros DIM dim Hd Hle Hs; [lia|]. simpl.
  destruct (Nat.leb_spec KeySize dim); [lia|].
  destruct (Nat.eqb_spec dim DIM) as [->|Hne]; [done|].
  apply IH; auto; unfold DIM_NEXT; rewrite Nat.mod_small; lia.
Qed.

Lemma eraseDynamic_any t a steps dim :
  (0 < KeySize)%nat → (KeySize ≤ steps)%nat →
  eraseDynamic KeySize steps 0 a dim t
  = (n ← heap t !! a;
     erase_in KeySize (fuel_of (heap t)) (dim mod KeySize) (Some a) (key n) t).
Proof.
  intros Hk Hs. destruct steps as [|steps]; [lia|]. simpl.
  pose proof (Nat.mod_upper_bound dim KeySize ltac:(lia)) as Hm.
  assert (Hd : (if (KeySize <=? dim)%nat then (dim mod KeySize)%nat else dim)
               = (dim mod KeySize)%nat).
  { destruct (Nat.leb_spec KeySize dim); [done|]. by rewrite Nat.mod_small. }
  rewrite Hd.
  destruct (Nat.eqb_spec (dim mod KeySize) 0) as [->|Hne]; [done|].
  assert (DIM_NEXT KeySize 0 = 1%nat) as ->.
  { unfold DIM_NEXT. rewrite Nat.mod_small; lia. }
  apply eraseDynamic_small; lia.
Qed.

Lemma dim_at_mod (depth : nat) :
  (0 < KeySize)%nat → dim_at KeySize depth = (depth mod KeySize)%nat.
Proof.
  intros Hk. induction depth as [|depth IH].
  - unfold dim_at. simpl. by rewrite Nat.Div0.mod_0_l.
  - unfold dim_at in *. simpl. rewrite IH. unfold DIM_NEXT.
    rewrite Nat.Div0.add_mod_idemp_l. f_equal. lia.
Qed.

(** The node that [erase<DIM>] is called at stays where it is when it has a
    child: its entry is replaced. *)
Lemma erase_t_inner_root DIM l a d r :
  root_of l ≠ None ∨ root_of r ≠ None →
  root_of (erase_t KeySize DIM d.1 (Br l a d r)) = Some a.
Proof.
  intros Hne. assert (Heq : tuple_eq d.1 d.1 = true)
    by (by apply bool_decide_eq_true).
  destruct (root_of r) as [c|] eqn:Er.
  - destruct (findMin_t_root DIM (DIM_NEXT KeySize DIM) r c Er) as (m & dm & Hm).
    by rewrite (erase_t_right _ _ _ _ _ _ _ _ _ Heq Er Hm).
  - destruct (root_of l) as [b|] eqn:El; [|by destruct Hne].
    destruct (findMax_t_root DIM (DIM_NEXT KeySize DIM) l b El) as (m & dm & Hm).
    by rewrite (erase_t_left _ _ _ _ _ _ _ _ _ Heq El Er Hm).
Qed.

Lemma erase_at_node t (ctx : list frame) l a d r DIM :
  shape_of t (plug (Br l a d r) ctx) →
  size t = Z.of_nat (length (ptrs (plug (Br l a d r) ctx))) →
  size t < size_t_mod →
  ctx = [] ∨ root_of l ≠ None ∨ root_of r ≠ None →
  let sub' := erase_t KeySize DIM d.1 (Br l a d r) in
  ∃ q t',
    erase_in KeySize (fuel_of (heap t)) DIM (Some a) d.1 t = Some (q, t')
    ∧ shape_of t' (plug sub' ctx)
    ∧ size t' = Z.of_nat (length (ptrs (plug sub' ctx)))
    ∧ root_of sub' = (if bool_decide (root_of l = None ∧ root_of r = None)
                      then None else Some a).
Proof.
  intros (Hroot & R & Hnd) Hsz Hlt Hcase sub'.
  destruct (repr_plug _ _ _ R) as (Rsub & Rctx).
  rewrite ptrs_plug in Hnd.
  assert (Hndsub : NoDup (ptrs (Br l a d r))).
  { apply NoDup_app in Hnd as (_ & _ & Hnd). by apply NoDup_app in Hnd as (? & _). }
  assert (Hfuel : (height (Br l a d r) < fuel_of (heap t))%nat).
  { pose proof (height_plug (Br l a d r) ctx).
    assert (height (plug (Br l a d r) ctx) < fuel_of (heap t))%nat; [|lia].
    eapply repr_fuel; [exact R|]. by rewrite ptrs_plug. }
  destruct (erase_in_spec (Br l a d r) (ctx_parent ctx) t (fuel_of (heap t)) DIM
              (d.1) Rsub Hndsub Hfuel) as (t' & Hcall & R' & Hfr & Eff).
  fold sub' in Hcall, R', Eff. cbn [root_of] in Hcall.
  exists (root_of sub'), t'. split; [done|].
  assert (Hlen : length (ptrs (plug (Br l a d r) ctx))
                 = (length (before ctx) + length (ptrs (Br l a d r))
                    + length (after ctx))%nat).
  { rewrite ptrs_plug, !length_app. lia. }
  assert (Hlen' : length (ptrs (plug sub' ctx))
                  = (length (before ctx) + length (ptrs sub')
                     + length (after ctx))%nat).
  { rewrite ptrs_plug, !length_app. lia. }
  assert (Hpos : (0 < length (ptrs (Br l a d r)))%nat).
  { rewrite ptrs_Br, length_app. simpl. lia. }
  unfold size in *.
  assert (Hnd' : NoDup (ptrs (plug sub' ctx))).
  { rewrite ptrs_plug. eapply sublist_NoDup; [exact Hnd|].
    apply sublist_app; [done|]. apply sublist_app; [|done].
    apply ptrs_erase_t. }
  case_bool_decide as Hleaf.
  - destruct Hleaf as (Hl & Hr).
    destruct Hcase as [->|[?|?]]; [|done|done].
    assert (Hsub' : sub' = Leaf).
    { subst sub'. apply erase_t_leaf; [by apply bool_decide_eq_true|done|done]. }
    rewrite Hsub' in *. simpl in *.
    apply root_of_None in Hl as ->. apply root_of_None in Hr as ->.
    cbn in Hsz. destruct Eff as [(Hl & _)|(_ & Hts & Hrt)]; [done|].
    rewrite Hsz in Hts. change (wrap (1 - 1)) with 0 in Hts.
    rewrite Hts in Hrt. split; [|by rewrite Hts]. split; [done|].
    split; [done|constructor].
  - assert (Hinner : root_of l ≠ None ∨ root_of r ≠ None).
    { destruct (decide (root_of l = None)), (decide (root_of r = None)); tauto. }
    pose proof (erase_t_inner_root DIM l a d r Hinner) as Hr'. fold sub' in Hr'.
    assert (Rctx' : repr_ctx (heap t') (root_of (plug (Br l a d r) ctx)) ctx
                      (root_of sub')).
    { rewrite Hr'. eapply repr_ctx_frame; [exact Rctx|]. intros x Hx.
      apply Hfr. intros Hin.
      apply elem_of_app in Hx as [Hx|Hx].
      - apply NoDup_app in Hnd as (_ & Hd & _). apply (Hd x Hx).
        apply elem_of_app. by left.
      - apply NoDup_app in Hnd as (_ & _ & Hnd).
        apply NoDup_app in Hnd as (_ & Hd & _). by apply (Hd x Hin). }
    destruct (repr_plug_intro _ _ _ _ R' Rctx') as (Rall & Hrootall).
    assert (Hcount : (2 ≤ length (ptrs (Br l a d r)))%nat).
    { rewrite ptrs_Br, length_app. simpl.
      destruct l, r; try (by destruct Hinner); rewrite ?ptrs_Br, ?length_app;
        simpl; lia. }
    split; [|split; [|done]].
    + split; [|done]. rewrite Hrootall, <- Hroot.
      destruct Eff as [(_ & _ & ->)|(_ & Hts & ->)]; [done|].
      rewrite wrap_small in Hts by lia.
      destruct (Z.eqb_spec (treeSize t') 0); [lia|done].
    + destruct Eff as [(Hl & -> & _)|(Hl & -> & _)]; [lia|].
      rewrite wrap_small by lia. lia.
Qed.

Lemma kd_invariant_plug (ctx : list frame) :
  ∀ s, kd_invariant KeySize 0 (plug s ctx) →
       kd_invariant KeySize (dim_at KeySize (length ctx)) s.
Proof.
  induction ctx as [|[a d r|l a d] c IH]; intros s H; simpl in *; [done| |].
  - by destruct (IH _ H) as (_ & _ & ? & _).
  - by destruct (IH _ H) as (_ & _ & _ & ?).
Qed.

Lemma entries_plug (ctx : list frame) :
  ∃ pre post : list Data,
    ∀ s, entries (plug s ctx) = pre ++ entries s ++ post.
Proof.
  induction ctx as [|[a d r|l a d] c (pre & post & IH)].
  - exists [], []. intros s. simpl. by rewrite app_nil_r.
  - exists pre, (d :: entries r ++ post). intros s. simpl.
    rewrite IH, entries_Br. by rewrite <- !app_assoc.
  - exists (pre ++ entries l ++ [d]), post. intros s. simpl.
    rewrite IH, entries_Br. by rewrite <- !app_assoc.
Qed.

(** Under the invariant, with no key twice, erasing at a node takes the
    entry of that node out of the tree and no other. *)
Lemma erase_at_node_removes (ctx : list frame) l a d r :
  kd_invariant KeySize 0 (plug (Br l a d r) ctx) →
  NoDup (entries (plug (Br l a d r) ctx)).*1 →
  let sub' := erase_t KeySize (dim_at KeySize (length ctx)) d.1 (Br l a d r) in
  entries (plug sub' ctx)
  ≡ₚ filter (λ e, e.1 ≠ d.1) (entries (plug (Br l a d r) ctx))
  ∧ S (length (entries (plug sub' ctx)))
    = length (entries (plug (Br l a d r) ctx)).
Proof.
  intros Hinv Hnd sub'.
  destruct (entries_plug ctx) as (pre & post & E).
  rewrite !E in *. apply kd_invariant_plug in Hinv.
  rewrite !fmap_app in Hnd.
  apply NoDup_app in Hnd as (Hpre & Hd1 & Hnd).
  apply NoDup_app in Hnd as (Hsub & Hd2 & Hpost).
  assert (Hin : d.1 ∈ (entries (Br l a d r)).*1).
  { rewrite entries_Br, fmap_app, fmap_cons. apply elem_of_app. right. left. }
  pose proof (erase_t_removes (Br l a d r) _ d.1 Hinv Hsub) as Hrem.
  fold sub' in Hrem.
  assert (Hperm : pre ++ entries sub' ++ post
                  ≡ₚ filter (λ e, e.1 ≠ d.1)
                       (pre ++ entries (Br l a d r) ++ post)).
  { rewrite !filter_app, Hrem.
    rewrite (filter_other_keys pre), (filter_other_keys post); [done| |].
    - by apply Hd2.
    - intros Hp. apply (Hd1 _ Hp). apply elem_of_app. by left. }
  split; [done|]. rewrite Hperm.
  assert (Hnd' : NoDup (pre ++ entries (Br l a d r) ++ post).*1).
  { rewrite !fmap_app. apply NoDup_app. split; [done|]. split; [done|].
    apply NoDup_app. by split. }
  assert (Hd : d ∈ pre ++ entries (Br l a d r) ++ post).
  { apply elem_of_app. right. apply elem_of_app. left.
    rewrite entries_Br. apply elem_of_app. right. left. }
  by rewrite <- (filter_one_key _ d Hnd' Hd) at 2.
Qed.

(** X15. [erase(it)] at a node that has a child, or at the only node of the
    tree: the call works on the node's subtree with the dimension that the
    descent from the root reaches the node with, the tree stays well linked
    and counts its nodes right.  A node with a child keeps its place and
    gets the entry that replaces the erased one, and the iterator returned
    stays at it; after erasing the only node the tree is empty and the
    iterator returned is [end()].  On a tree that satisfies the invariant
    and holds no key twice, the entry at the iterator is gone, every other
    entry is still there, and the size is one less. *)
Theorem erase_it_at_inner_or_only_node t (ctx : list frame) l a d r :
  (0 < KeySize)%nat →
  shape_of t (plug (Br l a d r) ctx) →
  size t = Z.of_nat (length (ptrs (plug (Br l a d r) ctx))) →
  size t < size_t_mod →
  ctx = [] ∨ root_of l ≠ None ∨ root_of r ≠ None →
  let DIM := dim_at KeySize (length ctx) in
  let sub' := erase_t KeySize DIM d.1 (Br l a d r) in
  ∃ it' t',
    erase_it KeySize (Some a) t = Some (it', t')
    ∧ shape_of t' (plug sub' ctx)
    ∧ size t' = Z.of_nat (length (ptrs (plug sub' ctx)))
    ∧ it' = root_of sub'
    ∧ it' = (if bool_decide (root_of l = None ∧ root_of r = None)
             then end_ t' else Some a)
    ∧ (kd_invariant KeySize 0 (plug (Br l a d r) ctx) →
       NoDup (entries (plug (Br l a d r) ctx)).*1 →
       entries (plug sub' ctx)
       ≡ₚ filter (λ e, e.1 ≠ d.1) (entries (plug (Br l a d r) ctx))
       ∧ size t' = size t - 1).
Proof.
  intros Hk Hs Hsz Hlt Hcase DIM sub'.
  destruct (erase_at_node t ctx l a d r DIM Hs Hsz Hlt Hcase)
    as (q & t' & Hcall & Hs' & Hsz' & Hr'). fold sub' in Hs', Hsz', Hr'.
  pose proof Hs as (Hroot & R & Hnd).
  destruct (repr_plug _ _ _ R) as ((n & Hn & Hd & Hp & Hl & Hr & _) & Rctx).
  exists (root_of sub'), t'.
  split; [|split; [done|split; [done|split; [done|split; [by rewrite Hr'|]]]]].
  - unfold erase_it. rewrite Hn. cbn [mbind option_bind]. rewrite Hp.
    assert (Hfuel : (length ctx < fuel_of (heap t))%nat).
    { pose proof (height_plug (Br l a d r) ctx).
      pose proof (repr_fuel _ _ _ R Hnd). simpl in *. lia. }
    rewrite (depth_from_spec _ _ _ _ 0%nat _ Rctx Hfuel).
    cbn [mbind option_bind]. rewrite eraseDynamic_any by lia.
    rewrite Hn. cbn [mbind option_bind]. unfold key. rewrite Hd.
    rewrite Nat.add_0_l, Nat.Div0.mod_mod, <- dim_at_mod by done. fold DIM.
    rewrite Hcall. cbn [mbind option_bind]. do 2 f_equal.
    rewrite Hr', Hl, Hr. case_bool_decide as Hleaf; [|done].
    destruct Hleaf as (Hl' & Hr'').
    by destruct Hcase as [->|[?|?]].
  - intros Hinv Hndk.
    destruct (erase_at_node_removes ctx l a d r Hinv Hndk) as (Hperm & Hlen).
    fold DIM in Hperm, Hlen. fold sub' in Hperm, Hlen. split; [done|].
    rewrite Hsz', Hsz, !length_ptrs_entries. lia.
Qed.

(** ** Bulk construction *)

Lemma depth_of_node t s (ctx : list frame) l a d r :
  shape_of t s → s = plug (Br l a d r) ctx →
  depth_from (fuel_of (heap t)) (heap t) (Some a) 0 = Some (S (length ctx))
  ∧ (S (length ctx) ≤ height s)%nat.
Proof.
  intros (_ & R & Hnd) ->.
  change (plug (Br l a d r) ctx) with (plug l (InL a d r :: ctx)) in *.
  destruct (repr_plug _ _ _ R) as (_ & Rctx).
  pose proof (height_plug l (InL a d r :: ctx)) as Hh.
  pose proof (repr_fuel _ _ _ R Hnd) as Hf.
  split; [|simpl in *; lia].
  change (Some a) with (ctx_parent (InL a d r :: ctx)).
  rewrite (depth_from_spec _ _ _ _ 0%nat _ Rctx); [done|]. simpl in *. lia.
Qed.

(** X16. The tree that the bulk constructor builds is as shallow as a binary
    tree of its size can be: with fewer than [2^m] distinct keys in the
    vector, the walk from any node up to the root, counted as
    [erase(Iterator)] counts it, passes at most [m] nodes. *)
Theorem KDTree_of_balanced (v : list Data) (m : nat) :
  (length (distinct_keys v) < 2 ^ m)%nat →
  ∃ t s,
    KDTree_of KeySize nth_element v = Some t
    ∧ shape_of t s
    ∧ (height s ≤ m)%nat
    ∧ ∀ a, a ∈ ptrs s →
           ∃ depth,
             depth_from (fuel_of (heap t)) (heap t) (Some a) 0 = Some depth
             ∧ (depth ≤ m)%nat.
Proof.
  intros Hm.
  destruct (KDTree_helper_full (S (length (dedup v))) 0 (dedup v) None ∅
              ltac:(lia)) as (s & h & Hb & R & Hnd & _ & _ & _ & _ & Hh).
  rewrite dedup_length in Hh. specialize (Hh m Hm).
  set (t := mkKDTree h (root_of s) (Z.of_nat (length (dedup v)))).
  assert (Hs : shape_of t s) by done.
  exists t, s. split; [unfold KDTree_of; by rewrite Hb|].
  split; [done|]. split; [done|]. intros a Ha.
  destruct (plug_decompose s a Ha) as (ctx & l & d & r & E).
  destruct (depth_of_node t s ctx l a d r Hs E) as (Hd & Hle).
  exists (S (length ctx)). split; [done|lia].
Qed.

Lemma DIM_NEXT_lt DIM : (0 < KeySize)%nat → (DIM_NEXT KeySize DIM < KeySize)%nat.
Proof. intros. unfold DIM_NEXT. apply Nat.mod_upper_bound. lia. Qed.

(** Where no two keys agree in any component, a partitioned shape satisfies
    the invariant. *)
Lemma partitioned_without_ties s :
  ∀ DIM, (DIM < KeySize)%nat → partitioned KeySize DIM s →
    NoDup (entries s).*1 →
    (∀ k1 k2 (dim : nat), k1 ∈ (entries s).*1 → k2 ∈ (entries s).*1 → k1 ≠ k2 →
       (dim < KeySize)%nat → get dim k1 ≠ get dim k2) →
    kd_invariant KeySize DIM s.
Proof.
  induction s as [|l IHl a d r IHr]; intros DIM Hd Hp Hnd Hties; [done|].
  destruct Hp as (Hpl & Hpr & Hl & Hr).
  pose proof (NoDup_keys_Br _ _ _ _ Hnd) as (Hndl & Hndr & Hdl & Hdr).
  assert (Hsubl : ∀ k, k ∈ (entries l).*1 → k ∈ (entries (Br l a d r)).*1).
  { intros k Hk. rewrite entries_Br, fmap_app. apply elem_of_app. by left. }
  assert (Hsubr : ∀ k, k ∈ (entries r).*1 → k ∈ (entries (Br l a d r)).*1).
  { intros k Hk. rewrite entries_Br, fmap_app, fmap_cons.
    apply elem_of_app. right. by right. }
  assert (Hmid : d.1 ∈ (entries (Br l a d r)).*1).
  { rewrite entries_Br, fmap_app, fmap_cons. apply elem_of_app. right. left. }
  assert (Hk : (0 < KeySize)%nat) by lia.
  simpl. split; [|split; [|split]].
  - apply Forall_forall. intros e He.
    pose proof (proj1 (Forall_forall _ _) Hpl e He) as Hle. simpl in Hle.
    assert (Hin : e.1 ∈ (entries l).*1) by (apply list_elem_of_fmap; eauto).
    assert (e.1 ≠ d.1) by (intros E; by rewrite E in Hin).
    pose proof (Hties e.1 d.1 DIM (Hsubl _ Hin) Hmid ltac:(done) Hd). lia.
  - eapply Forall_impl; [exact Hpr|]. simpl. intros e He. lia.
  - apply IHl; auto using DIM_NEXT_lt.
  - apply IHr; auto using DIM_NEXT_lt.
Qed.

(** X17. Built in bulk from a vector in which no two different keys agree
    in any component, the tree satisfies the invariant, and [find] reaches
    every key of the vector, at the entry with the value of the last pair
    that has the key. *)
Theorem KDTree_of_without_ties (v : list Data) :
  (0 < KeySize)%nat →
  (∀ k1 k2 (dim : nat), k1 ∈ v.*1 → k2 ∈ v.*1 → k1 ≠ k2 → (dim < KeySize)%nat →
     get dim k1 ≠ get dim k2) →
  ∃ t s,
    KDTree_of KeySize nth_element v = Some t
    ∧ shape_of t s
    ∧ kd_invariant KeySize 0 s
    ∧ NoDup (entries s).*1
    ∧ ∀ k, k ∈ v.*1 →
           ∃ a x, find KeySize t k = Some (Some a)
                  ∧ deref t (Some a) = Some (k, x)
                  ∧ last_value k v = Some x.
Proof.
  intros Hk Hties.
  destruct (KDTree_helper_spec (S (length (dedup v))) 0 (dedup v) None ∅
              ltac:(lia)) as (s & h & Hb & R & Hnd & Hperm & _ & _ & Hp).
  set (t := mkKDTree h (root_of s) (Z.of_nat (length (dedup v)))).
  assert (Hs : shape_of t s) by done.
  assert (Hndk : NoDup (entries s).*1) by (rewrite Hperm; apply dedup_NoDup).
  assert (Hinv : kd_invariant KeySize 0 s).
  { apply partitioned_without_ties; auto.
    intros k1 k2 dim H1 H2. rewrite Hperm in H1, H2.
    apply (proj1 (dedup_keys _ _)) in H1, H2. by apply Hties. }
  exists t, s. split; [unfold KDTree_of; by rewrite Hb|].
  split; [done|]. split; [done|]. split; [done|]. intros k Hin.
  assert (Hin' : k ∈ (entries s).*1) by (rewrite Hperm; by apply dedup_keys).
  destruct (find_t_complete s 0%nat k Hinv Hin') as (a & Ha).
  destruct (find_t_elem _ _ _ _ Ha) as (x & Hx).
  exists a, x. split; [by rewrite (find_spec _ _ _ Hs), Ha|].
  split; [by apply (deref_node _ s)|].
  assert (He : (k, x) ∈ entries s).
  { unfold entries. apply list_elem_of_fmap. by exists (a, (k, x)). }
  rewrite Hperm in He. apply dedup_elem in He. simpl in He.
  unfold last_value. by rewrite He.
Qed.

(** ** Copies *)

Lemma find_t_same_data s :
  ∀ s' DIM k, same_data s s' →
    match find_t KeySize DIM k s, find_t KeySize DIM k s' with
    | Some a, Some a' => ∃ d, (a, d) ∈ nodes s ∧ (a', d) ∈ nodes s'
    | None, None => True
    | _, _ => False
    end.
Proof.
  induction s as [|l IHl a d r IHr]; intros [|l' a' d' r'] DIM k Hsame;
    try done.
  destruct Hsame as (<- & Hl & Hr). simpl.
  destruct (tuple_eq d.1 k).
  - exists d. split; apply elem_of_app; right; left.
  - destruct (strictLessKey DIM Less k d.1).
    + specialize (IHl l' (DIM_NEXT KeySize DIM) k Hl).
      destruct (find_t KeySize (DIM_NEXT KeySize DIM) k l),
               (find_t KeySize (DIM_NEXT KeySize DIM) k l'); try done.
      destruct IHl as (e & H1 & H2). exists e.
      split; apply elem_of_app; by left.
    + specialize (IHr r' (DIM_NEXT KeySize DIM) k Hr).
      destruct (find_t KeySize (DIM_NEXT KeySize DIM) k r),
               (find_t KeySize (DIM_NEXT KeySize DIM) k r'); try done.
      destruct IHr as (e & H1 & H2). exists e.
      split; apply elem_of_app; right; by right.
Qed.

(** X18. The copy constructor on a well-linked tree makes a tree with the
    same entries at the same places and the same size, in nodes of its
    own; [find] on the copy gives [end()] for the keys for which it does on
    the original, and otherwise leads to the same entry.  A copy of a tree
    that satisfies the invariant satisfies it. *)
Theorem KDTree_copy_answers_alike t s :
  shape_of t s →
  ∃ t' s',
    KDTree_copy t = Some t'
    ∧ shape_of t' s'
    ∧ same_data s s'
    ∧ entries s' = entries s
    ∧ size t' = size t
    ∧ dom (heap t') = list_to_set (ptrs s')
    ∧ (∀ k, ∃ it it',
         find KeySize t k = Some it ∧ find KeySize t' k = Some it'
         ∧ deref t' it' = deref t it
         ∧ (it' = end_ t' ↔ it = end_ t))
    ∧ (kd_invariant KeySize 0 s → kd_invariant KeySize 0 s').
Proof.
  intros Hs. destruct (KDTree_copy_returns _ _ Hs) as [t' Hc].
  destruct (owns_copy _ _ _ Hs Hc) as (s' & Ho & Hsame & Hsz).
  pose proof Ho as (Hs' & _).
  exists t', s'. split; [done|]. split; [done|]. split; [done|].
  split; [by rewrite (same_data_entries _ _ Hsame)|]. split; [done|].
  split; [by apply owns_dom|].
  split; [|by apply same_data_kd_invariant].
  intros k. exists (find_t KeySize 0 k s), (find_t KeySize 0 k s').
  split; [by apply find_spec|]. split; [by apply find_spec|].
  pose proof (find_t_same_data s s' 0%nat k Hsame) as Hf. unfold end_.
  destruct (find_t KeySize 0 k s) as [a|], (find_t KeySize 0 k s') as [a'|];
    try done.
  destruct Hf as (d & H1 & H2).
  by rewrite (deref_node _ _ _ _ Hs H1), (deref_node _ _ _ _ Hs' H2).
Qed.

(** ** The dimension argument of [findMin] and [findMax] *)

(** X19. [findMin(dim)] and [findMax(dim)] take the dimension modulo
    [KeySize]: for every [dim] they return what the compile-time variant
    returns for [dim % KeySize], on any tree, and so [dim] and
    [dim + KeySize] give the same result. *)
Theorem findMin_findMax_dimension_wraps t (dim : nat) :
  (0 < KeySize)%nat →
  findMin KeySize dim t = findMin_static KeySize (dim mod KeySize) t
  ∧ findMax KeySize dim t = findMax_static KeySize (dim mod KeySize) t
  ∧ findMin KeySize (dim + KeySize) t = findMin KeySize dim t
  ∧ findMax KeySize (dim + KeySize) t = findMax KeySize dim t.
Proof.
  intros Hk. unfold findMin, findMax.
  rewrite !findMinDynamic_any, !findMaxDynamic_any by lia.
  replace ((dim + KeySize) mod KeySize)%nat with (dim mod KeySize)%nat; [done|].
  rewrite <- (Nat.Div0.add_mod_idemp_r dim KeySize), Nat.Div0.mod_same.
  by rewrite Nat.add_0_r.
Qed.

(** X24. On a well-linked tree, whatever the order of its entries,
    [findMin(dim)] and [findMax(dim)] return [end()] only when the tree is
    empty; on a tree with a node they return an iterator at a node of the
    tree. *)
Theorem findMin_findMax_end_only_when_empty t s (dim : nat) :
  (0 < KeySize)%nat → shape_of t s →
  ∃ lo hi,
    findMin KeySize dim t = Some lo
    ∧ findMax KeySize dim t = Some hi
    ∧ (lo = end_ t ↔ root t = None)
    ∧ (hi = end_ t ↔ root t = None)
    ∧ (∀ a, lo = Some a ∨ hi = Some a → a ∈ ptrs s).
Proof.
  intros Hk (Hroot & R & Hnd). pose proof (repr_fuel _ _ _ R Hnd) as Hfuel.
  set (DIM := (dim mod KeySize)%nat).
  exists (fst <$> findMin_t KeySize DIM 0 s), (fst <$> findMax_t KeySize DIM 0 s).
  unfold findMin, findMax.
  rewrite findMinDynamic_any, findMaxDynamic_any by lia.
  unfold findMin_static, findMax_static. rewrite Hroot. fold DIM.
  split; [by apply (findMin_in_spec _ None)|].
  split; [by apply (findMax_in_spec _ None)|].
  unfold end_. split; [|split].
  - split.
    + intros E. apply fmap_None in E. by apply findMin_t_None in E as ->.
    + intros E. by apply root_of_None in E as ->.
  - split.
    + intros E. apply fmap_None in E. by apply findMax_t_None in E as ->.
    + intros E. by apply root_of_None in E as ->.
  - intros a [E|E]; apply fmap_Some in E as ([a' d] & E & ->); simpl;
      [apply findMin_t_elem in E|apply findMax_t_elem in E];
      unfold ptrs; apply list_elem_of_fmap; by exists (a', d).
Qed.

(** ** The comparison of keys *)

(** X20. [compareKey<DIM, std::less<>>], which [compareData<DIM>] applies
    to the keys of two pairs, is a strict total order of the keys: no key
    is before itself, the relation is transitive, and of two different
    keys one is before the other; it never puts a key with the greater
    component [DIM] first.  With [std::greater<>] it is the same order
    read from the other side. *)
Theorem compareKey_strict_total_order DIM (a b c : Key) (x y : Data) :
  compareKey DIM Less a a = false
  ∧ (compareKey DIM Less a b = true → compareKey DIM Less b c = true →
     compareKey DIM Less a c = true)
  ∧ (a ≠ b → compareKey DIM Less a b = true ∨ compareKey DIM Less b a = true)
  ∧ (compareKey DIM Less a b = true → get DIM a ≤ get DIM b)
  ∧ compareKey DIM Greater a b = compareKey DIM Less b a
  ∧ compareData DIM x y = compareKey DIM Less x.1 y.1.
Proof.
  split; [apply compareKey_Less_irrefl|].
  split; [apply compareKey_Less_trans|].
  split; [apply compareKey_Less_total|].
  split.
  { intros H. apply compareKey_Less_asym in H.
    by apply compareKey_Less_false in H. }
  split; [|done]. unfold compareKey. simpl. rewrite (Z.eqb_sym (get DIM a)).
  done.
Qed.

(** ** Insertion and erasure together *)

Lemma erase_t_insert_t s :
  ∀ DIM k v new_a, find_t KeySize DIM k s = None →
    erase_t KeySize DIM k (insert_t KeySize DIM k v new_a s) = s.
Proof.
  induction s as [|l IHl a d r IHr]; intros DIM k v new_a Hf.
  - simpl. apply erase_t_leaf; [by apply bool_decide_eq_true|done|done].
  - simpl in Hf |- *. destruct (tuple_eq d.1 k) eqn:Ek; [done|].
    assert (Hk' : tuple_eq k d.1 = false).
    { apply bool_decide_eq_false in Ek. apply bool_decide_eq_false. congruence. }
    destruct (strictLessKey DIM Less k d.1) eqn:El.
    + rewrite (erase_t_lt _ _ _ _ _ _ Hk' El). f_equal. by apply IHl.
    + rewrite (erase_t_ge _ _ _ _ _ _ Hk' El). f_equal. by apply IHr.
Qed.

Lemma repr_same_nodes h h' s :
  ∀ par, repr h par s → repr h' par s → ∀ x, x ∈ ptrs s → h !! x = h' !! x.
Proof.
  induction s as [|l IHl a d r IHr]; intros par R R' x Hx.
  - by apply elem_of_nil in Hx.
  - destruct R as (n & Hn & Hd & Hp & Hl & Hr & Rl & Rr).
    destruct R' as (n' & Hn' & Hd' & Hp' & Hl' & Hr' & Rl' & Rr').
    rewrite ptrs_Br in Hx.
    apply elem_of_app in Hx as [Hx|[->|Hx]%elem_of_cons]; eauto.
    rewrite Hn, Hn'. f_equal. rewrite <- (Node_eta n), <- (Node_eta n').
    congruence.
Qed.

Lemma owns_unique t t' s :
  owns t s → owns t' s → size t = size t' → t = t'.
Proof.
  intros ((Hroot & R & _) & Hsub) ((Hroot' & R' & _) & Hsub') Hsz.
  destruct t as [h rt sz], t' as [h' rt' sz']. simpl in *. unfold size in Hsz.
  simpl in Hsz. f_equal; [|congruence|done].
  apply map_eq. intros x. destruct (decide (x ∈ ptrs s)) as [Hx|Hx].
  - by apply (repr_same_nodes _ _ _ _ R R').
  - assert (h !! x = None) as -> by (apply not_elem_of_dom; auto).
    symmetry. apply not_elem_of_dom. auto.
Qed.

(** X21. On a tree that owns its nodes and counts them right, [insert] of a
    key that [find] does not reach followed by [erase] of that key gives
    back the tree as it was: the same nodes at the same addresses, the
    same root and the same size; [erase] returns [true]. *)
Theorem erase_undoes_insert t s k v :
  owns t s → size t = Z.of_nat (length (ptrs s)) → size t + 1 < size_t_mod →
  find KeySize t k = Some (end_ t) →
  ∃ t1, insert KeySize k v t = Some t1
        ∧ size t1 = size t + 1
        ∧ erase KeySize k t1 = Some (true, t).
Proof.
  intros Ho Hsz Hlt Hf. pose proof Ho as (Hs & _).
  rewrite (find_spec _ _ _ Hs) in Hf. injection Hf as Hf. unfold end_ in Hf.
  destruct (insert_spec t s k v Hs) as (t1 & Hins & Hs1).
  pose proof (owns_insert _ _ _ _ _ Ho Hins) as Ho1.
  set (new_a := fresh (dom (heap t))) in *.
  set (s1 := insert_t KeySize 0 k v new_a s) in *.
  assert (Hlen1 : length (ptrs s1) = S (length (ptrs s))).
  { subst s1. by rewrite length_ptrs_insert_t, Hf. }
  assert (Hsz1 : size t1 = size t + 1).
  { pose proof Hs as (Hroot & R & Hnd).
    destruct (insert_in_spec s None t (fuel_of (heap t)) 0%nat k v R Hnd
                (repr_fuel _ _ _ R Hnd)) as (b & t2 & Hcall & _ & _ & _ & Hts).
    pose proof (insert_in_flag _ _ _ _ _ _ _ _ _ _ R (repr_fuel _ _ _ R Hnd)
                  Hcall) as Hb. rewrite Hf in Hb. subst b.
    unfold insert in Hins. rewrite Hroot, Hcall in Hins. simpl in Hins.
    injection Hins as <-. unfold size in *. simpl. rewrite Hts.
    apply wrap_small. lia. }
  exists t1. split; [done|]. split; [done|].
  destruct (erase_spec t1 s1 k Hs1 ltac:(lia) ltac:(lia))
    as (t2 & Her & Hs2 & Hsz2).
  pose proof (owns_erase _ _ _ _ _ Ho1 ltac:(lia) ltac:(lia) Her) as Ho2.
  fold s1 in Ho2.
  assert (E : erase_t KeySize 0 k s1 = s) by (by apply erase_t_insert_t).
  rewrite E in *. rewrite Her. do 2 f_equal.
  - apply bool_decide_eq_true. lia.
  - apply (owns_unique _ _ s); [done|done|lia].
Qed.

(** ** Erasure where keys do not tie *)

(** X25. Where no two keys of the tree agree in any component, [erase(k)]
    keeps the invariant: on a tree that satisfies it, holds no key twice
    and counts its nodes right, the tree after [erase(k)] satisfies the
    invariant and holds no key twice, and [find] gives [end()] for another
    key exactly when it did before. *)
Theorem erase_keeps_invariant_without_ties t s k :
  (0 < KeySize)%nat →
  shape_of t s → kd_invariant KeySize 0 s → NoDup (entries s).*1 →
  (∀ k1 k2 (dim : nat), k1 ∈ (entries s).*1 → k2 ∈ (entries s).*1 → k1 ≠ k2 →
     (dim < KeySize)%nat → get dim k1 ≠ get dim k2) →
  size t = Z.of_nat (length (ptrs s)) → size t < size_t_mod →
  ∃ b t' s',
    erase KeySize k t = Some (b, t')
    ∧ shape_of t' s'
    ∧ kd_invariant KeySize 0 s'
    ∧ NoDup (entries s').*1
    ∧ entries s' ≡ₚ filter (λ e, e.1 ≠ k) (entries s)
    ∧ (∀ k', k' ≠ k →
         (find KeySize t' k' = Some (end_ t') ↔ find KeySize t k' = Some (end_ t))).
Proof.
  intros Hk Hs Hinv Hnd Hties Hsz Hlt.
  destruct (erase_spec t s k Hs Hsz Hlt) as (t' & Her & Hs' & _).
  set (s' := erase_t KeySize 0 k s) in *.
  pose proof (erase_t_removes s 0%nat k Hinv Hnd) as Hperm. fold s' in Hperm.
  assert (Hsub : ∀ k', k' ∈ (entries s').*1 ↔ k' ∈ (entries s).*1 ∧ k' ≠ k).
  { intros k'. rewrite Hperm, !list_elem_of_fmap. split.
    - intros (e & -> & (Hne & He)%list_elem_of_filter). eauto.
    - intros ((e & -> & He) & Hne). exists e. split; [done|].
      by apply list_elem_of_filter. }
  assert (Hnd' : NoDup (entries s').*1).
  { rewrite Hperm. eapply sublist_NoDup; [exact Hnd|].
    apply fmap_sublist, sublist_filter. }
  assert (Hinv' : kd_invariant KeySize 0 s').
  { apply partitioned_without_ties; auto.
    - apply partitioned_erase_t. by apply kd_invariant_partitioned.
    - intros k1 k2 dim H1 H2. apply Hsub in H1 as (H1 & _).
      apply Hsub in H2 as (H2 & _). by apply Hties. }
  eexists _, t', s'. split; [exact Her|]. split; [done|]. split; [done|].
  split; [done|]. split; [done|]. intros k' Hne.
  rewrite (find_spec _ _ _ Hs), (find_spec _ _ _ Hs'). unfold end_.
  assert (Hiff : ∀ u : tree, kd_invariant KeySize 0 u →
                      (find_t KeySize 0 k' u = None ↔ k' ∉ (entries u).*1)).
  { intros u Hu. split; [|apply find_t_None_absent].
    intros Hf Hin. destruct (find_t_complete u 0%nat k' Hu Hin). congruence. }
  split; intros [= E]; f_equal; apply Hiff; try done;
    apply Hiff in E; try done; rewrite Hsub in *; tauto.
Qed.


End Proofs.

(** * The code at the sample trees *)

(** Shapes of the sample trees, by evaluation. *)
Lemma tree_xyz_shape : shape_of tree_xyz shape_xyz.
Proof. solve_shape. Qed.

Lemma tree_ties_shape : shape_of tree_ties shape_ties.
Proof. solve_shape. Qed.

Lemma tree_left_shape : shape_of tree_left shape_left.
Proof. solve_shape. Qed.

Lemma tree_two_shape : shape_of tree_two shape_two.
Proof. solve_shape. Qed.

(** The example of the specification, by evaluation: three entries,
    [findMin(0)] at [(1,1)], [findMax(1)] at [(2,3)]; erasing [(1,1)]
    leaves two entries and [find((1,1))] at [end()]. *)
Example spec_example :
  KDTree_of 2 nth_element_sorted pairs_xyz = Some tree_xyz
  ∧ size tree_xyz = 3
  ∧ (it ← findMin 2 0 tree_xyz; deref tree_xyz it) = Some ([1; 1], "y")
  ∧ (it ← findMax 2 1 tree_xyz; deref tree_xyz it) = Some ([2; 3], "x")
  ∧ ∃ t', erase 2 [1; 1] tree_xyz = Some (true, t')
          ∧ size t' = 2
          ∧ find 2 t' [1; 1] = Some (end_ t').
Proof.
  repeat split; try (vm_compute; reflexivity).
  eexists. repeat split; vm_compute; reflexivity.
Qed.

(** ** Where the code leaves the specification *)

(** C1. The invariant does not survive keys that tie in the dimension of a
    node.  Bulk construction of [(3,1), (3,2), (3,3)] makes [(3,2)] the root
    and puts [(3,1)], whose component 0 is not smaller, in its left
    subtree.  Erasing the root [(5,0)] of a tree whose left subtree holds
    [(3,1)] and [(3,2)] makes [(3,2)] the root and leaves [(3,1)] to its
    left.  In both trees [find] no longer reaches [(3,1)]. *)
Theorem invariant_broken_by_ties :
  (KDTree_of 2 nth_element_sorted pairs_ties = Some tree_ties
   ∧ shape_of tree_ties shape_ties
   ∧ ¬ kd_invariant 2 0 shape_ties
   ∧ find 2 tree_ties [3; 1] = Some (end_ tree_ties))
  ∧ (kd_invariant 2 0 shape_left
     ∧ ∃ t', erase 2 [5; 0] tree_left = Some (true, t')
             ∧ shape_of t' shape_left_erased
             ∧ ¬ kd_invariant 2 0 shape_left_erased
             ∧ find 2 t' [3; 1] = Some (end_ t')).
Proof.
  split.
  - split; [vm_compute; reflexivity|]. split; [apply tree_ties_shape|].
    split; [|vm_compute; reflexivity].
    intros (H & _). apply Forall_cons in H as (H & _).
    unfold get in H. simpl in H. lia.
  - split; [solve_inv|].
    eexists. split; [vm_compute; reflexivity|].
    split; [solve_shape|]. split; [|vm_compute; reflexivity].
    intros (H & _). apply Forall_cons in H as (H & _).
    unfold get in H. simpl in H. lia.
Qed.

(** The tree of C1 does not come from the sorted arrangement alone: every
    [std::nth_element] that keeps its promise builds it. *)
Lemma bulk_ties_forced
    (nth_element : (Key * string → Key * string → bool) → nat →
                   list (Key * string) → list (Key * string)) :
  (∀ DIM n v, nth_element_post (compareData DIM) n v
                (nth_element (compareData DIM) n v)) →
  KDTree_of 2 nth_element pairs_ties = Some tree_ties.
Proof.
  intros Hok. unfold KDTree_of.
  change (dedup pairs_ties) with pairs_ties.
  change (S (length pairs_ties)) with (S 3). remember 3%nat as fuel eqn:Ef.
  cbn [KDTree_helper pairs_ties length]. change ((3 - 1) / 2)%nat with 1%nat.
  assert (E : nth_element (compareData 0) 1%nat pairs_ties = pairs_ties).
  { destruct (Hok 0%nat 1%nat pairs_ties) as (Hperm & Hpart).
    pose proof (Permutation_length Hperm) as Hlen.
    assert (Hnd : NoDup (nth_element (compareData 0) 1%nat pairs_ties)).
    { rewrite Hperm. apply (bool_decide_unpack _). vm_compute. exact I. }
    assert (Hin : ∀ x, x ∈ nth_element (compareData 0) 1%nat pairs_ties →
                       x ∈ pairs_ties) by (intros x; by rewrite Hperm).
    destruct (nth_element (compareData 0) 1%nat pairs_ties)
      as [|x [|d [|y [|? ?]]]]; try discriminate Hlen.
    destruct (Hpart d eq_refl) as (Htake & Hdrop).
    apply Forall_cons in Htake as (Htake & _).
    apply Forall_cons in Hdrop as (Hdrop & _).
    pose proof (Hin x ltac:(left)) as Hx.
    pose proof (Hin d ltac:(right; left)) as Hd.
    pose proof (Hin y ltac:(right; right; left)) as Hy.
    unfold pairs_ties in Hx, Hd, Hy.
    repeat (apply elem_of_cons in Hx as [->|Hx]);
      [| | |by apply elem_of_nil in Hx];
      (repeat (apply elem_of_cons in Hd as [->|Hd]);
        [| | |by apply elem_of_nil in Hd]);
      (repeat (apply elem_of_cons in Hy as [->|Hy]);
        [| | |by apply elem_of_nil in Hy]);
      first [ reflexivity
            | by vm_compute in Htake
            | by vm_compute in Hdrop
            | apply (bool_decide_pack _) in Hnd; by vm_compute in Hnd ]. }
  rewrite E. cbn [lookup list_lookup pairs_ties mbind option_bind take drop Nat.add].
  subst fuel.
  pose proof (@KDTree_helper_singleton string 2 nth_element Hok) as Hone.
  rewrite Hone. cbn [mbind option_bind]. unfold set_left at 1.
  rewrite lookup_insert_ne, lookup_insert_eq by (by vm_compute).
  cbn [mbind option_bind data parent left right].
  rewrite Hone. cbn [mbind option_bind]. unfold set_right.
  rewrite lookup_insert_ne, lookup_insert_eq by (by vm_compute).
  cbn [mbind option_bind data parent left right].
  vm_compute. reflexivity.
Qed.

(** C2. [erase(it)] on a leaf that is not the root releases the node and
    leaves the link of its parent in place.  In the tree with root [(5,0)]
    and right child [(7,1)], erasing at [(7,1)], which has no successor,
    returns an iterator at the root instead of [end()]; the root's right
    link then points to no node, so [++] on the returned iterator and
    [find] of the erased key fault. *)
Theorem erase_it_leaf_leaves_dangling_link :
  ∃ a t' n,
    find 2 tree_two [7; 1] = Some (Some a)
    ∧ forward tree_two = Some [0%nat; a]
    ∧ erase_it 2 (Some a) tree_two = Some (root tree_two, t')
    ∧ root tree_two ≠ end_ tree_two
    ∧ size t' = 1
    ∧ heap t' !! a = None
    ∧ heap t' !! 0%nat = Some n ∧ right n = Some a
    ∧ increment t' (root tree_two) = None
    ∧ find 2 t' [7; 1] = None.
Proof.
  exists 1%nat. eexists. eexists.
  split; [vm_compute; reflexivity|].
  split; [vm_compute; reflexivity|].
  split; [vm_compute; reflexivity|].
  split; [by vm_compute|].
  repeat split; vm_compute; reflexivity.
Qed.

(** C3. [erase(key)] returns [false] and changes nothing for a key that is
    in the tree but off the path that the descent takes: in the tree built
    in bulk from [(3,1), (3,2), (3,3)], iteration meets [(3,1)] and
    [erase((3,1))] reports no removal. *)
Theorem erase_misses_present_key :
  shape_of tree_ties shape_ties
  ∧ ([3; 1], "a") ∈ entries shape_ties
  ∧ (∃ a, forward tree_ties = Some (a :: [0%nat; 2%nat])
          ∧ deref tree_ties (Some a) = Some ([3; 1], "a"))
  ∧ erase 2 [3; 1] tree_ties = Some (false, tree_ties).
Proof.
  split; [apply tree_ties_shape|]. split; [left|].
  split; [exists 1%nat; split; vm_compute; reflexivity|].
  vm_compute. reflexivity.
Qed.

(** * The theorems at the sample trees *)

Lemma insert_twice_upsert_witness :
  shape_of tree_xyz shape_xyz
  ∧ ∃ t1 t2 a n1,
      insert 2 [1; 2] "a" tree_xyz = Some t1
      ∧ insert 2 [1; 2] "b" t1 = Some t2
      ∧ find 2 t2 [1; 2] = Some (Some a)
      ∧ deref t2 (Some a) = Some ([1; 2], "b")
      ∧ size t2 = size t1
      ∧ root t2 = root t1
      ∧ heap t1 !! a = Some n1
      ∧ heap t2 = <[a := mkNode ([1; 2], "b") (parent n1) (left n1) (right n1)]>
                    (heap t1).
Proof.
  split; [solve_shape|].
  apply (insert_twice_upsert 2 tree_xyz shape_xyz [1; 2] "a" "b").
  solve_shape.
Defined.

Lemma findMax_findMin_extremum_witness :
  shape_of tree_xyz shape_xyz
  ∧ partitioned 2 0 shape_xyz
  ∧ root tree_xyz ≠ None
  ∧ (1 < 2)%nat
  ∧ (∃ a n, findMax 2 1 tree_xyz = Some (Some a)
            ∧ findMax_static 2 1 tree_xyz = Some (Some a)
            ∧ heap tree_xyz !! a = Some n ∧ (a, data n) ∈ nodes shape_xyz
            ∧ Forall (λ e, get 1 e.1 ≤ get 1 (key n)) (entries shape_xyz))
  ∧ (∃ a n, findMin 2 1 tree_xyz = Some (Some a)
            ∧ findMin_static 2 1 tree_xyz = Some (Some a)
            ∧ heap tree_xyz !! a = Some n ∧ (a, data n) ∈ nodes shape_xyz
            ∧ Forall (λ e, get 1 (key n) ≤ get 1 e.1) (entries shape_xyz)).
Proof.
  split; [solve_shape|]. split; [solve_inv|].
  split; [by vm_compute|]. split; [lia|].
  apply (findMax_findMin_extremum 2 tree_xyz shape_xyz 1);
    [solve_shape|solve_inv|by vm_compute|lia].
Defined.

Lemma forward_iteration_inorder_witness :
  shape_of tree_xyz shape_xyz
  ∧ begin tree_xyz = Some (head (ptrs shape_xyz))
  ∧ forward tree_xyz = Some (ptrs shape_xyz)
  ∧ Forall2 (λ a e, deref tree_xyz (Some a) = Some e)
            (ptrs shape_xyz) (entries shape_xyz)
  ∧ NoDup (ptrs shape_xyz)
  ∧ (root tree_xyz = None → begin tree_xyz = Some (end_ tree_xyz)).
Proof.
  split; [solve_shape|].
  apply (forward_iteration_inorder tree_xyz shape_xyz). solve_shape.
Defined.

Lemma traversal_round_trip_witness :
  shape_of tree_xyz shape_xyz
  ∧ ∃ b fw,
      begin tree_xyz = Some b
      ∧ step (increment tree_xyz) 3 b = Some (end_ tree_xyz)
      ∧ step (decrement tree_xyz) 3 (end_ tree_xyz) = Some b
      ∧ trace (increment tree_xyz) 3 b = Some fw
      ∧ trace (decrement tree_xyz) 3 (end_ tree_xyz) = Some (reverse fw)
      ∧ fw = (Some <$> ptrs shape_xyz) ++ [None].
Proof.
  split; [solve_shape|].
  apply (traversal_round_trip tree_xyz shape_xyz). solve_shape.
Defined.

Lemma findMin_findMax_empty_witness :
  (0 < 2)%nat
  ∧ root (@empty_tree string) = None
  ∧ findMin 2 5 (@empty_tree string) = Some (end_ (@empty_tree string))
  ∧ findMax 2 5 (@empty_tree string) = Some (end_ (@empty_tree string))
  ∧ findMin_static 2 5 (@empty_tree string) = Some (end_ (@empty_tree string))
  ∧ findMax_static 2 5 (@empty_tree string) = Some (end_ (@empty_tree string)).
Proof.
  split; [lia|]. split; [reflexivity|].
  apply (findMin_findMax_empty 2 (@empty_tree string) 5); [lia|reflexivity].
Defined.

Lemma decrement_begin_witness :
  shape_of tree_xyz shape_xyz
  ∧ root tree_xyz ≠ None
  ∧ ∃ a, begin tree_xyz = Some (Some a)
         ∧ decrement tree_xyz (Some a) = Some (Some a).
Proof.
  split; [solve_shape|]. split; [by vm_compute|].
  apply (decrement_begin tree_xyz shape_xyz); [solve_shape|by vm_compute].
Defined.

Lemma KDTree_of_keeps_last_witness :
  (∀ DIM n (v : list (Key * string)),
     nth_element_post (compareData DIM) n v
       (nth_element_sorted (compareData DIM) n v))
  ∧ ∃ t s,
      KDTree_of 2 nth_element_sorted pairs_dup = Some t
      ∧ shape_of t s
      ∧ NoDup (entries s).*1
      ∧ (∀ k x, (k, x) ∈ entries s ↔ last_value k pairs_dup = Some x)
      ∧ (∀ k, k ∈ (entries s).*1 ↔ k ∈ pairs_dup.*1)
      ∧ size t = Z.of_nat (length (distinct_keys pairs_dup))
      ∧ length (entries s) = length (distinct_keys pairs_dup).
Proof.
  split; [apply nth_element_sorted_ok|].
  apply (KDTree_of_keeps_last 2 nth_element_sorted nth_element_sorted_ok pairs_dup).
Defined.

(** * The further properties at the sample trees *)

Lemma decrement_undoes_increment_witness :
  shape_of tree_xyz shape_xyz
  ∧ 0%nat ∈ ptrs shape_xyz
  ∧ ∃ it, increment tree_xyz (Some 0%nat) = Some it
          ∧ decrement tree_xyz it = Some (Some 0%nat)
          ∧ (it = end_ tree_xyz ↔ last (ptrs shape_xyz) = Some 0%nat).
Proof.
  split; [solve_shape|]. split; [solve_dec|].
  apply (decrement_undoes_increment tree_xyz shape_xyz 0%nat);
    [solve_shape|solve_dec].
Defined.

Lemma increment_undoes_decrement_witness :
  shape_of tree_xyz shape_xyz
  ∧ (∀ a, Some 0%nat = Some a → a ∈ ptrs shape_xyz)
  ∧ begin tree_xyz ≠ Some (Some 0%nat)
  ∧ ∃ b, decrement tree_xyz (Some 0%nat) = Some (Some b)
         ∧ increment tree_xyz (Some b) = Some (Some 0%nat).
Proof.
  assert (Hin : ∀ a, Some 0%nat = Some a → a ∈ ptrs shape_xyz).
  { intros a E. injection E as <-. solve_dec. }
  split; [solve_shape|]. split; [exact Hin|]. split; [by vm_compute|].
  apply (increment_undoes_decrement tree_xyz shape_xyz (Some 0%nat));
    [solve_shape|exact Hin|by vm_compute].
Defined.

Lemma insert_leaves_other_keys_witness :
  shape_of tree_xyz shape_xyz
  ∧ [4; 0] ≠ [1; 2]
  ∧ ∃ t' it,
      insert 2 [1; 2] "a" tree_xyz = Some t'
      ∧ find 2 tree_xyz [4; 0] = Some it
      ∧ find 2 t' [4; 0] = Some it
      ∧ deref t' it = deref tree_xyz it.
Proof.
  split; [solve_shape|]. split; [by vm_compute|].
  apply (insert_leaves_other_keys 2 tree_xyz shape_xyz [1; 2] "a" [4; 0]);
    [solve_shape|by vm_compute].
Defined.

Lemma insert_new_key_witness :
  shape_of tree_xyz shape_xyz
  ∧ find 2 tree_xyz [1; 2] = Some (end_ tree_xyz)
  ∧ let new_a := fresh (dom (heap tree_xyz)) in
    ∃ t' s' xs ys,
      insert 2 [1; 2] "a" tree_xyz = Some t'
      ∧ shape_of t' s'
      ∧ nodes shape_xyz = xs ++ ys
      ∧ nodes s' = xs ++ (new_a, ([1; 2], "a")) :: ys
      ∧ (new_a ∉ ptrs shape_xyz)
      ∧ size t' = wrap (size tree_xyz + 1)
      ∧ find 2 t' [1; 2] = Some (Some new_a)
      ∧ deref t' (Some new_a) = Some ([1; 2], "a").
Proof.
  split; [solve_shape|]. split; [vm_compute; reflexivity|].
  apply (insert_new_key 2 tree_xyz shape_xyz [1; 2] "a");
    [solve_shape|vm_compute; reflexivity].
Defined.

Lemma insert_keeps_kd_invariant_witness :
  shape_of tree_xyz shape_xyz
  ∧ kd_invariant 2 0 shape_xyz
  ∧ NoDup (entries shape_xyz).*1
  ∧ ∃ t' s',
      insert 2 [1; 2] "a" tree_xyz = Some t'
      ∧ shape_of t' s'
      ∧ kd_invariant 2 0 s'
      ∧ NoDup (entries s').*1
      ∧ ([1; 2], "a") ∈ entries s'
      ∧ (∀ k', k' ∈ (entries s').*1 ↔ k' = [1; 2] ∨ k' ∈ (entries shape_xyz).*1).
Proof.
  split; [solve_shape|]. split; [solve_inv|]. split; [solve_dec|].
  apply (insert_keeps_kd_invariant 2 tree_xyz shape_xyz [1; 2] "a");
    [solve_shape|solve_inv|solve_dec].
Defined.

Lemma find_reaches_every_key_witness :
  shape_of tree_xyz shape_xyz
  ∧ ∃ it,
      find 2 tree_xyz [4; 0] = Some it
      ∧ (∀ a, it = Some a →
              ∃ v, deref tree_xyz it = Some ([4; 0], v)
                   ∧ (a, ([4; 0], v)) ∈ nodes shape_xyz)
      ∧ (kd_invariant 2 0 shape_xyz →
         (it = end_ tree_xyz ↔ [4; 0] ∉ (entries shape_xyz).*1)).
Proof.
  split; [solve_shape|].
  apply (find_reaches_every_key 2 tree_xyz shape_xyz [4; 0]). solve_shape.
Defined.

Lemma insert_keeps_iterators_valid_witness :
  shape_of tree_xyz shape_xyz
  ∧ (2%nat, ([4; 0], "z")) ∈ nodes shape_xyz
  ∧ ∃ t' s',
      insert 2 [4; 0] "w" tree_xyz = Some t'
      ∧ shape_of t' s'
      ∧ 2%nat ∈ ptrs s'
      ∧ deref tree_xyz (Some 2%nat) = Some ([4; 0], "z")
      ∧ deref t' (Some 2%nat)
        = Some (if bool_decide (find 2 tree_xyz [4; 0] = Some (Some 2%nat))
                then ([4; 0], "w") else ([4; 0], "z")).
Proof.
  assert (Hin : (2%nat, ([4; 0], "z")) ∈ nodes shape_xyz).
  { simpl. right. right. left. }
  split; [solve_shape|]. split; [exact Hin|].
  apply (insert_keeps_iterators_valid 2 tree_xyz shape_xyz [4; 0] "w" 2%nat
           ([4; 0], "z")); [solve_shape|exact Hin].
Defined.

Lemma erase_unreachable_key_witness :
  shape_of tree_ties shape_ties
  ∧ find 2 tree_ties [3; 1] = Some (end_ tree_ties)
  ∧ erase 2 [3; 1] tree_ties = Some (false, tree_ties).
Proof.
  split; [solve_shape|]. split; [vm_compute; reflexivity|].
  apply (erase_unreachable_key 2 tree_ties shape_ties [3; 1]);
    [solve_shape|vm_compute; reflexivity].
Defined.

Lemma erase_removes_present_key_witness :
  shape_of tree_xyz shape_xyz
  ∧ kd_invariant 2 0 shape_xyz
  ∧ NoDup (entries shape_xyz).*1
  ∧ size tree_xyz = Z.of_nat (length (ptrs shape_xyz))
  ∧ size tree_xyz < size_t_mod
  ∧ [1; 1] ∈ (entries shape_xyz).*1
  ∧ ∃ t' s',
      erase 2 [1; 1] tree_xyz = Some (true, t')
      ∧ shape_of t' s'
      ∧ entries s' ≡ₚ filter (λ e, e.1 ≠ [1; 1]) (entries shape_xyz)
      ∧ size t' = size tree_xyz - 1
      ∧ find 2 t' [1; 1] = Some (end_ t').
Proof.
  split; [solve_shape|]. split; [solve_inv|]. split; [solve_dec|].
  split; [vm_compute; reflexivity|]. split; [vm_compute; reflexivity|].
  split; [solve_dec|].
  apply (erase_removes_present_key 2 tree_xyz shape_xyz [1; 1]);
    [solve_shape|solve_inv|solve_dec|vm_compute; reflexivity
    |vm_compute; reflexivity|solve_dec].
Defined.

Lemma erase_keeps_good_order_witness :
  shape_of tree_left shape_left
  ∧ size tree_left = Z.of_nat (length (ptrs shape_left))
  ∧ size tree_left < size_t_mod
  ∧ ∃ b t' s',
      erase 2 [5; 0] tree_left = Some (b, t')
      ∧ shape_of t' s'
      ∧ size t' = Z.of_nat (length (ptrs s'))
      ∧ ptrs s' `sublist_of` ptrs shape_left
      ∧ (∀ e, e ∈ entries s' → e ∈ entries shape_left)
      ∧ size t' = (if b then size tree_left - 1 else size tree_left)
      ∧ (partitioned 2 0 shape_left → partitioned 2 0 s').
Proof.
  split; [solve_shape|]. split; [vm_compute; reflexivity|].
  split; [vm_compute; reflexivity|].
  apply (erase_keeps_good_order 2 tree_left shape_left [5; 0]);
    [solve_shape|vm_compute; reflexivity|vm_compute; reflexivity].
Defined.

Lemma built_size_counts_iteration_witness :
  (∀ DIM n (v : list (Key * string)),
     nth_element_post (compareData DIM) n v
       (nth_element_sorted (compareData DIM) n v))
  ∧ built 2 nth_element_sorted tree_xyz
  ∧ ∃ nodes_met,
      forward tree_xyz = Some nodes_met
      ∧ NoDup nodes_met
      ∧ size tree_xyz = Z.of_nat (length nodes_met)
      ∧ (size tree_xyz = 0 ↔ begin tree_xyz = Some (end_ tree_xyz)).
Proof.
  split; [apply nth_element_sorted_ok|].
  assert (Hb : built 2 nth_element_sorted tree_xyz).
  { apply (built_of 2 nth_element_sorted pairs_xyz); vm_compute; reflexivity. }
  split; [exact Hb|].
  apply (built_size_counts_iteration 2 nth_element_sorted nth_element_sorted_ok
           tree_xyz Hb).
Defined.

Lemma built_trees_own_their_nodes_witness :
  (∀ DIM n (v : list (Key * string)),
     nth_element_post (compareData DIM) n v
       (nth_element_sorted (compareData DIM) n v))
  ∧ built 2 nth_element_sorted tree_cut
  ∧ ∃ s, shape_of tree_cut s
         ∧ dom (heap tree_cut) = list_to_set (ptrs s)
         ∧ destructor tree_cut = Some ∅.
Proof.
  split; [apply nth_element_sorted_ok|].
  assert (Hb : built 2 nth_element_sorted tree_cut).
  { apply (built_erase 2 nth_element_sorted [2; 3] tree_grown true tree_cut);
      [|vm_compute; reflexivity].
    apply (built_insert 2 nth_element_sorted [1; 2] "a" tree_xyz tree_grown);
      [|vm_compute; reflexivity|vm_compute; reflexivity].
    apply (built_of 2 nth_element_sorted pairs_xyz); vm_compute; reflexivity. }
  split; [exact Hb|].
  apply (built_trees_own_their_nodes 2 nth_element_sorted nth_element_sorted_ok
           tree_cut Hb).
Defined.

Lemma destructor_releases_the_tree_witness :
  shape_of tree_xyz shape_xyz
  ∧ ∃ h', destructor tree_xyz = Some h'
          ∧ (∀ x, x ∈ ptrs shape_xyz → h' !! x = None)
          ∧ (∀ x, x ∉ ptrs shape_xyz → h' !! x = heap tree_xyz !! x)
          ∧ base.size h'
            = (base.size (heap tree_xyz) - length (ptrs shape_xyz))%nat.
Proof.
  split; [solve_shape|].
  apply (destructor_releases_the_tree tree_xyz shape_xyz). solve_shape.
Defined.

Lemma built_trees_never_fault_witness :
  (∀ DIM n (v : list (Key * string)),
     nth_element_post (compareData DIM) n v
       (nth_element_sorted (compareData DIM) n v))
  ∧ built 2 nth_element_sorted tree_ties
  ∧ (0 < 2)%nat
  ∧ is_Some (find 2 tree_ties [3; 2])
  ∧ is_Some (insert 2 [3; 2] "z" tree_ties)
  ∧ is_Some (erase 2 [3; 2] tree_ties)
  ∧ is_Some (findMin 2 3 tree_ties)
  ∧ is_Some (findMax 2 3 tree_ties)
  ∧ is_Some (KDTree_copy tree_ties)
  ∧ is_Some (forward tree_ties)
  ∧ is_Some (destructor tree_ties)
  ∧ (∀ a, find 2 tree_ties [3; 2] = Some (Some a) →
          is_Some (increment tree_ties (Some a))
          ∧ is_Some (decrement tree_ties (Some a))
          ∧ is_Some (deref tree_ties (Some a))).
Proof.
  split; [apply nth_element_sorted_ok|].
  assert (Hb : built 2 nth_element_sorted tree_ties).
  { apply (built_of 2 nth_element_sorted pairs_ties); vm_compute; reflexivity. }
  split; [exact Hb|]. split; [lia|].
  apply (built_trees_never_fault 2 nth_element_sorted nth_element_sorted_ok
           tree_ties [3; 2] "z" 3 Hb); lia.
Defined.

Lemma operator_assign_copies_witness :
  let objs : gmap ptr (KDTree string) := {[ 0%nat := tree_two; 1%nat := tree_xyz ]} in
  0%nat ≠ 1%nat
  ∧ objs !! 0%nat = Some tree_two
  ∧ objs !! 1%nat = Some tree_xyz
  ∧ owns tree_two shape_two
  ∧ shape_of tree_xyz shape_xyz
  ∧ (∃ t' s',
       operator_assign 0%nat 1%nat objs = Some (<[0%nat := t']> objs)
       ∧ KDTree_copy tree_xyz = Some t'
       ∧ owns t' s'
       ∧ same_data shape_xyz s'
       ∧ entries s' = entries shape_xyz
       ∧ size t' = size tree_xyz)
  ∧ operator_assign 1%nat 1%nat objs = Some objs.
Proof.
  intros objs.
  assert (Ho : owns tree_two shape_two).
  { apply owns_by_count; [solve_shape|vm_compute; lia]. }
  split; [lia|]. split; [vm_compute; reflexivity|].
  split; [vm_compute; reflexivity|]. split; [exact Ho|]. split; [solve_shape|].
  apply (operator_assign_copies 0%nat 1%nat objs tree_two tree_xyz
           shape_two shape_xyz);
    [lia|vm_compute; reflexivity|vm_compute; reflexivity|exact Ho|solve_shape].
Defined.

Lemma erase_it_at_inner_or_only_node_witness :
  let ctx := [InL 0%nat ([5; 0], "a") Leaf] in
  let l := @Leaf string in
  let r := Br Leaf 2%nat ([3; 2], "c") Leaf in
  let d := ([3; 1], "b") in
  (0 < 2)%nat
  ∧ shape_of tree_left (plug (Br l 1%nat d r) ctx)
  ∧ size tree_left = Z.of_nat (length (ptrs (plug (Br l 1%nat d r) ctx)))
  ∧ size tree_left < size_t_mod
  ∧ (ctx = [] ∨ root_of l ≠ None ∨ root_of r ≠ None)
  ∧ let DIM := dim_at 2 (length ctx) in
    let sub' := erase_t 2 DIM d.1 (Br l 1%nat d r) in
    ∃ it' t',
      erase_it 2 (Some 1%nat) tree_left = Some (it', t')
      ∧ shape_of t' (plug sub' ctx)
      ∧ size t' = Z.of_nat (length (ptrs (plug sub' ctx)))
      ∧ it' = root_of sub'
      ∧ it' = (if bool_decide (root_of l = None ∧ root_of r = None)
               then end_ t' else Some 1%nat)
      ∧ (kd_invariant 2 0 (plug (Br l 1%nat d r) ctx) →
         NoDup (entries (plug (Br l 1%nat d r) ctx)).*1 →
         entries (plug sub' ctx)
         ≡ₚ filter (λ e, e.1 ≠ d.1) (entries (plug (Br l 1%nat d r) ctx))
         ∧ size t' = size tree_left - 1).
Proof.
  intros ctx l r d.
  split; [lia|]. split; [solve_shape|]. split; [vm_compute; reflexivity|].
  split; [vm_compute; reflexivity|].
  split; [right; right; intro E; discriminate E|].
  apply (erase_it_at_inner_or_only_node 2 tree_left ctx l 1%nat d r);
    [lia|solve_shape|vm_compute; reflexivity|vm_compute; reflexivity
    |right; right; intro E; discriminate E].
Defined.

Lemma KDTree_of_balanced_witness :
  (∀ DIM n (v : list (Key * string)),
     nth_element_post (compareData DIM) n v
       (nth_element_sorted (compareData DIM) n v))
  ∧ (length (distinct_keys pairs_dup) < 2 ^ 2)%nat
  ∧ ∃ t s,
      KDTree_of 2 nth_element_sorted pairs_dup = Some t
      ∧ shape_of t s
      ∧ (height s ≤ 2)%nat
      ∧ ∀ a, a ∈ ptrs s →
             ∃ depth,
               depth_from (fuel_of (heap t)) (heap t) (Some a) 0 = Some depth
               ∧ (depth ≤ 2)%nat.
Proof.
  split; [apply nth_element_sorted_ok|]. split; [vm_compute; lia|].
  apply (KDTree_of_balanced 2 nth_element_sorted nth_element_sorted_ok
           pairs_dup 2).
  vm_compute. lia.
Defined.

Lemma KDTree_of_without_ties_witness :
  (∀ DIM n (v : list (Key * string)),
     nth_element_post (compareData DIM) n v
       (nth_element_sorted (compareData DIM) n v))
  ∧ (0 < 2)%nat
  ∧ (∀ k1 k2 (dim : nat), k1 ∈ pairs_xyz.*1 → k2 ∈ pairs_xyz.*1 → k1 ≠ k2 →
       (dim < 2)%nat → get dim k1 ≠ get dim k2)
  ∧ ∃ t s,
      KDTree_of 2 nth_element_sorted pairs_xyz = Some t
      ∧ shape_of t s
      ∧ kd_invariant 2 0 s
      ∧ NoDup (entries s).*1
      ∧ ∀ k, k ∈ pairs_xyz.*1 →
             ∃ a x, find 2 t k = Some (Some a)
                    ∧ deref t (Some a) = Some (k, x)
                    ∧ last_value k pairs_xyz = Some x.
Proof.
  assert (Hties : ∀ k1 k2 (dim : nat),
            k1 ∈ pairs_xyz.*1 → k2 ∈ pairs_xyz.*1 → k1 ≠ k2 →
            (dim < 2)%nat → get dim k1 ≠ get dim k2).
  { intros k1 k2 dim H1 H2 Hne Hd. simpl in H1, H2.
    repeat (apply elem_of_cons in H1 as [->|H1]);
      [| | |by apply elem_of_nil in H1];
      (repeat (apply elem_of_cons in H2 as [->|H2]);
        [| | |by apply elem_of_nil in H2]);
      try done;
      (destruct dim as [|[|dim]]; [by vm_compute|by vm_compute|lia]). }
  split; [apply nth_element_sorted_ok|]. split; [lia|]. split; [exact Hties|].
  apply (KDTree_of_without_ties 2 nth_element_sorted nth_element_sorted_ok
           pairs_xyz); [lia|exact Hties].
Defined.

Lemma KDTree_copy_answers_alike_witness :
  shape_of tree_left shape_left
  ∧ ∃ t' s',
      KDTree_copy tree_left = Some t'
      ∧ shape_of t' s'
      ∧ same_data shape_left s'
      ∧ entries s' = entries shape_left
      ∧ size t' = size tree_left
      ∧ dom (heap t') = list_to_set (ptrs s')
      ∧ (∀ k, ∃ it it',
           find 2 tree_left k = Some it ∧ find 2 t' k = Some it'
           ∧ deref t' it' = deref tree_left it
           ∧ (it' = end_ t' ↔ it = end_ tree_left))
      ∧ (kd_invariant 2 0 shape_left → kd_invariant 2 0 s').
Proof.
  split; [solve_shape|].
  apply (KDTree_copy_answers_alike 2 tree_left shape_left). solve_shape.
Defined.

Lemma findMin_findMax_dimension_wraps_witness :
  (0 < 2)%nat
  ∧ findMin 2 5 tree_xyz = findMin_static 2 (5 mod 2) tree_xyz
  ∧ findMax 2 5 tree_xyz = findMax_static 2 (5 mod 2) tree_xyz
  ∧ findMin 2 (5 + 2) tree_xyz = findMin 2 5 tree_xyz
  ∧ findMax 2 (5 + 2) tree_xyz = findMax 2 5 tree_xyz.
Proof.
  split; [lia|]. apply (findMin_findMax_dimension_wraps 2 tree_xyz 5). lia.
Defined.

Lemma erase_undoes_insert_witness :
  owns tree_xyz shape_xyz
  ∧ size tree_xyz = Z.of_nat (length (ptrs shape_xyz))
  ∧ size tree_xyz + 1 < size_t_mod
  ∧ find 2 tree_xyz [1; 2] = Some (end_ tree_xyz)
  ∧ ∃ t1, insert 2 [1; 2] "a" tree_xyz = Some t1
          ∧ size t1 = size tree_xyz + 1
          ∧ erase 2 [1; 2] t1 = Some (true, tree_xyz).
Proof.
  assert (Ho : owns tree_xyz shape_xyz).
  { apply owns_by_count; [solve_shape|vm_compute; lia]. }
  split; [exact Ho|]. split; [vm_compute; reflexivity|].
  split; [vm_compute; reflexivity|]. split; [vm_compute; reflexivity|].
  apply (erase_undoes_insert 2 tree_xyz shape_xyz [1; 2] "a");
    [exact Ho|vm_compute; reflexivity|vm_compute; reflexivity
    |vm_compute; reflexivity].
Defined.

Lemma insert_in_reports_allocation_witness :
  shape_of tree_xyz shape_xyz
  ∧ ∃ b p t',
      insert_in 2 (fuel_of (heap tree_xyz)) 0 [1; 2] "a" (root tree_xyz) None
                tree_xyz = Some (b, p, t')
      ∧ (b = true ↔ find 2 tree_xyz [1; 2] = Some (end_ tree_xyz))
      ∧ treeSize t' = (if b then wrap (treeSize tree_xyz + 1)
                       else treeSize tree_xyz)
      ∧ base.size (heap t')
        = (if b then S (base.size (heap tree_xyz))
           else base.size (heap tree_xyz)).
Proof.
  split; [solve_shape|].
  apply (insert_in_reports_allocation 2 tree_xyz shape_xyz [1; 2] "a").
  solve_shape.
Defined.

Lemma findMin_findMax_end_only_when_empty_witness :
  (0 < 2)%nat
  ∧ shape_of tree_ties shape_ties
  ∧ ∃ lo hi,
      findMin 2 1 tree_ties = Some lo
      ∧ findMax 2 1 tree_ties = Some hi
      ∧ (lo = end_ tree_ties ↔ root tree_ties = None)
      ∧ (hi = end_ tree_ties ↔ root tree_ties = None)
      ∧ (∀ a, lo = Some a ∨ hi = Some a → a ∈ ptrs shape_ties).
Proof.
  split; [lia|]. split; [solve_shape|].
  apply (findMin_findMax_end_only_when_empty 2 tree_ties shape_ties 1);
    [lia|solve_shape].
Defined.

Lemma erase_keeps_invariant_without_ties_witness :
  (0 < 2)%nat
  ∧ shape_of tree_xyz shape_xyz
  ∧ kd_invariant 2 0 shape_xyz
  ∧ NoDup (entries shape_xyz).*1
  ∧ (∀ k1 k2 (dim : nat),
       k1 ∈ (entries shape_xyz).*1 → k2 ∈ (entries shape_xyz).*1 → k1 ≠ k2 →
       (dim < 2)%nat → get dim k1 ≠ get dim k2)
  ∧ size tree_xyz = Z.of_nat (length (ptrs shape_xyz))
  ∧ size tree_xyz < size_t_mod
  ∧ ∃ b t' s',
      erase 2 [2; 3] tree_xyz = Some (b, t')
      ∧ shape_of t' s'
      ∧ kd_invariant 2 0 s'
      ∧ NoDup (entries s').*1
      ∧ entries s' ≡ₚ filter (λ e, e.1 ≠ [2; 3]) (entries shape_xyz)
      ∧ (∀ k', k' ≠ [2; 3] →
           (find 2 t' k' = Some (end_ t')
            ↔ find 2 tree_xyz k' = Some (end_ tree_xyz))).
Proof.
  assert (Hties : ∀ k1 k2 (dim : nat),
            k1 ∈ (entries shape_xyz).*1 → k2 ∈ (entries shape_xyz).*1 →
            k1 ≠ k2 → (dim < 2)%nat → get dim k1 ≠ get dim k2).
  { intros k1 k2 dim H1 H2 Hne Hd.
    change ((entries shape_xyz).*1) with [[1; 1]; [2; 3]; [4; 0]] in H1, H2.
    repeat (apply elem_of_cons in H1 as [->|H1]);
      [| | |by apply elem_of_nil in H1];
      (repeat (apply elem_of_cons in H2 as [->|H2]);
        [| | |by apply elem_of_nil in H2]);
      try done;
      (destruct dim as [|[|dim]]; [by vm_compute|by vm_compute|lia]). }
  split; [lia|]. split; [solve_shape|]. split; [solve_inv|].
  split; [solve_dec|]. split; [exact Hties|].
  split; [vm_compute; reflexivity|]. split; [vm_compute; reflexivity|].
  apply (erase_keeps_invariant_without_ties 2 tree_xyz shape_xyz [2; 3]);
    [lia|solve_shape|solve_inv|solve_dec|exact Hties|vm_compute; reflexivity
    |vm_compute; reflexivity].
Defined.
